(** * pyaff4: the AFF4 image stream ([pyaff4/aff4_image.py])

    A shallow embedding of [AFF4Image]: the chunking write path
    ([Write], [FlushChunk], [_FlushBevy], [Flush]) and the random-access
    read path ([Read], [_ReadPartial], [_ReadChunkFromBevy]), followed by
    the properties of the stream that hold of this code. *)

From Stdlib Require Import ZArith List Lia Bool Strings.Byte Strings.Ascii
  Strings.String Sorting.Sorted.
From stdpp Require Import base option gmap strings pretty.
Import ListNotations.
Local Open Scope Z_scope.

(** ** Python values *)

(** A Python 2 [str] is a byte string. *)
Definition bytes := list byte.

Definition bs (s : string) : bytes := list_byte_of_string s.

(** [len(s)] *)
Definition len (s : bytes) : Z := Z.of_nat (length s).

(** The position a slice bound [n] denotes in a sequence of length [l]:
    a negative bound counts from the end and is clamped at 0. *)
Definition slice_bound (l n : Z) : nat :=
  Z.to_nat (if n <? 0 then Z.max 0 (l + n) else n).

(** [s[:n]] *)
Definition slice_to (s : bytes) (n : Z) : bytes :=
  firstn (slice_bound (len s) n) s.

(** [s[n:]] *)
Definition slice_from (s : bytes) (n : Z) : bytes :=
  skipn (slice_bound (len s) n) s.

(** The exceptions the module's code can raise. *)
Inductive IOMessage :=
| UnableToFindStorage
| IndexEmpty (chunk_id : Z)
| BevyIndexTooShort (chunk_id : Z)
| UnableToOpen (urn : string).

Inductive Exn :=
| IOError (m : IOMessage)
| StructError
| ZeroDivisionError
| IndexError
| TypeError
| CodecError.

(** Python 2 [a / b] and [a % b] on integers: floor division, the
    remainder has the sign of the divisor, a zero divisor raises. *)
Definition py_div (a b : Z) : Exn + Z :=
  if b =? 0 then inl ZeroDivisionError else inr (a / b).

Definition py_mod (a b : Z) : Exn + Z :=
  if b =? 0 then inl ZeroDivisionError else inr (a mod b).

(** [t[i]] on a tuple: a negative index counts from the end, an index
    out of range raises [IndexError]. *)
Definition py_index (t : list Z) (i : Z) : Exn + Z :=
  let n := Z.of_nat (length t) in
  let j := if i <? 0 then i + n else i in
  if (j <? 0) || (n <=? j) then inl IndexError
  else match nth_error t (Z.to_nat j) with
       | Some v => inr v
       | None => inl IndexError
       end.

(** ** [struct]: unsigned 32-bit little-endian integers *)

Definition byte_of_Z (z : Z) : byte :=
  match Byte.of_N (Z.to_N (Z.land z 255)) with
  | Some b => b
  | None => x00
  end.

Definition Z_of_byte (b : byte) : Z := Z.of_N (Byte.to_N b).

(** The four bytes of [n], least significant first. *)
Definition le_bytes (n : Z) : bytes :=
  [ byte_of_Z n;
    byte_of_Z (Z.shiftr n 8);
    byte_of_Z (Z.shiftr n 16);
    byte_of_Z (Z.shiftr n 24) ].

(** [struct.pack("<I", n)]: raises [struct.error] outside [0, 2^32). *)
Definition pack_I (n : Z) : Exn + bytes :=
  if (n <? 0) || (2 ^ 32 <=? n) then inl StructError
  else inr (le_bytes n).

(** The value of four little-endian bytes. *)
Definition le32 (b0 b1 b2 b3 : byte) : Z :=
  Z.lor (Z_of_byte b0)
    (Z.lor (Z.shiftl (Z_of_byte b1) 8)
       (Z.lor (Z.shiftl (Z_of_byte b2) 16) (Z.shiftl (Z_of_byte b3) 24))).

(** Decoding of consecutive 4-byte groups; [None] when the length is not
    a multiple of four. *)
Fixpoint unpack_words (data : bytes) : option (list Z) :=
  match data with
  | [] => Some []
  | b0 :: b1 :: b2 :: b3 :: rest =>
      match unpack_words rest with
      | Some ws => Some (le32 b0 b1 b2 b3 :: ws)
      | None => None
      end
  | _ => None
  end.

(** [struct.unpack("<" + "I" * count, data)]: raises [struct.error]
    unless [data] holds exactly [4 * count] bytes. *)
Definition unpack_I (count : Z) (data : bytes) : Exn + list Z :=
  if len data =? 4 * Z.max 0 count then
    match unpack_words data with
    | Some ws => inr ws
    | None => inl StructError
    end
  else inl StructError.

(** ** The collaborators of the stream *)

(** The compression tags of [lexicon]; the tag of a stream is one of
    these three. *)
Inductive Compression :=
| AFF4_IMAGE_COMPRESSION_ZLIB
| AFF4_IMAGE_COMPRESSION_SNAPPY
| AFF4_IMAGE_COMPRESSION_STORED.

(** The attribute names of [lexicon] this module reads and writes. *)
Inductive Attribute :=
| AFF4_TYPE
| AFF4_STORED
| AFF4_IMAGE_CHUNK_SIZE
| AFF4_IMAGE_CHUNKS_PER_SEGMENT
| AFF4_STREAM_SIZE
| AFF4_IMAGE_COMPRESSION.

Global Instance Attribute_eq_dec : EqDecision Attribute.
Proof. solve_decision. Defined.

Global Instance Attribute_countable : Countable Attribute.
Proof.
  refine (inj_countable'
    (fun a => match a with
              | AFF4_TYPE => 0%nat | AFF4_STORED => 1%nat
              | AFF4_IMAGE_CHUNK_SIZE => 2%nat
              | AFF4_IMAGE_CHUNKS_PER_SEGMENT => 3%nat
              | AFF4_STREAM_SIZE => 4%nat
              | AFF4_IMAGE_COMPRESSION => 5%nat
              end)
    (fun n => match n with
              | 0%nat => AFF4_TYPE | 1%nat => AFF4_STORED
              | 2%nat => AFF4_IMAGE_CHUNK_SIZE
              | 3%nat => AFF4_IMAGE_CHUNKS_PER_SEGMENT
              | 4%nat => AFF4_STREAM_SIZE
              | _ => AFF4_IMAGE_COMPRESSION
              end) _).
  intros []; reflexivity.
Defined.

(** The values of [rdfvalue] stored in the resolver. *)
Inductive Value :=
| URN (u : string)
| XSDInteger (n : Z)
| CompressionURN (c : Compression)
| AFF4_IMAGE_TYPE.

(** Modelled from the spec: the resolver and the volume, which are not
    part of this module. The resolver is a property store keyed by
    identity and attribute; a volume is known by its identity; the
    members of the volume are named binary segments. *)
Record Resolver := mkResolver {
  attributes : gmap (string * Attribute) Value;
  volumes : gset string;
  members : gmap string bytes
}.

(** Modelled from the spec: [urn.Append(component)], which joins the
    component to the identity with a slash. *)
Definition Append (urn component : string) : string :=
  urn +:+ "/" +:+ component.

Definition zero_pad (width : nat) (s : string) : string :=
  String.concat "" (repeat "0"%string (width - String.length s)) +:+ s.

(** ["%08d" % n] *)
Definition format_08d (n : Z) : string :=
  if n <? 0 then "-" +:+ zero_pad 7 (pretty (Z.abs_N n))
  else zero_pad 8 (pretty (Z.to_N n)).

(** Modelled from the spec: the handle of an open segment, a stream of
    the base class [aff4.AFF4Stream] with a size and a position.
    [Read] returns the bytes available from the position, at most the
    requested number, and advances the position past them. *)
Record Segment := mkSegment {
  seg_data : bytes;
  seg_readptr : Z
}.

Definition seg_Size (h : Segment) : Z := len (seg_data h).

Definition seg_Tell (h : Segment) : Z := seg_readptr h.

Definition seg_Seek (h : Segment) (offset : Z) : Segment :=
  {| seg_data := seg_data h; seg_readptr := offset |}.

Definition seg_Read (h : Segment) (length : Z) : bytes * Segment :=
  let data :=
    firstn (Z.to_nat length) (skipn (Z.to_nat (seg_readptr h)) (seg_data h)) in
  (data, {| seg_data := seg_data h; seg_readptr := seg_readptr h + len data |}).

(** The interface of [zlib] and of [snappy]: compression always
    succeeds, decompression of malformed data raises. *)
Record Codec := mkCodec {
  compress : bytes -> bytes;
  decompress : bytes -> option bytes
}.

(** ** The stream object *)

(** The fields of an [AFF4Image]; [urn], [readptr], [size] and [dirty]
    are those of the base class [aff4.AFF4Stream]. *)
Record AFF4Image := mkImage {
  urn : string;
  chunk_size : Z;
  chunks_per_segment : Z;
  compression : Compression;
  size : Z;
  readptr : Z;
  buffer : bytes;
  bevy : bytes;
  bevy_index : bytes;
  chunk_count_in_bevy : Z;
  bevy_number : Z;
  dirty : bool
}.

Definition with_chunk_size (v : Z) (s : AFF4Image) : AFF4Image :=
  mkImage (urn s) v (chunks_per_segment s) (compression s) (size s)
    (readptr s) (buffer s) (bevy s) (bevy_index s) (chunk_count_in_bevy s)
    (bevy_number s) (dirty s).

Definition with_chunks_per_segment (v : Z) (s : AFF4Image) : AFF4Image :=
  mkImage (urn s) (chunk_size s) v (compression s) (size s)
    (readptr s) (buffer s) (bevy s) (bevy_index s) (chunk_count_in_bevy s)
    (bevy_number s) (dirty s).

Definition with_compression (v : Compression) (s : AFF4Image) : AFF4Image :=
  mkImage (urn s) (chunk_size s) (chunks_per_segment s) v (size s)
    (readptr s) (buffer s) (bevy s) (bevy_index s) (chunk_count_in_bevy s)
    (bevy_number s) (dirty s).

Definition with_size (v : Z) (s : AFF4Image) : AFF4Image :=
  mkImage (urn s) (chunk_size s) (chunks_per_segment s) (compression s) v
    (readptr s) (buffer s) (bevy s) (bevy_index s) (chunk_count_in_bevy s)
    (bevy_number s) (dirty s).

Definition with_readptr (v : Z) (s : AFF4Image) : AFF4Image :=
  mkImage (urn s) (chunk_size s) (chunks_per_segment s) (compression s)
    (size s) v (buffer s) (bevy s) (bevy_index s) (chunk_count_in_bevy s)
    (bevy_number s) (dirty s).

Definition with_buffer (v : bytes) (s : AFF4Image) : AFF4Image :=
  mkImage (urn s) (chunk_size s) (chunks_per_segment s) (compression s)
    (size s) (readptr s) v (bevy s) (bevy_index s) (chunk_count_in_bevy s)
    (bevy_number s) (dirty s).

Definition with_bevy (v : bytes) (s : AFF4Image) : AFF4Image :=
  mkImage (urn s) (chunk_size s) (chunks_per_segment s) (compression s)
    (size s) (readptr s) (buffer s) v (bevy_index s) (chunk_count_in_bevy s)
    (bevy_number s) (dirty s).

Definition with_bevy_index (v : bytes) (s : AFF4Image) : AFF4Image :=
  mkImage (urn s) (chunk_size s) (chunks_per_segment s) (compression s)
    (size s) (readptr s) (buffer s) (bevy s) v (chunk_count_in_bevy s)
    (bevy_number s) (dirty s).

Definition with_chunk_count_in_bevy (v : Z) (s : AFF4Image) : AFF4Image :=
  mkImage (urn s) (chunk_size s) (chunks_per_segment s) (compression s)
    (size s) (readptr s) (buffer s) (bevy s) (bevy_index s) v
    (bevy_number s) (dirty s).

Definition with_bevy_number (v : Z) (s : AFF4Image) : AFF4Image :=
  mkImage (urn s) (chunk_size s) (chunks_per_segment s) (compression s)
    (size s) (readptr s) (buffer s) (bevy s) (bevy_index s)
    (chunk_count_in_bevy s) v (dirty s).

Definition with_dirty (v : bool) (s : AFF4Image) : AFF4Image :=
  mkImage (urn s) (chunk_size s) (chunks_per_segment s) (compression s)
    (size s) (readptr s) (buffer s) (bevy s) (bevy_index s)
    (chunk_count_in_bevy s) (bevy_number s) v.

(** The stream object together with the store it acts on. *)
Record World := mkWorld {
  self : AFF4Image;
  resolver : Resolver
}.

(** ** Methods as state transformers that may raise *)

(** A call returns a value, or raises, in both cases leaving the object
    and the store as it mutated them; [OutOfFuel] marks a loop that was
    cut before its condition became false. *)
Inductive Outcome (A : Type) :=
| Ok (v : A) (w : World)
| Raise (e : Exn) (w : World)
| OutOfFuel.

Arguments Ok {A} v w.
Arguments Raise {A} e w.
Arguments OutOfFuel {A}.

Definition M (A : Type) : Type := World -> Outcome A.

Definition ret {A} (v : A) : M A := fun w => Ok v w.

Definition bind {A B} (c : M A) (k : A -> M B) : M B :=
  fun w => match c w with
           | Ok v w' => k v w'
           | Raise e w' => Raise e w'
           | OutOfFuel => OutOfFuel
           end.

Definition raise {A} (e : Exn) : M A := fun w => Raise e w.

Definition lift {A} (r : Exn + A) : M A :=
  fun w => match r with inl e => Raise e w | inr v => Ok v w end.

Definition get_self : M AFF4Image := fun w => Ok (self w) w.

Definition modify (f : AFF4Image -> AFF4Image) : M unit :=
  fun w => Ok tt (mkWorld (f (self w)) (resolver w)).

Notation "x <- c ;; k" := (bind c (fun x => k))
  (at level 100, c at next level, right associativity).
Notation "c ;;; k" := (bind c (fun _ => k))
  (at level 100, right associativity).
Notation "x <-? c ;; k" :=
  (match c with inl e => inl e | inr x => k end)
  (at level 100, c at next level, right associativity).

(** The state a call leaves behind, when it finishes. *)
Definition final {A} (o : Outcome A) : option World :=
  match o with
  | Ok _ w => Some w
  | Raise _ w => Some w
  | OutOfFuel => None
  end.

(** [resolver.Get(self.urn, attribute)] *)
Definition resolver_Get (a : Attribute) : M (option Value) :=
  fun w => Ok (attributes (resolver w) !! (urn (self w), a)) w.

(** [resolver.Set(self.urn, attribute, value)] *)
Definition resolver_Set (a : Attribute) (v : Value) : M unit :=
  fun w =>
    let r := resolver w in
    Ok tt (mkWorld (self w)
             (mkResolver (<[(urn (self w), a) := v]> (attributes r))
                (volumes r) (members r))).

(** Modelled from the spec: [resolver.AFF4FactoryOpen(volume_urn)] on
    the recorded volume, which fails when the volume is absent. *)
Definition AFF4FactoryOpen_volume (volume_urn : Value) : M string :=
  fun w =>
    match volume_urn with
    | URN v =>
        if decide (v ∈ volumes (resolver w)) then Ok v w
        else Raise (IOError (UnableToOpen v)) w
    | _ => Raise TypeError w
    end.

(** Modelled from the spec: [volume.CreateMember(urn)] followed by one
    [Write(data)] on the new member and its release. *)
Definition CreateMember_Write (urn : string) (data : bytes) : M unit :=
  fun w =>
    let r := resolver w in
    Ok tt (mkWorld (self w)
             (mkResolver (attributes r) (volumes r)
                (<[urn := data]> (members r)))).

(** Modelled from the spec: [resolver.AFF4FactoryOpen(urn)] on a
    segment, which fails when the segment is absent and otherwise gives
    a handle positioned at its start. *)
Definition AFF4FactoryOpen_segment (urn : string) : M Segment :=
  fun w =>
    match members (resolver w) !! urn with
    | Some data => Ok (mkSegment data 0) w
    | None => Raise (IOError (UnableToOpen urn)) w
    end.

(** Modelled from the spec: the methods of the base class
    [aff4.AFF4Stream] that the module calls. *)
Definition MarkDirty : M unit := modify (with_dirty true).

Definition IsDirty : M bool := s <- get_self;; ret (dirty s).

Definition Size (s : AFF4Image) : Z := size s.

Definition Seek (offset : Z) : M unit := modify (with_readptr offset).

Definition base_Flush : M unit := modify (with_dirty false).

(** ** The methods of [AFF4Image] *)

Section Image.

Variables zlib snappy : Codec.

(** [int(value or default)] on an attribute of the resolver. *)
Definition int_or (v : option Value) (default : Z) : Exn + Z :=
  match v with
  | None => inr default
  | Some (XSDInteger n) => inr n
  | Some _ => inl TypeError
  end.

(** [str(value or default)] on the compression attribute; a value that
    is none of the three tags is outside this model. *)
Definition compression_or (v : option Value) (default : Compression)
  : Exn + Compression :=
  match v with
  | None => inr default
  | Some (CompressionURN c) => inr c
  | Some _ => inl TypeError
  end.

Definition LoadFromURN : M unit :=
  volume_urn <- resolver_Get AFF4_STORED;;
  match volume_urn with
  | None => raise (IOError UnableToFindStorage)
  | Some _ =>
      v <- resolver_Get AFF4_IMAGE_CHUNK_SIZE;;
      n <- lift (int_or v (32 * 1024));;
      modify (with_chunk_size n);;;
      v <- resolver_Get AFF4_IMAGE_CHUNKS_PER_SEGMENT;;
      n <- lift (int_or v 1024);;
      modify (with_chunks_per_segment n);;;
      v <- resolver_Get AFF4_STREAM_SIZE;;
      n <- lift (int_or v 0);;
      modify (with_size n);;;
      v <- resolver_Get AFF4_IMAGE_COMPRESSION;;
      c <- lift (compression_or v AFF4_IMAGE_COMPRESSION_ZLIB);;
      modify (with_compression c);;;
      modify (with_buffer []);;;
      modify (with_bevy []);;;
      modify (with_bevy_index []);;;
      modify (with_chunk_count_in_bevy 0);;;
      modify (with_bevy_number 0)
  end.

Definition _FlushBevy : M unit :=
  volume_urn <- resolver_Get AFF4_STORED;;
  match volume_urn with
  | None => raise (IOError UnableToFindStorage)
  | Some volume_urn =>
      s <- get_self;;
      match bevy s with
      | [] => ret tt
      | _ :: _ =>
          let bevy_urn := Append (urn s) (format_08d (bevy_number s)) in
          let bevy_index_urn := Append bevy_urn "index" in
          AFF4FactoryOpen_volume volume_urn;;;
          CreateMember_Write bevy_index_urn (bevy_index s);;;
          CreateMember_Write bevy_urn (bevy s);;;
          modify (with_chunk_count_in_bevy 0);;;
          modify (fun s => with_bevy_number (bevy_number s + 1) s);;;
          modify (with_bevy []);;;
          modify (with_bevy_index [])
      end
  end.

(** [FlushChunk], the choice of [compressed_chunk]. *)
Definition compress_chunk (c : Compression) (chunk : bytes) : bytes :=
  match c with
  | AFF4_IMAGE_COMPRESSION_ZLIB => compress zlib chunk
  | AFF4_IMAGE_COMPRESSION_SNAPPY => compress snappy chunk
  | AFF4_IMAGE_COMPRESSION_STORED => chunk
  end.

Definition FlushChunk (chunk : bytes) : M unit :=
  s <- get_self;;
  let bevy_offset := len (bevy s) in
  let compressed_chunk := compress_chunk (compression s) chunk in
  packed <- lift (pack_I bevy_offset);;
  modify (fun s => with_bevy_index (bevy_index s ++ packed) s);;;
  modify (fun s => with_bevy (bevy s ++ compressed_chunk) s);;;
  modify (fun s => with_chunk_count_in_bevy (chunk_count_in_bevy s + 1) s);;;
  s <- get_self;;
  if chunk_count_in_bevy s >=? chunks_per_segment s then _FlushBevy
  else ret tt.

(** The [while] loop of [Write]. Each turn removes [chunk_size] bytes
    from the buffer, so with a positive chunk size it ends within as
    many turns as the buffer has bytes; with a chunk size of zero or
    less the source loops for ever. *)
Fixpoint Write_loop (fuel : nat) : M unit :=
  fun w =>
    let s := self w in
    if len (buffer s) >? chunk_size s then
      match fuel with
      | O => OutOfFuel
      | S fuel' =>
          (let chunk := slice_to (buffer s) (chunk_size s) in
           modify (with_buffer (slice_from (buffer s) (chunk_size s)));;;
           FlushChunk chunk;;;
           Write_loop fuel') w
      end
    else Ok tt w.

Definition Write (data : bytes) : M Z :=
  MarkDirty;;;
  modify (fun s => with_buffer (buffer s ++ data) s);;;
  s <- get_self;;
  Write_loop (length (buffer s));;;
  modify (fun s => with_readptr (readptr s + len data) s);;;
  s <- get_self;;
  (if readptr s >? size s then modify (with_size (readptr s)) else ret tt);;;
  ret (len data).

Definition Flush : M unit :=
  d <- IsDirty;;
  (if d then
     s <- get_self;;
     FlushChunk (buffer s);;;
     _FlushBevy;;;
     resolver_Set AFF4_TYPE AFF4_IMAGE_TYPE;;;
     s <- get_self;;
     resolver_Set AFF4_IMAGE_CHUNK_SIZE (XSDInteger (chunk_size s));;;
     resolver_Set AFF4_IMAGE_CHUNKS_PER_SEGMENT
       (XSDInteger (chunks_per_segment s));;;
     resolver_Set AFF4_STREAM_SIZE (XSDInteger (Size s));;;
     resolver_Set AFF4_IMAGE_COMPRESSION (CompressionURN (compression s))
   else ret tt);;;
  base_Flush.

(** *** The read path *)

(** [_ReadChunkFromBevy], the choice of [compressed_chunk_size]. *)
Definition compressed_chunk_size (chunk_id_in_bevy : Z) (bevy : Segment)
    (bevy_index : list Z) (index_size : Z) : Exn + Z :=
  if chunk_id_in_bevy =? index_size - 1 then
    inr (seg_Size bevy - seg_Tell bevy)
  else
    next <-? py_index bevy_index (chunk_id_in_bevy + 1);;
    this <-? py_index bevy_index chunk_id_in_bevy;;
    inr (next - this).

(** [_ReadChunkFromBevy] up to [cbuffer = bevy.Read(...)]: the
    compressed bytes of the chunk and the handle after the read. *)
Definition read_cbuffer (s : AFF4Image) (chunk_id : Z) (bevy : Segment)
    (bevy_index : list Z) (index_size : Z) : Exn + (bytes * Segment) :=
  chunk_id_in_bevy <-? py_mod chunk_id (chunks_per_segment s);;
  if index_size =? 0 then inl (IOError (IndexEmpty chunk_id))
  else if chunk_id_in_bevy >=? index_size then
    inl (IOError (BevyIndexTooShort chunk_id))
  else
    n <-? compressed_chunk_size chunk_id_in_bevy bevy bevy_index index_size;;
    offset <-? py_index bevy_index chunk_id_in_bevy;;
    inr (seg_Read (seg_Seek bevy offset) n).

(** A failed decompression raises the error of the codec. *)
Definition codec_result (r : option bytes) : Exn + bytes :=
  match r with
  | Some data => inr data
  | None => inl CodecError
  end.

(** [_ReadChunkFromBevy], the decompression of [cbuffer]. *)
Definition decompress_cbuffer (s : AFF4Image) (cbuffer : bytes)
  : Exn + bytes :=
  match compression s with
  | AFF4_IMAGE_COMPRESSION_ZLIB => codec_result (decompress zlib cbuffer)
  | AFF4_IMAGE_COMPRESSION_SNAPPY => codec_result (decompress snappy cbuffer)
  | AFF4_IMAGE_COMPRESSION_STORED => inr cbuffer
  end.

(** The handle is passed in and returned, as the source moves its
    position. *)
Definition _ReadChunkFromBevy (s : AFF4Image) (chunk_id : Z) (bevy : Segment)
    (bevy_index : list Z) (index_size : Z) : Exn + (bytes * Segment) :=
  r <-? read_cbuffer s chunk_id bevy bevy_index index_size;;
  data <-? decompress_cbuffer s (fst r);;
  inr (data, snd r).

(** The local variables of [_ReadPartial]. *)
Record Partial := mkPartial {
  p_chunk_id : Z;
  p_chunks_to_read : Z;
  p_chunks_read : Z;
  p_result : bytes
}.

(** The inner [while] loop of [_ReadPartial], over the chunks of one
    bevy; it counts [chunks_to_read] down, one per turn. *)
Fixpoint bevy_loop (fuel : nat) (bevy_id : Z) (bevy : Segment)
    (bevy_index_array : list Z) (index_size : Z) (st : Partial) : M Partial :=
  if p_chunks_to_read st >? 0 then
    match fuel with
    | O => fun _ => OutOfFuel
    | S fuel' =>
        s <- get_self;;
        r <- lift (_ReadChunkFromBevy s (p_chunk_id st) bevy
                     bevy_index_array index_size);;
        let st' := mkPartial (p_chunk_id st + 1) (p_chunks_to_read st - 1)
                     (p_chunks_read st + 1) (p_result st ++ fst r) in
        q <- lift (py_div (p_chunk_id st') (chunks_per_segment s));;
        if bevy_id <? q then ret st'
        else bevy_loop fuel' bevy_id (snd r) bevy_index_array index_size st'
    end
  else ret st.

(** The outer [while] loop of [_ReadPartial], one turn per bevy. *)
Fixpoint bevies_loop (fuel : nat) (st : Partial) : M Partial :=
  if p_chunks_to_read st >? 0 then
    match fuel with
    | O => fun _ => OutOfFuel
    | S fuel' =>
        s <- get_self;;
        bevy_id <- lift (py_div (p_chunk_id st) (chunks_per_segment s));;
        let bevy_urn := Append (urn s) (format_08d bevy_id) in
        let bevy_index_urn := Append bevy_urn "index" in
        bevy_index <- AFF4FactoryOpen_segment bevy_index_urn;;
        index_size <- lift (py_div (seg_Size bevy_index) 4);;
        let bevy_index_data := fst (seg_Read bevy_index (seg_Size bevy_index)) in
        bevy_index_array <- lift (unpack_I index_size bevy_index_data);;
        bevy <- AFF4FactoryOpen_segment bevy_urn;;
        st' <- bevy_loop (Z.to_nat (p_chunks_to_read st)) bevy_id bevy
                 bevy_index_array index_size st;;
        bevies_loop fuel' st'
    end
  else ret st.

Definition _ReadPartial (chunk_id chunks_to_read : Z) : M (Z * bytes) :=
  st <- bevies_loop (Z.to_nat chunks_to_read)
          (mkPartial chunk_id chunks_to_read 0 []);;
  ret (p_chunks_read st, p_result st).

(** The [while] loop of [Read]; [chunk_id] is not advanced between
    turns. *)
Fixpoint Read_loop (fuel : nat) (chunk_id chunks_to_read : Z)
    (result : bytes) : M bytes :=
  if chunks_to_read >? 0 then
    match fuel with
    | O => fun _ => OutOfFuel
    | S fuel' =>
        r <- _ReadPartial chunk_id chunks_to_read;;
        if fst r =? 0 then ret result
        else Read_loop fuel' chunk_id (chunks_to_read - fst r)
               (result ++ snd r)
    end
  else ret result.

Definition Read (length : Z) : M bytes :=
  s <- get_self;;
  let length := Z.min length (Size s - readptr s) in
  initial_chunk_offset <- lift (py_mod (readptr s) (chunk_size s));;
  q <- lift (py_div length (chunk_size s));;
  let chunks_to_read := q + 1 in
  chunk_id <- lift (py_div (readptr s) (chunk_size s));;
  result <- Read_loop (Z.to_nat chunks_to_read) chunk_id chunks_to_read [];;
  let result :=
    if initial_chunk_offset =? 0 then result
    else slice_from result initial_chunk_offset in
  ret (slice_to result length).

(** *** Sequences of calls *)

(** [FlushChunk] on each chunk in turn, as the loop of [Write] calls
    it. *)
Fixpoint FlushChunks (chunks : list bytes) : M unit :=
  match chunks with
  | [] => ret tt
  | chunk :: rest => FlushChunk chunk;;; FlushChunks rest
  end.

(** [Write] on each piece of the data in turn, as a client calls it
    that hands its data over piece by piece. *)
Fixpoint Writes (pieces : list bytes) : M unit :=
  match pieces with
  | [] => ret tt
  | data :: rest => Write data;;; Writes rest
  end.

(** The calls a client or the object itself makes on the stream. *)
Inductive Call :=
| CallWrite (data : bytes)
| CallFlushChunk (chunk : bytes)
| Call_FlushBevy
| CallFlush
| CallRead (length : Z)
| CallSeek (offset : Z).

(** The state a call leaves behind, whether it returns or raises. *)
Definition perform (c : Call) (w : World) : option World :=
  match c with
  | CallWrite data => final (Write data w)
  | CallFlushChunk chunk => final (FlushChunk chunk w)
  | Call_FlushBevy => final (_FlushBevy w)
  | CallFlush => final (Flush w)
  | CallRead length => final (Read length w)
  | CallSeek offset => final (Seek offset w)
  end.

End Image.

(** ** A worked stream *)

(** A codec that stores its input, standing in for [zlib] and [snappy]
    where a concrete stream is run. *)
Definition identity_codec : Codec := mkCodec (fun b => b) (fun b => Some b).

(** The object as its constructor and [LoadFromURN] leave it on a new
    stream, with the configuration the caller assigns. *)
Definition new_image (image_urn : string) (cs cps : Z) (c : Compression)
  : AFF4Image :=
  mkImage image_urn cs cps c 0 0 [] [] [] 0 0 false.

(** A store that records [volume_urn] as the storage of the stream. *)
Definition new_resolver (image_urn volume_urn : string) : Resolver :=
  mkResolver {[ (image_urn, AFF4_STORED) := URN volume_urn ]}
    {[ volume_urn ]} ∅.

Definition new_world (cs cps : Z) (c : Compression) : World :=
  mkWorld (new_image "aff4://image" cs cps c)
    (new_resolver "aff4://image" "aff4://volume").

(** ** Vocabulary of the properties *)

(** The index holds four bytes per chunk counted in the bevy. *)
Definition index_matches_count (s : AFF4Image) : Prop :=
  len (bevy_index s) = 4 * chunk_count_in_bevy s.

(** The start of each chunk in a blob that begins at [start] and holds
    the chunks back to back. *)
Fixpoint offsets_from (start : Z) (chunks : list bytes) : list Z :=
  match chunks with
  | [] => []
  | chunk :: rest => start :: offsets_from (start + len chunk) rest
  end.

(** The names of the two segments of bevy [n] of the stream. *)
Definition bevy_urn_of (image_urn : string) (n : Z) : string :=
  Append image_urn (format_08d n).

Definition bevy_index_urn_of (image_urn : string) (n : Z) : string :=
  Append (bevy_urn_of image_urn n) "index".

(** The index of the bevy that was being filled in [w], as [w'] holds
    it: in the index segment once the bevy was finalized, in memory
    until then. *)
Definition index_of_bevy (w w' : World) : option bytes :=
  if bevy_number (self w') =? bevy_number (self w)
  then Some (bevy_index (self w'))
  else members (resolver w')
       !! bevy_index_urn_of (urn (self w)) (bevy_number (self w)).

(** What a call returned or raised. *)
Definition returned {A} (o : Outcome A) : option (Exn + A) :=
  match o with
  | Ok v _ => Some (inr v)
  | Raise e _ => Some (inl e)
  | OutOfFuel => None
  end.

(** The two errors that report a corrupt index. *)
Definition index_corruption (e : Exn) : bool :=
  match e with
  | IOError (IndexEmpty _) => true
  | IOError (BevyIndexTooShort _) => true
  | _ => false
  end.


(** The volume the resolver records for the stream. *)
Definition recorded_volume (w : World) : option Value :=
  attributes (resolver w) !! (urn (self w), AFF4_STORED).

(** The world after a chunk was appended to the bevy in memory. *)
Definition appended (compressed_chunk : bytes) (w : World) : World :=
  let s := self w in
  mkWorld
    (with_chunk_count_in_bevy (chunk_count_in_bevy s + 1)
       (with_bevy (bevy s ++ compressed_chunk)
          (with_bevy_index (bevy_index s ++ le_bytes (len (bevy s))) s)))
    (resolver w).

(** What the calls of the write path leave alone. *)
Definition write_frame (w w' : World) : Prop :=
  urn (self w') = urn (self w) /\
  chunk_size (self w') = chunk_size (self w) /\
  chunks_per_segment (self w') = chunks_per_segment (self w) /\
  compression (self w') = compression (self w) /\
  size (self w') = size (self w) /\
  readptr (self w') = readptr (self w) /\
  buffer (self w') = buffer (self w) /\
  dirty (self w') = dirty (self w) /\
  attributes (resolver w') = attributes (resolver w) /\
  volumes (resolver w') = volumes (resolver w).

(** The world after a bevy was persisted. *)
Definition finalized (w : World) : World :=
  let s := self w in
  let r := resolver w in
  mkWorld
    (with_bevy_index [] (with_bevy []
       (with_bevy_number (bevy_number s + 1)
          (with_chunk_count_in_bevy 0 s))))
    (mkResolver (attributes r) (volumes r)
       (<[bevy_urn_of (urn s) (bevy_number s) := bevy s]>
          (<[bevy_index_urn_of (urn s) (bevy_number s) := bevy_index s]>
             (members r)))).

(** The store after [Flush] recorded the properties of the stream. *)
Definition recorded (s : AFF4Image) (r : Resolver) : Resolver :=
  mkResolver
    (<[(urn s, AFF4_IMAGE_COMPRESSION) := CompressionURN (compression s)]>
       (<[(urn s, AFF4_STREAM_SIZE) := XSDInteger (Size s)]>
          (<[(urn s, AFF4_IMAGE_CHUNKS_PER_SEGMENT) :=
               XSDInteger (chunks_per_segment s)]>
             (<[(urn s, AFF4_IMAGE_CHUNK_SIZE) := XSDInteger (chunk_size s)]>
                (<[(urn s, AFF4_TYPE) := AFF4_IMAGE_TYPE]> (attributes r))))))
    (volumes r) (members r).

(** The read path leaves the object and the store as they are. *)
Definition pure_call {A} (c : M A) : Prop :=
  forall w w', final (c w) = Some w' -> w' = w.

(** The state after a sequence of calls, each made on the state the
    previous one left. *)
Fixpoint perform_all (zlib snappy : Codec) (calls : list Call) (w : World)
  : option World :=
  match calls with
  | [] => Some w
  | call :: rest =>
      match perform zlib snappy call w with
      | Some w' => perform_all zlib snappy rest w'
      | None => None
      end
  end.

(** The state a call leaves, for calls that are known to finish. *)
Definition state_after {A} (o : Outcome A) (otherwise : World) : World :=
  match final o with
  | Some w => w
  | None => otherwise
  end.

(** A field of the object after a call. *)
Definition field_after {A B} (f : AFF4Image -> B) (o : Outcome A)
  : option B :=
  match final o with
  | Some w => Some (f (self w))
  | None => None
  end.

(** The content of a segment after a call. *)
Definition segment_after {A} (o : Outcome A) (segment_urn : string)
  : option bytes :=
  match final o with
  | Some w => members (resolver w) !! segment_urn
  | None => None
  end.

(** The entries of an index segment after a call, decoded as the read
    path decodes them. *)
Definition index_after {A} (o : Outcome A) (segment_urn : string)
  : option (Exn + list Z) :=
  match segment_after o segment_urn with
  | Some index => Some (unpack_I (len index / 4) index)
  | None => None
  end.

(** ** Streams held by the store *)

(** The codec of the tag gives back what it compressed. *)
Definition round_trips (zlib snappy : Codec) (c : Compression) : Prop :=
  match c with
  | AFF4_IMAGE_COMPRESSION_ZLIB =>
      forall x, decompress zlib (compress zlib x) = Some x
  | AFF4_IMAGE_COMPRESSION_SNAPPY =>
      forall x, decompress snappy (compress snappy x) = Some x
  | AFF4_IMAGE_COMPRESSION_STORED => True
  end.

(** The chunks of bevy [b] of a stream of [chunks], [cps] to a bevy. *)
Definition chunks_of_bevy (cps : nat) (chunks : list bytes) (b : nat)
  : list bytes :=
  firstn cps (skipn (b * cps) chunks).

(** The content of a segment of the store. *)
Definition segment_of (w : World) (segment_urn : string) : option bytes :=
  members (resolver w) !! segment_urn.

(** The store holds, under the two names of bevy [b], the compressed
    chunks back to back and the encoding of their offsets. *)
Definition holds_bevy (zlib snappy : Codec) (w : World) (b : nat)
    (bevy_chunks : list bytes) : Prop :=
  let cb :=
    map (compress_chunk zlib snappy (compression (self w))) bevy_chunks in
  segment_of w (bevy_urn_of (urn (self w)) (Z.of_nat b))
  = Some (concat cb) /\
  segment_of w (bevy_index_urn_of (urn (self w)) (Z.of_nat b))
  = Some (flat_map le_bytes (offsets_from 0 cb)) /\
  Forall (fun n => 0 <= n < 2 ^ 32) (offsets_from 0 cb).

(** The store holds the stream of [chunks], bevy by bevy. *)
Definition holds_chunks (zlib snappy : Codec) (w : World)
    (chunks : list bytes) : Prop :=
  forall b : nat,
    (b * Z.to_nat (chunks_per_segment (self w)) < length chunks)%nat ->
    holds_bevy zlib snappy w b
      (chunks_of_bevy (Z.to_nat (chunks_per_segment (self w))) chunks b).

(** Every chunk but the last holds [cs] bytes. *)
Definition uniform_chunks (cs : Z) (chunks : list bytes) : Prop :=
  forall i c,
    nth_error chunks i = Some c -> (S i < length chunks)%nat -> len c = cs.

(** ** Names of segments *)

(** [k] zeros before [s]. *)
Fixpoint zeros_before (k : nat) (s : string) : string :=
  match k with
  | O => s
  | S k' => String "0"%char (zeros_before k' s)
  end.

(** A decimal digit. *)
Definition is_digit (c : Ascii.ascii) : bool :=
  (48 <=? Ascii.nat_of_ascii c)%nat && (Ascii.nat_of_ascii c <=? 57)%nat.

(** A string of decimal digits. *)
Fixpoint digits_only (s : string) : bool :=
  match s with
  | EmptyString => true
  | String c s' => is_digit c && digits_only s'
  end.

(** A numeral without leading zeros. *)
Definition canonical_numeral (s : string) : Prop :=
  s = "0"%string \/ exists c t, s = String c t /\ c <> "0"%char.

(** ** The chunks of a written stream *)

(** The codec of the tag compresses nothing but the empty string to the
    empty string. *)
Definition keeps_nonempty (zlib snappy : Codec) (c : Compression) : Prop :=
  forall x, x <> [] -> compress_chunk zlib snappy c x <> [].

(** The chunks the loop of [Write] cuts from a buffer, and what it
    leaves in the buffer. *)
Fixpoint full_chunks (fuel cs : nat) (buf : bytes) : list bytes :=
  match fuel with
  | O => []
  | S fuel' =>
      if (cs <? length buf)%nat
      then firstn cs buf :: full_chunks fuel' cs (skipn cs buf)
      else []
  end.

Fixpoint rest_of (fuel cs : nat) (buf : bytes) : bytes :=
  match fuel with
  | O => buf
  | S fuel' =>
      if (cs <? length buf)%nat then rest_of fuel' cs (skipn cs buf) else buf
  end.

(** The chunks of a stream of [data]: those [Write] cuts, then the rest
    that [Flush] makes the last chunk. *)
Definition chunked (cs : Z) (data : bytes) : list bytes :=
  full_chunks (length data) (Z.to_nat cs) data
    ++ [rest_of (length data) (Z.to_nat cs) data].

(** The store holds, under the two names of the bevy numbered [n], the
    compressed chunks back to back and the encoding of their offsets. *)
Definition stores_bevy (zlib snappy : Codec) (w : World) (n : Z)
    (bevy_chunks : list bytes) : Prop :=
  let cb :=
    map (compress_chunk zlib snappy (compression (self w))) bevy_chunks in
  segment_of w (bevy_urn_of (urn (self w)) n) = Some (concat cb) /\
  segment_of w (bevy_index_urn_of (urn (self w)) n)
  = Some (flat_map le_bytes (offsets_from 0 cb)) /\
  Forall (fun offset => 0 <= offset < 2 ^ 32) (offsets_from 0 cb).

(** A stream into which nothing has been written, as [LoadFromURN]
    leaves it. *)
Definition nothing_written (s : AFF4Image) : Prop :=
  buffer s = [] /\ bevy s = [] /\ bevy_index s = [] /\
  chunk_count_in_bevy s = 0 /\ bevy_number s = 0.

(** The state of a stream into which the chunks [flushed] have gone
    since its bevy number was [first]: the full bevies are in the
    store, the chunks after them in the bevy in memory. *)
Definition filling (zlib snappy : Codec) (first : Z) (w : World)
    (flushed : list bytes) : Prop :=
  let s := self w in
  let C := Z.to_nat (chunks_per_segment s) in
  exists b r : nat,
    length flushed = (b * C + r)%nat /\
    (r < C)%nat /\
    bevy_number s = first + Z.of_nat b /\
    chunk_count_in_bevy s = Z.of_nat r /\
    let cb :=
      map (compress_chunk zlib snappy (compression s))
        (skipn (b * C) flushed) in
    bevy s = concat cb /\
    bevy_index s = flat_map le_bytes (offsets_from 0 cb) /\
    Forall (fun offset => 0 <= offset < 2 ^ 32) (offsets_from 0 cb) /\
    ((0 < r)%nat -> bevy s <> []) /\
    forall b', (b' < b)%nat ->
      stores_bevy zlib snappy w (first + Z.of_nat b')
        (chunks_of_bevy C flushed b').

(** The store holds the chunks bevy by bevy, from the bevy numbered
    [first] on. *)
Definition stores_chunks (zlib snappy : Codec) (first : Z) (w : World)
    (chunks : list bytes) : Prop :=
  forall k : nat,
    (k * Z.to_nat (chunks_per_segment (self w)) < length chunks)%nat ->
    stores_bevy zlib snappy w (first + Z.of_nat k)
      (chunks_of_bevy (Z.to_nat (chunks_per_segment (self w))) chunks k).

(** ** Handles of the read path *)

(** An index of the segment [data]: the offsets do not decrease and lie
    within the segment. *)
Definition index_within (data : bytes) (bevy_index_array : list Z) : Prop :=
  Sorted Z.le bevy_index_array /\
  Forall (fun offset => 0 <= offset <= len data) bevy_index_array.

(** The handles [_ReadPartial] passes to [_ReadChunkFromBevy] while it
    reads the bevy [bevy_id] with the content [data], each with the
    chunk it is passed for: the handle the store opens on the segment,
    with the chunk the outer loop stands at, and the handle a call has
    moved, with the next chunk, when the inner loop does not break
    there. *)
Inductive passed (zlib snappy : Codec) (s : AFF4Image) (bevy_id : Z)
    (data : bytes) (bevy_index_array : list Z) (index_size : Z)
  : Z -> Segment -> Prop :=
| passed_opened (chunk_id : Z) :
    py_div chunk_id (chunks_per_segment s) = inr bevy_id ->
    passed zlib snappy s bevy_id data bevy_index_array index_size
      chunk_id (mkSegment data 0)
| passed_moved (chunk_id : Z) (bevy : Segment) (r : bytes * Segment)
    (q : Z) :
    passed zlib snappy s bevy_id data bevy_index_array index_size
      chunk_id bevy ->
    _ReadChunkFromBevy zlib snappy s chunk_id bevy bevy_index_array index_size
    = inr r ->
    py_div (chunk_id + 1) (chunks_per_segment s) = inr q ->
    (bevy_id <? q) = false ->
    passed zlib snappy s bevy_id data bevy_index_array index_size
      (chunk_id + 1) (snd r).

(** * Properties *)

(** ** Encoding of the index *)

Lemma Z_of_byte_of_Z z : Z_of_byte (byte_of_Z z) = Z.land z 255.
Proof.
  unfold Z_of_byte, byte_of_Z.
  assert (Hr : 0 <= Z.land z 255 <= 255).
  { change 255 with (Z.ones 8). rewrite Z.land_ones by lia.
    change (Z.ones 8) with 255.
    pose proof (Z.mod_pos_bound z (2 ^ 8) ltac:(lia)). lia. }
  destruct (Byte.of_N (Z.to_N (Z.land z 255))) as [b|] eqn:E.
  - apply Byte.to_of_N in E. rewrite E. apply Z2N.id. lia.
  - apply Byte.of_N_None_iff in E. apply N2Z.inj_lt in E. rewrite Z2N.id in E by lia. simpl in E. lia.
Qed.

Lemma le32_pack n :
  0 <= n < 2 ^ 32 ->
  le32 (byte_of_Z n) (byte_of_Z (Z.shiftr n 8)) (byte_of_Z (Z.shiftr n 16))
    (byte_of_Z (Z.shiftr n 24)) = n.
Proof.
  intros Hn. unfold le32. rewrite !Z_of_byte_of_Z.
  apply Z.bits_inj'. intros i Hi.
  rewrite !Z.lor_spec, !Z.shiftl_spec, !Z.land_spec by lia.
  change 255 with (Z.ones 8).
  destruct (Z.ltb_spec i 8).
  - rewrite Z.ones_spec_low by lia.
    rewrite !(Z.testbit_neg_r _ (i - _)) by lia.
    rewrite !andb_true_r. now rewrite !orb_false_r.
  - rewrite (Z.ones_spec_high 8 i) by lia. rewrite andb_false_r. simpl.
    destruct (Z.ltb_spec i 16).
    + rewrite Z.shiftr_spec, Z.ones_spec_low by lia.
      rewrite !(Z.testbit_neg_r _ (i - _)) by lia.
      replace (i - 8 + 8) with i by lia.
      now rewrite andb_true_r, !orb_false_r.
    + rewrite (Z.ones_spec_high 8 (i - 8)) by lia. rewrite andb_false_r. simpl.
      destruct (Z.ltb_spec i 24).
      * rewrite Z.shiftr_spec, Z.ones_spec_low by lia.
        rewrite !(Z.testbit_neg_r _ (i - _)) by lia.
        replace (i - 16 + 16) with i by lia.
        now rewrite andb_true_r, !orb_false_r.
      * rewrite (Z.ones_spec_high 8 (i - 16)) by lia. rewrite andb_false_r. simpl.
        destruct (Z.ltb_spec i 32).
        -- rewrite Z.shiftr_spec, Z.ones_spec_low by lia.
           replace (i - 24 + 24) with i by lia.
           now rewrite andb_true_r.
        -- rewrite (Z.ones_spec_high 8 (i - 24)) by lia. rewrite andb_false_r.
           symmetry. apply Z.bits_above_log2; [lia|].
           destruct (Z.eq_dec n 0) as [->|]; [simpl; lia|].
           assert (2 ^ 32 <= 2 ^ i) by (apply Z.pow_le_mono_r; lia).
           apply Z.log2_lt_pow2; lia.
Qed.

Lemma pack_I_in_range n : 0 <= n < 2 ^ 32 -> pack_I n = inr (le_bytes n).
Proof.
  intros Hn. unfold pack_I.
  destruct (Z.ltb_spec n 0); [lia|].
  destruct (Z.leb_spec (2 ^ 32) n); [lia|]. reflexivity.
Qed.

Lemma pack_I_inr n b : pack_I n = inr b -> 0 <= n < 2 ^ 32 /\ b = le_bytes n.
Proof.
  unfold pack_I.
  destruct (Z.ltb_spec n 0); [discriminate|].
  destruct (Z.leb_spec (2 ^ 32) n); [discriminate|].
  simpl. intros [= <-]. split; [lia | reflexivity].
Qed.

Lemma unpack_words_le_bytes offsets :
  Forall (fun n => 0 <= n < 2 ^ 32) offsets ->
  unpack_words (flat_map le_bytes offsets) = Some offsets.
Proof.
  induction 1 as [|n offsets Hn _ IH]; [reflexivity|].
  cbn [flat_map le_bytes app unpack_words]. rewrite IH.
  now rewrite le32_pack.
Qed.

Lemma length_flat_map_le_bytes offsets :
  len (flat_map le_bytes offsets) = 4 * Z.of_nat (length offsets).
Proof.
  unfold len. induction offsets as [|n offsets IH]; [reflexivity|].
  cbn [flat_map le_bytes app length]. lia.
Qed.

Lemma unpack_I_le_bytes offsets :
  Forall (fun n => 0 <= n < 2 ^ 32) offsets ->
  unpack_I (Z.of_nat (length offsets)) (flat_map le_bytes offsets)
  = inr offsets.
Proof.
  intros H. unfold unpack_I.
  rewrite length_flat_map_le_bytes, Z.max_r by lia.
  rewrite Z.eqb_refl. now rewrite unpack_words_le_bytes.
Qed.
(** ** Steps of the monad *)

Ltac step_monad :=
  cbv beta delta [bind ret raise lift get_self modify resolver_Get
    resolver_Set AFF4FactoryOpen_volume CreateMember_Write MarkDirty IsDirty
    Seek base_Flush] in *; cbn [self resolver] in *.

(** ** The write path *)

Section WritePath.
Variables zlib snappy : Codec.


Lemma _FlushBevy_no_volume w :
  recorded_volume w = None ->
  _FlushBevy w = Raise (IOError UnableToFindStorage) w.
Proof.
  unfold recorded_volume. intros H. unfold _FlushBevy. step_monad.
  now rewrite H.
Qed.

Lemma _FlushBevy_empty w v :
  recorded_volume w = Some v -> bevy (self w) = [] -> _FlushBevy w = Ok tt w.
Proof.
  unfold recorded_volume. intros H Hb. unfold _FlushBevy. step_monad.
  rewrite H, Hb. reflexivity.
Qed.

Lemma _FlushBevy_persist w v :
  recorded_volume w = Some (URN v) -> v ∈ volumes (resolver w) ->
  bevy (self w) <> [] -> _FlushBevy w = Ok tt (finalized w).
Proof.
  unfold recorded_volume. intros H Hv Hb. unfold _FlushBevy. step_monad.
  rewrite H.
  destruct (bevy (self w)) as [|b bevy'] eqn:E; [contradiction|].
  destruct (decide (v ∈ volumes (resolver w))); [|contradiction].
  unfold finalized. rewrite E. destruct w as [s r], s; reflexivity.
Qed.

Lemma _FlushBevy_final w w' :
  final (_FlushBevy w) = Some w' ->
  w' = w \/ (bevy (self w) <> [] /\ w' = finalized w).
Proof.
  unfold _FlushBevy. step_monad.
  destruct (attributes (resolver w) !! (urn (self w), AFF4_STORED)) as [v|];
    [|simpl; intros [= <-]; now left].
  destruct (bevy (self w)) as [|b bevy'] eqn:E;
    [simpl; intros [= <-]; now left|].
  destruct v as [v| | |]; try (simpl; intros [= <-]; now left).
  destruct (decide (v ∈ volumes (resolver w)));
    [|simpl; intros [= <-]; now left].
  simpl. intros [= <-]. right. split; [discriminate|].
  unfold finalized. rewrite E. destruct w as [s r], s; reflexivity.
Qed.


Lemma len_nonneg b : 0 <= len b.
Proof. unfold len. lia. Qed.

Lemma len_app a b : len (a ++ b) = len a + len b.
Proof. unfold len. rewrite length_app. lia. Qed.

Lemma FlushChunk_eq chunk w :
  len (bevy (self w)) < 2 ^ 32 ->
  FlushChunk zlib snappy chunk w =
  let w1 := appended (compress_chunk zlib snappy (compression (self w)) chunk) w in
  if chunk_count_in_bevy (self w1) >=? chunks_per_segment (self w1)
  then _FlushBevy w1 else Ok tt w1.
Proof.
  intros Hlt. unfold FlushChunk. step_monad.
  rewrite pack_I_in_range by (pose proof (len_nonneg (bevy (self w))); lia).
  destruct w as [s r], s. cbn -[_FlushBevy].
  destruct (_ >=? _); reflexivity.
Qed.

Lemma FlushChunk_overflow chunk w :
  2 ^ 32 <= len (bevy (self w)) ->
  FlushChunk zlib snappy chunk w = Raise StructError w.
Proof.
  intros Hge. unfold FlushChunk. step_monad. unfold pack_I.
  destruct (Z.ltb_spec (len (bevy (self w))) 0);
    [pose proof (len_nonneg (bevy (self w))); lia|].
  destruct (Z.leb_spec (2 ^ 32) (len (bevy (self w)))); [|lia].
  reflexivity.
Qed.

Lemma write_frame_refl w : write_frame w w.
Proof. repeat split. Qed.

Lemma write_frame_trans w1 w2 w3 :
  write_frame w1 w2 -> write_frame w2 w3 -> write_frame w1 w3.
Proof. unfold write_frame. intuition congruence. Qed.

Lemma write_frame_finalized w : write_frame w (finalized w).
Proof. repeat split. Qed.

Lemma write_frame_appended c w : write_frame w (appended c w).
Proof. repeat split. Qed.

Lemma _FlushBevy_frame w w' :
  final (_FlushBevy w) = Some w' -> write_frame w w'.
Proof.
  intros H. apply _FlushBevy_final in H as [->|[_ ->]].
  - apply write_frame_refl.
  - apply write_frame_finalized.
Qed.

Lemma _FlushBevy_total w : _FlushBevy w <> OutOfFuel.
Proof.
  unfold _FlushBevy. step_monad.
  destruct (attributes (resolver w) !! (urn (self w), AFF4_STORED)) as [v|];
    [|discriminate].
  destruct (bevy (self w)); [discriminate|].
  destruct v; try discriminate.
  destruct (decide (u ∈ volumes (resolver w))); discriminate.
Qed.

Lemma FlushChunk_total chunk w : FlushChunk zlib snappy chunk w <> OutOfFuel.
Proof.
  destruct (Z.lt_ge_cases (len (bevy (self w))) (2 ^ 32)).
  - rewrite FlushChunk_eq by assumption. cbv zeta.
    destruct (_ >=? _); [apply _FlushBevy_total | discriminate].
  - rewrite FlushChunk_overflow by assumption. discriminate.
Qed.

Lemma FlushChunk_frame chunk w w' :
  final (FlushChunk zlib snappy chunk w) = Some w' -> write_frame w w'.
Proof.
  destruct (Z.lt_ge_cases (len (bevy (self w))) (2 ^ 32)).
  - rewrite FlushChunk_eq by assumption. cbv zeta.
    destruct (_ >=? _).
    + intros Hf. apply _FlushBevy_frame in Hf.
      eapply write_frame_trans; [apply write_frame_appended | exact Hf].
    + simpl. intros [= <-]. apply write_frame_appended.
  - rewrite FlushChunk_overflow by assumption. simpl. intros [= <-].
    apply write_frame_refl.
Qed.

Lemma index_matches_count_finalized w :
  index_matches_count (self (finalized w)).
Proof. reflexivity. Qed.

Lemma index_matches_count_appended c w :
  index_matches_count (self w) -> index_matches_count (self (appended c w)).
Proof.
  unfold index_matches_count. simpl. rewrite len_app. intros ->.
  change (len (le_bytes (len (bevy (self w))))) with 4. lia.
Qed.

Lemma _FlushBevy_index_matches_count w w' :
  index_matches_count (self w) ->
  final (_FlushBevy w) = Some w' -> index_matches_count (self w').
Proof.
  intros Hi H. apply _FlushBevy_final in H as [->|[_ ->]].
  - assumption.
  - apply index_matches_count_finalized.
Qed.

Lemma FlushChunk_index_matches_count chunk w w' :
  index_matches_count (self w) ->
  final (FlushChunk zlib snappy chunk w) = Some w' ->
  index_matches_count (self w').
Proof.
  intros Hi.
  destruct (Z.lt_ge_cases (len (bevy (self w))) (2 ^ 32)).
  - rewrite FlushChunk_eq by assumption. cbv zeta.
    destruct (_ >=? _).
    + apply _FlushBevy_index_matches_count.
      now apply index_matches_count_appended.
    + simpl. intros [= <-]. now apply index_matches_count_appended.
  - rewrite FlushChunk_overflow by assumption. simpl. now intros [= <-].
Qed.


Lemma Write_loop_unfold fuel w :
  Write_loop zlib snappy fuel w =
  if len (buffer (self w)) >? chunk_size (self w) then
    match fuel with
    | O => OutOfFuel
    | S fuel' =>
        match FlushChunk zlib snappy
                (slice_to (buffer (self w)) (chunk_size (self w)))
                (mkWorld (with_buffer (slice_from (buffer (self w))
                                         (chunk_size (self w))) (self w))
                   (resolver w)) with
        | Ok _ w' => Write_loop zlib snappy fuel' w'
        | Raise e w' => Raise e w'
        | OutOfFuel => OutOfFuel
        end
    end
  else Ok tt w.
Proof. destruct fuel; reflexivity. Qed.

Lemma length_slice_from b n :
  0 <= n -> length (slice_from b n) = (length b - Z.to_nat n)%nat.
Proof.
  intros Hn. unfold slice_from, slice_bound.
  destruct (Z.ltb_spec n 0); [lia|]. apply length_skipn.
Qed.

Lemma final_Ok {A} (o : Outcome A) v w : o = Ok v w -> final o = Some w.
Proof. now intros ->. Qed.

Lemma final_Raise {A} (o : Outcome A) e w : o = Raise e w -> final o = Some w.
Proof. now intros ->. Qed.

Lemma Write_loop_bounded fuel : forall w,
  0 < chunk_size (self w) ->
  (length (buffer (self w)) <= fuel)%nat ->
  Write_loop zlib snappy fuel w <> OutOfFuel /\
  forall w', Write_loop zlib snappy fuel w = Ok tt w' ->
    len (buffer (self w')) <= chunk_size (self w') /\
    chunk_size (self w') = chunk_size (self w).
Proof.
  induction fuel as [|fuel IH]; intros w Hcs Hfuel;
    rewrite Write_loop_unfold;
    destruct (Z.gtb_spec (len (buffer (self w))) (chunk_size (self w)))
      as [Hgt|Hle].
  - unfold len in Hgt. lia.
  - split; [discriminate|]. intros w' [= <-]. split; [lia | reflexivity].
  - set (w1 := mkWorld _ _).
    destruct (FlushChunk zlib snappy _ w1) as [[] w2|e w2|] eqn:E.
    + apply final_Ok, FlushChunk_frame in E.
      destruct E as (_ & Ecs & _ & _ & _ & _ & Ebuf & _).
      subst w1. cbn in Ecs, Ebuf.
      destruct (IH w2) as [Hfin Hok].
      * lia.
      * rewrite Ebuf, length_slice_from by lia. unfold len in Hgt. lia.
      * split; [exact Hfin|]. intros w' Hw'.
        destruct (Hok w' Hw') as [Hb Hc]. split; [exact Hb | congruence].
    + split; discriminate.
    + now apply FlushChunk_total in E.
  - split; [discriminate|]. intros w' [= <-]. split; [lia | reflexivity].
Qed.

Lemma Write_loop_preserves (P : World -> Prop) :
  (forall w b, P w -> P (mkWorld (with_buffer b (self w)) (resolver w))) ->
  (forall chunk w w',
     P w -> final (FlushChunk zlib snappy chunk w) = Some w' -> P w') ->
  forall fuel w w',
    P w -> final (Write_loop zlib snappy fuel w) = Some w' -> P w'.
Proof.
  intros Hbuf Hchunk. induction fuel as [|fuel IH]; intros w w' HP;
    rewrite Write_loop_unfold; destruct (_ >? _); simpl;
    try discriminate; try (intros [= <-]; assumption).
  set (w1 := mkWorld _ _).
  assert (HP1 : P w1) by (apply Hbuf, HP).
  destruct (FlushChunk zlib snappy _ w1) as [[] w2|e w2|] eqn:E.
  - apply IH. eapply Hchunk; [exact HP1|]. now rewrite E.
  - simpl. intros [= <-]. eapply Hchunk; [exact HP1|]. now rewrite E.
  - discriminate.
Qed.

Lemma Write_unfold data w :
  Write zlib snappy data w =
  let w1 := mkWorld (with_buffer (buffer (self w) ++ data)
                       (with_dirty true (self w))) (resolver w) in
  match Write_loop zlib snappy (length (buffer (self w1))) w1 with
  | Ok _ w2 =>
      let s3 := with_readptr (readptr (self w2) + len data) (self w2) in
      Ok (len data)
        (mkWorld (if readptr s3 >? size s3 then with_size (readptr s3) s3
                  else s3) (resolver w2))
  | Raise e w2 => Raise e w2
  | OutOfFuel => OutOfFuel
  end.
Proof.
  unfold Write. step_monad. cbv zeta.
  destruct (Write_loop _ _ _ _) as [[] w2|e w2|]; try reflexivity.
  cbn. destruct (_ >? _); reflexivity.
Qed.



Lemma string_length_append (a b : string) :
  String.length (a +:+ b) = (String.length a + String.length b)%nat.
Proof. induction a as [|c a IH]; simpl; [reflexivity | now rewrite IH]. Qed.

Lemma bevy_urn_not_index_urn u n : bevy_urn_of u n <> bevy_index_urn_of u n.
Proof.
  unfold bevy_index_urn_of, Append at 1. intros E.
  apply (f_equal String.length) in E.
  rewrite !string_length_append in E. simpl in E. lia.
Qed.

Lemma _FlushBevy_Ok w w' :
  _FlushBevy w = Ok tt w' ->
  (bevy (self w) = [] /\ w' = w) \/ (bevy (self w) <> [] /\ w' = finalized w).
Proof.
  unfold _FlushBevy. step_monad.
  destruct (attributes (resolver w) !! (urn (self w), AFF4_STORED)) as [v|];
    [|discriminate].
  destruct (bevy (self w)) as [|b bevy'] eqn:E;
    [intros [= <-]; now left|].
  destruct v as [v| | |]; try discriminate.
  destruct (decide (v ∈ volumes (resolver w))); [|discriminate].
  simpl. intros [= <-]. right. split; [discriminate|].
  unfold finalized. rewrite E. destruct w as [s r], s; reflexivity.
Qed.

Lemma index_of_bevy_appended c w w' :
  index_of_bevy (appended c w) w' = index_of_bevy w w'.
Proof. reflexivity. Qed.

Lemma index_of_bevy_same w : index_of_bevy w w = Some (bevy_index (self w)).
Proof. unfold index_of_bevy. now rewrite Z.eqb_refl. Qed.

Lemma index_of_bevy_finalized w :
  index_of_bevy w (finalized w) = Some (bevy_index (self w)).
Proof.
  unfold index_of_bevy. cbn [finalized self bevy_number with_bevy_index
    with_bevy with_bevy_number with_chunk_count_in_bevy resolver members].
  destruct (Z.eqb_spec (bevy_number (self w) + 1) (bevy_number (self w)));
    [lia|].
  rewrite lookup_insert_ne by apply bevy_urn_not_index_urn.
  apply lookup_insert_eq.
Qed.

(** One chunk flushed into a bevy that has room for it. *)
Lemma FlushChunk_index chunk w w' :
  FlushChunk zlib snappy chunk w = Ok tt w' ->
  0 <= len (bevy (self w)) < 2 ^ 32 /\
  index_of_bevy w w'
  = Some (bevy_index (self w) ++ le_bytes (len (bevy (self w)))) /\
  (chunk_count_in_bevy (self w) + 1 < chunks_per_segment (self w) ->
   w' = appended (compress_chunk zlib snappy (compression (self w)) chunk) w).
Proof.
  intros H. pose proof (len_nonneg (bevy (self w))) as Hnn.
  destruct (Z.lt_ge_cases (len (bevy (self w))) (2 ^ 32)) as [Hlt|Hge].
  2: { rewrite FlushChunk_overflow in H by assumption. discriminate. }
  rewrite FlushChunk_eq in H by assumption. cbv zeta in H.
  split; [lia|].
  set (w1 := appended _ w) in *.
  change (chunk_count_in_bevy (self w1)) with (chunk_count_in_bevy (self w) + 1) in H.
  change (chunks_per_segment (self w1)) with (chunks_per_segment (self w)) in H.
  destruct (Z.geb_spec (chunk_count_in_bevy (self w) + 1)
              (chunks_per_segment (self w))) as [Hfull|Hroom].
  - split; [|lia].
    apply _FlushBevy_Ok in H as [[_ ->]|[_ ->]].
    + subst w1. unfold index_of_bevy. cbn. now rewrite Z.eqb_refl.
    + subst w1. unfold index_of_bevy.
      cbn [finalized self bevy_number with_bevy_index with_bevy
        with_bevy_number with_chunk_count_in_bevy resolver members appended
        urn bevy_index bevy].
      destruct (Z.eqb_spec (bevy_number (self w) + 1) (bevy_number (self w)));
        [lia|].
      rewrite lookup_insert_ne by apply bevy_urn_not_index_urn.
      apply lookup_insert_eq.
  - injection H as <-. split; [|reflexivity].
    subst w1. unfold index_of_bevy. cbn. now rewrite Z.eqb_refl.
Qed.

(** The chunks of one bevy: the index is the encoding of their
    offsets. *)
Lemma FlushChunks_index chunks : forall w w',
  chunks <> [] ->
  chunk_count_in_bevy (self w) + Z.of_nat (length chunks)
    <= chunks_per_segment (self w) ->
  FlushChunks zlib snappy chunks w = Ok tt w' ->
  let offsets :=
    offsets_from (len (bevy (self w)))
      (map (compress_chunk zlib snappy (compression (self w))) chunks) in
  Forall (fun n => 0 <= n < 2 ^ 32) offsets /\
  index_of_bevy w w' = Some (bevy_index (self w) ++ flat_map le_bytes offsets).
Proof.
  induction chunks as [|chunk rest IH]; intros w w' Hne Hroom Hrun;
    [contradiction|].
  cbn [FlushChunks] in Hrun. unfold bind in Hrun.
  destruct (FlushChunk zlib snappy chunk w) as [[] w1|e w1|] eqn:E;
    try discriminate.
  apply FlushChunk_index in E as (Hrange & Hidx & Happ).
  cbn [map offsets_from flat_map length] in *.
  destruct rest as [|chunk' rest'].
  - cbn in Hrun. injection Hrun as <-.
    cbn [map offsets_from flat_map]. rewrite app_nil_r.
    split; [now repeat constructor | exact Hidx].
  - assert (Hw1 : w1 = appended (compress_chunk zlib snappy
                                   (compression (self w)) chunk) w).
    { apply Happ. cbn [length] in Hroom. lia. }
    destruct (IH w1 w') as [Hall Hidx'].
    + discriminate.
    + subst w1. cbn [appended self chunk_count_in_bevy chunks_per_segment
        with_chunk_count_in_bevy with_bevy with_bevy_index].
      cbn [length] in *. lia.
    + exact Hrun.
    + subst w1.
      cbn [appended self with_chunk_count_in_bevy with_bevy with_bevy_index
        bevy compression bevy_index] in Hall, Hidx'.
      rewrite len_app in Hall, Hidx'.
      rewrite index_of_bevy_appended in Hidx'.
      split; [constructor; [lia | exact Hall]|].
      rewrite Hidx'. now rewrite <- app_assoc.
Qed.

Lemma offsets_from_length start chunks :
  length (offsets_from start chunks) = length chunks.
Proof.
  revert start. induction chunks as [|c chunks IH]; intros start;
    [reflexivity|]. cbn. now rewrite IH.
Qed.

Lemma offsets_from_lower start chunks :
  Forall (Z.le start) (offsets_from start chunks).
Proof.
  revert start. induction chunks as [|c chunks IH]; intros start; cbn;
    [constructor|].
  constructor; [lia|].
  eapply List.Forall_impl; [|apply IH].
  intros n Hn. pose proof (len_nonneg c). cbn beta in Hn. lia.
Qed.

Lemma offsets_from_sorted start chunks :
  StronglySorted Z.le (offsets_from start chunks).
Proof.
  revert start. induction chunks as [|c chunks IH]; intros start; cbn;
    [constructor|].
  constructor; [apply IH|].
  eapply List.Forall_impl; [|apply offsets_from_lower].
  intros n Hn. pose proof (len_nonneg c). cbn beta in Hn. lia.
Qed.


Lemma pure_ret {A} (v : A) : pure_call (ret v).
Proof. intros w w' [= <-]. reflexivity. Qed.

Lemma pure_lift {A} (r : Exn + A) : pure_call (lift r).
Proof. intros w w'. unfold lift. destruct r; intros [= <-]; reflexivity. Qed.

Lemma pure_get_self : pure_call get_self.
Proof. intros w w' [= <-]. reflexivity. Qed.

Lemma pure_open urn : pure_call (AFF4FactoryOpen_segment urn).
Proof.
  intros w w'. unfold AFF4FactoryOpen_segment.
  destruct (_ !! _); intros [= <-]; reflexivity.
Qed.

Lemma pure_bind {A B} (c : M A) (k : A -> M B) :
  pure_call c -> (forall v, pure_call (k v)) -> pure_call (bind c k).
Proof.
  intros Hc Hk w w'. unfold bind.
  destruct (c w) as [v w1|e w1|] eqn:E.
  - assert (w1 = w) as -> by (apply Hc; now rewrite E). apply Hk.
  - intros [= <-]. apply Hc. now rewrite E.
  - discriminate.
Qed.

Lemma pure_out_of_fuel {A} : pure_call (fun _ : World => @OutOfFuel A).
Proof. intros w w'. discriminate. Qed.

Create HintDb pure.

Local Hint Resolve pure_ret pure_lift pure_get_self pure_open
  pure_out_of_fuel : pure.

Ltac pure_steps :=
  repeat match goal with
         | |- pure_call (bind _ _) => apply pure_bind; [|intros ?; cbv beta]
         | |- pure_call (if ?b then _ else _) => destruct b
         | |- pure_call _ => solve [auto with pure]
         end.

Lemma pure_bevy_loop fuel : forall bevy_id bevy idx index_size st,
  pure_call (bevy_loop zlib snappy fuel bevy_id bevy idx index_size st).
Proof.
  induction fuel as [|fuel IH]; intros; cbn [bevy_loop]; pure_steps.
Qed.

Lemma pure_bevies_loop fuel : forall st, pure_call (bevies_loop zlib snappy fuel st).
Proof.
  induction fuel as [|fuel IH]; intros; cbn [bevies_loop]; pure_steps.
  apply pure_bevy_loop.
Qed.

Lemma pure__ReadPartial chunk_id chunks_to_read :
  pure_call (_ReadPartial zlib snappy chunk_id chunks_to_read).
Proof.
  unfold _ReadPartial. pure_steps. apply pure_bevies_loop.
Qed.

Lemma pure_Read_loop fuel : forall chunk_id chunks_to_read result,
  pure_call (Read_loop zlib snappy fuel chunk_id chunks_to_read result).
Proof.
  induction fuel as [|fuel IH]; intros; cbn [Read_loop]; pure_steps.
  apply pure__ReadPartial.
Qed.

Lemma pure_Read length : pure_call (Read zlib snappy length).
Proof.
  unfold Read. pure_steps. apply pure_Read_loop.
Qed.

(** *** [Flush] *)

Lemma Flush_unfold w :
  Flush zlib snappy w =
  if dirty (self w) then
    match FlushChunk zlib snappy (buffer (self w)) w with
    | Ok _ w1 =>
        match _FlushBevy w1 with
        | Ok _ w2 =>
            Ok tt (mkWorld (with_dirty false (self w2))
                     (recorded (self w2) (resolver w2)))
        | Raise e w2 => Raise e w2
        | OutOfFuel => OutOfFuel
        end
    | Raise e w1 => Raise e w1
    | OutOfFuel => OutOfFuel
    end
  else Ok tt (mkWorld (with_dirty false (self w)) (resolver w)).
Proof.
  unfold Flush. step_monad. destruct (dirty (self w)); [|reflexivity].
  destruct (FlushChunk _ _ _ w) as [[] w1|e w1|]; try reflexivity.
  cbn -[_FlushBevy]. destruct (_FlushBevy w1) as [[] w2|e w2|]; reflexivity.
Qed.

Lemma Flush_total w : Flush zlib snappy w <> OutOfFuel.
Proof.
  rewrite Flush_unfold. destruct (dirty (self w)); [|discriminate].
  destruct (FlushChunk _ _ _ w) as [[] w1|e w1|] eqn:E; try discriminate.
  - destruct (_FlushBevy w1) as [[] w2|e w2|] eqn:E2; try discriminate.
    now apply _FlushBevy_total in E2.
  - now apply FlushChunk_total in E.
Qed.

Lemma Flush_final w w' :
  final (Flush zlib snappy w) = Some w' ->
  exists w2, (w2 = w \/ write_frame w w2 /\
              (index_matches_count (self w) -> index_matches_count (self w2))) /\
    (w' = w2 \/
     w' = mkWorld (with_dirty false (self w2)) (resolver w2) \/
     w' = mkWorld (with_dirty false (self w2))
            (recorded (self w2) (resolver w2))).
Proof.
  rewrite Flush_unfold. destruct (dirty (self w)).
  2: { simpl. intros [= <-]. exists w. split; [now left | right; now left]. }
  destruct (FlushChunk _ _ _ w) as [[] w1|e w1|] eqn:E; try discriminate.
  - assert (F1 : write_frame w w1)
      by (eapply FlushChunk_frame; now rewrite E).
    assert (I1 : index_matches_count (self w) -> index_matches_count (self w1))
      by (intros Hi; eapply FlushChunk_index_matches_count;
          [exact Hi | now rewrite E]).
    destruct (_FlushBevy w1) as [[] w2|e w2|] eqn:E2; try discriminate.
    + simpl. intros [= <-]. exists w2. split; [|right; now right].
      right. split.
      * eapply write_frame_trans; [exact F1|].
        eapply _FlushBevy_frame. now rewrite E2.
      * intros Hi. eapply _FlushBevy_index_matches_count;
          [apply I1, Hi | now rewrite E2].
    + simpl. intros [= <-]. exists w2. split; [|now left].
      right. split.
      * eapply write_frame_trans; [exact F1|].
        eapply _FlushBevy_frame. now rewrite E2.
      * intros Hi. eapply _FlushBevy_index_matches_count;
          [apply I1, Hi | now rewrite E2].
  - simpl. intros [= <-]. exists w1. split; [|now left].
    right. split.
    + eapply FlushChunk_frame. now rewrite E.
    + intros Hi. eapply FlushChunk_index_matches_count;
        [exact Hi | now rewrite E].
Qed.

Lemma Flush_index_matches_count w w' :
  index_matches_count (self w) ->
  final (Flush zlib snappy w) = Some w' -> index_matches_count (self w').
Proof.
  intros Hi H. apply Flush_final in H as (w2 & Hw2 & Hw').
  assert (index_matches_count (self w2)) by (destruct Hw2 as [->|[_ H2]]; auto).
  destruct Hw' as [->|[->| ->]]; assumption.
Qed.

Lemma Flush_pending w w' :
  final (Flush zlib snappy w) = Some w' ->
  buffer (self w') = buffer (self w) /\ readptr (self w') = readptr (self w).
Proof.
  intros H. apply Flush_final in H as (w2 & Hw2 & Hw').
  assert (buffer (self w2) = buffer (self w) /\
          readptr (self w2) = readptr (self w)) as [Hb Hr].
  { destruct Hw2 as [->|[F _]]; [now split|].
    destruct F as (_ & _ & _ & _ & _ & Hr & Hb & _). now split. }
  destruct Hw' as [->|[->| ->]]; now split.
Qed.

Lemma Write_index_matches_count data w w' :
  index_matches_count (self w) ->
  final (Write zlib snappy data w) = Some w' -> index_matches_count (self w').
Proof.
  intros Hi. rewrite Write_unfold. cbv zeta.
  set (w1 := mkWorld _ _).
  assert (H1 : index_matches_count (self w1)) by exact Hi.
  pose proof (Write_loop_preserves
                (fun w => index_matches_count (self w))) as HP.
  specialize (HP (fun w b H => H) FlushChunk_index_matches_count
                 (length (buffer (self w1))) w1).
  destruct (Write_loop _ _ _ w1) as [[] w2|e w2|]; try discriminate.
  - simpl. intros [= <-]. specialize (HP w2 H1 eq_refl).
    cbn. destruct (_ >? _); exact HP.
  - simpl. intros [= <-]. exact (HP w2 H1 eq_refl).
Qed.

Lemma perform_index_matches_count call w w' :
  index_matches_count (self w) ->
  perform zlib snappy call w = Some w' -> index_matches_count (self w').
Proof.
  intros Hi. destruct call as [data|chunk| | |length|offset]; cbn [perform].
  - now apply Write_index_matches_count.
  - now apply FlushChunk_index_matches_count.
  - now apply _FlushBevy_index_matches_count.
  - now apply Flush_index_matches_count.
  - intros H. apply pure_Read in H. now subst.
  - intros [= <-]. exact Hi.
Qed.



Lemma Write_loop_small fuel w :
  len (buffer (self w)) <= chunk_size (self w) ->
  Write_loop zlib snappy fuel w = Ok tt w.
Proof.
  intros H. rewrite Write_loop_unfold.
  destruct (Z.gtb_spec (len (buffer (self w))) (chunk_size (self w)));
    [lia | reflexivity].
Qed.

(** A write that does not fill more than one chunk only extends the
    buffer. *)
Lemma Write_small data w :
  len (buffer (self w) ++ data) <= chunk_size (self w) ->
  exists w',
    Write zlib snappy data w = Ok (len data) w' /\
    buffer (self w') = buffer (self w) ++ data /\
    dirty (self w') = true /\
    bevy (self w') = bevy (self w) /\
    bevy_number (self w') = bevy_number (self w) /\
    compression (self w') = compression (self w) /\
    urn (self w') = urn (self w).
Proof.
  intros H. rewrite Write_unfold. cbv zeta.
  rewrite Write_loop_small by exact H.
  eexists. split; [reflexivity|].
  cbn. destruct (_ >? _); repeat split.
Qed.

(** A flush of a dirty stream whose bevy is not empty afterwards
    persists that bevy under the current bevy number. *)
Lemma Flush_persists w w1 :
  dirty (self w) = true ->
  bevy (self w)
    ++ compress_chunk zlib snappy (compression (self w)) (buffer (self w))
    <> [] ->
  Flush zlib snappy w = Ok tt w1 ->
  let a := finalized
             (appended (compress_chunk zlib snappy (compression (self w))
                          (buffer (self w))) w) in
  w1 = mkWorld (with_dirty false (self a)) (recorded (self a) (resolver a)).
Proof.
  intros Hd Hne. rewrite Flush_unfold, Hd.
  destruct (Z.lt_ge_cases (len (bevy (self w))) (2 ^ 32)) as [Hlt|Hge].
  2: { rewrite FlushChunk_overflow by assumption. discriminate. }
  rewrite FlushChunk_eq by assumption. cbv zeta.
  set (a := appended _ w).
  assert (Ha : bevy (self a) <> []) by exact Hne.
  destruct (_ >=? _).
  - destruct (_FlushBevy a) as [[] w'|e w'|] eqn:E; try discriminate.
    apply _FlushBevy_Ok in E as [[Hb _]|[_ ->]]; [contradiction|].
    destruct (_FlushBevy (finalized a)) as [[] w2|e w2|] eqn:E2;
      try discriminate.
    apply _FlushBevy_Ok in E2 as [[_ ->]|[Hb _]]; [|now contradiction Hb].
    now intros [= <-].
  - destruct (_FlushBevy a) as [[] w2|e w2|] eqn:E; try discriminate.
    apply _FlushBevy_Ok in E as [[Hb _]|[_ ->]]; [contradiction|].
    now intros [= <-].
Qed.

Lemma LoadFromURN_index_matches_count w w' :
  LoadFromURN w = Ok tt w' -> index_matches_count (self w').
Proof.
  unfold LoadFromURN. step_monad.
  destruct (attributes (resolver w) !! (urn (self w), AFF4_STORED));
    [|discriminate].
  repeat match goal with
         | |- context [int_or ?v ?d] => destruct (int_or v d); try discriminate
         | |- context [compression_or ?v ?d] =>
             destruct (compression_or v d); try discriminate
         end.
  cbn. intros [= <-]. reflexivity.
Qed.


End WritePath.

(** ** The read path *)

Section ReadPath.
Variables zlib snappy : Codec.

Lemma py_index_in_range (t : list Z) (i v : Z) :
  0 <= i -> nth_error t (Z.to_nat i) = Some v -> py_index t i = inr v.
Proof.
  intros Hi Hv. unfold py_index.
  assert (Z.to_nat i < length t)%nat
    by (apply nth_error_Some; congruence).
  destruct (Z.ltb_spec i 0); [lia|].
  destruct (Z.ltb_spec i 0); [lia|].
  destruct (Z.leb_spec (Z.of_nat (length t)) i); [lia|].
  cbn. now rewrite Hv.
Qed.

Lemma decompress_cbuffer_not_index_corruption s cbuffer e :
  decompress_cbuffer zlib snappy s cbuffer = inl e ->
  index_corruption e = false.
Proof.
  unfold decompress_cbuffer, codec_result.
  destruct (compression s);
    repeat match goal with |- context [decompress ?c ?b] =>
             destruct (decompress c b) end;
    intros [= <-]; reflexivity.
Qed.

Lemma py_index_not_index_corruption t i e :
  py_index t i = inl e -> index_corruption e = false.
Proof.
  unfold py_index. destruct (_ || _); [intros [= <-]; reflexivity|].
  destruct (nth_error _ _); intros [= <-]; reflexivity.
Qed.

Lemma compressed_chunk_size_not_index_corruption i bevy t n e :
  compressed_chunk_size i bevy t n = inl e -> index_corruption e = false.
Proof.
  unfold compressed_chunk_size. destruct (_ =? _); [discriminate|].
  destruct (py_index t (i + 1)) eqn:E1;
    [intros [= <-]; eapply py_index_not_index_corruption, E1|].
  destruct (py_index t i) eqn:E2;
    [intros [= <-]; eapply py_index_not_index_corruption, E2|].
  discriminate.
Qed.

Lemma seg_Read_to_end h offset n :
  0 <= offset <= seg_Size h -> seg_Size h - offset <= n ->
  len (fst (seg_Read (seg_Seek h offset) n)) = seg_Size h - offset.
Proof.
  unfold seg_Read, seg_Seek, seg_Size, len. cbn. intros Ho Hn.
  rewrite length_firstn, length_skipn. lia.
Qed.

Lemma seg_Read_exact h offset n :
  0 <= offset -> 0 <= n -> offset + n <= seg_Size h ->
  len (fst (seg_Read (seg_Seek h offset) n)) = n.
Proof.
  unfold seg_Read, seg_Seek, seg_Size, len. cbn. intros Ho Hn Hs.
  rewrite length_firstn, length_skipn. lia.
Qed.

End ReadPath.

(** * The stream against its specification *)

(** C5. Resolving the byte range of a chunk raises one of the two
    index-corruption errors exactly when the index is empty or the
    position of the chunk in its bevy, [chunk_id mod chunks_per_segment],
    is not below [index_size]; data is returned only for a position that
    the index holds. *)
Theorem index_corruption_iff (zlib snappy : Codec) (s : AFF4Image)
    (chunk_id : Z) (bevy : Segment) (bevy_index : list Z) (index_size : Z) :
  let outcome :=
    _ReadChunkFromBevy zlib snappy s chunk_id bevy bevy_index index_size in
  let chunk_id_in_bevy := chunk_id mod chunks_per_segment s in
  ((exists e, outcome = inl e /\ index_corruption e = true) <->
   chunks_per_segment s <> 0 /\
   (index_size = 0 \/ chunk_id_in_bevy >= index_size)) /\
  (forall r, outcome = inr r ->
     index_size <> 0 /\ chunk_id_in_bevy < index_size).
Proof.
  cbv zeta. unfold _ReadChunkFromBevy, read_cbuffer, py_mod.
  destruct (Z.eqb_spec (chunks_per_segment s) 0) as [Hz|Hnz].
  { split; [|discriminate]. split.
    - intros (e & [= <-] & He). discriminate.
    - intros [H _]. contradiction. }
  destruct (Z.eqb_spec index_size 0) as [Hi|Hi].
  { split; [|discriminate]. split; [auto|]. intros _. eauto. }
  destruct (Z.geb_spec (chunk_id mod chunks_per_segment s) index_size)
    as [Hge|Hlt].
  { split; [|discriminate]. split; [intros _; split; [assumption|lia]|].
    intros _. eauto. }
  split.
  - split; [|intros [_ [H|H]]; [contradiction | lia]].
    intros (e & He & Hc). exfalso.
    destruct (compressed_chunk_size _ _ _ _) as [e1|n] eqn:E1.
    { injection He as <-.
      apply compressed_chunk_size_not_index_corruption in E1. congruence. }
    destruct (py_index _ _) as [e2|offset] eqn:E2.
    { injection He as <-. apply py_index_not_index_corruption in E2.
      congruence. }
    destruct (decompress_cbuffer _ _ _ _) as [e3|data] eqn:E3;
      [|discriminate].
    injection He as <-.
    apply decompress_cbuffer_not_index_corruption in E3. congruence.
  - intros r _. split; [assumption | lia].
Qed.

(** C3. With a chunk size of 4, two chunks per segment and stored
    compression, writing ["ABCDEFGHIJ"] persists the chunks ["ABCD"] and
    ["EFGH"] as bevy 0 with the index [0, 4] and leaves ["IJ"] pending;
    [Flush] then persists bevy 1 with the one chunk ["IJ"] and the index
    [0]; the size is 10, reading 10 bytes at offset 0 gives the ten
    bytes back and reading 3 bytes at offset 4 gives ["EFG"]. *)
Theorem example_ABCDEFGHIJ (zlib snappy : Codec) :
  let w0 := new_world 4 2 AFF4_IMAGE_COMPRESSION_STORED in
  let written := Write zlib snappy (bs "ABCDEFGHIJ") in
  let flushed := written;;; Flush zlib snappy in
  returned (written w0) = Some (inr 10) /\
  segment_after (written w0) (bevy_urn_of "aff4://image" 0)
  = Some (bs "ABCDEFGH") /\
  index_after (written w0) (bevy_index_urn_of "aff4://image" 0)
  = Some (inr [0; 4]) /\
  segment_after (written w0) (bevy_urn_of "aff4://image" 1) = None /\
  field_after buffer (written w0) = Some (bs "IJ") /\
  field_after bevy (written w0) = Some [] /\
  returned (flushed w0) = Some (inr tt) /\
  segment_after (flushed w0) (bevy_urn_of "aff4://image" 0)
  = Some (bs "ABCDEFGH") /\
  index_after (flushed w0) (bevy_index_urn_of "aff4://image" 0)
  = Some (inr [0; 4]) /\
  segment_after (flushed w0) (bevy_urn_of "aff4://image" 1)
  = Some (bs "IJ") /\
  index_after (flushed w0) (bevy_index_urn_of "aff4://image" 1)
  = Some (inr [0]) /\
  segment_after (flushed w0) (bevy_urn_of "aff4://image" 2) = None /\
  field_after size (flushed w0) = Some 10 /\
  returned ((flushed;;; Seek 0;;; Read zlib snappy 10) w0)
  = Some (inr (bs "ABCDEFGHIJ")) /\
  returned ((flushed;;; Seek 4;;; Read zlib snappy 3) w0)
  = Some (inr (bs "EFG")).
Proof.
  cbv zeta. repeat (split; [vm_compute; reflexivity|]).
  vm_compute; reflexivity.
Qed.

(** C1 fails on the code. A stream of exactly one chunk size of bytes,
    written and flushed, cannot be read back: [Read] visits
    [length / chunk_size + 1] chunks, one more than the stream holds,
    and raises on the missing index entry. *)
Theorem roundtrip_of_a_full_chunk_raises (zlib snappy : Codec) :
  returned
    ((Write zlib snappy (bs "ABCD");;; Flush zlib snappy;;; Seek 0;;;
      Read zlib snappy (len (bs "ABCD")))
       (new_world 4 2 AFF4_IMAGE_COMPRESSION_STORED))
  = Some (inl (IOError (BevyIndexTooShort 1))).
Proof. vm_compute. reflexivity. Qed.

(** C2 fails on the code. In the flushed stream ["ABCDEFGHIJ"] with a
    chunk size of 4 the window of 6 bytes at offset 3 meets the chunks
    0, 1 and 2, but [6 / 4 + 1 = 2] chunks are visited and the read
    returns the five bytes ["DEFGH"], not ["DEFGHI"]. *)
Theorem read_across_chunks_is_short (zlib snappy : Codec) :
  returned
    ((Write zlib snappy (bs "ABCDEFGHIJ");;; Flush zlib snappy;;; Seek 3;;;
      Read zlib snappy 6)
       (new_world 4 2 AFF4_IMAGE_COMPRESSION_STORED))
  = Some (inr (bs "DEFGH")) /\
  bs "DEFGH" <> firstn 6 (skipn 3 (bs "ABCDEFGHIJ")).
Proof. split; [vm_compute; reflexivity | discriminate]. Qed.

(** C9 fails on the code. On the flushed stream ["ABCD"] with a chunk
    size of 4 a read at the end of the stream, cursor 4 and size 4, has
    its length clamped to 0, visits [0 / 4 + 1 = 1] chunk, the chunk 1
    that does not exist, and raises. *)
Theorem read_at_end_of_stream_raises (zlib snappy : Codec) :
  let w0 := new_world 4 2 AFF4_IMAGE_COMPRESSION_STORED in
  let positioned :=
    Write zlib snappy (bs "ABCD");;; Flush zlib snappy;;; Seek 4 in
  returned (positioned w0) = Some (inr tt) /\
  field_after readptr (positioned w0) = Some 4 /\
  field_after size (positioned w0) = Some 4 /\
  returned ((positioned;;; Read zlib snappy 1) w0)
  = Some (inl (IOError (BevyIndexTooShort 1))).
Proof.
  cbv zeta. repeat (split; [vm_compute; reflexivity|]).
  vm_compute; reflexivity.
Qed.

(** C4 as stated fails: after four bytes are written to an empty buffer
    with a chunk size of 4 the buffer holds four bytes, which is not
    below the chunk size. *)
Lemma Write_of_chunk_size_bytes_stays_pending :
  ~ (forall data w n w',
       0 < chunk_size (self w) ->
       Write identity_codec identity_codec data w = Ok n w' ->
       len (buffer (self w')) < chunk_size (self w')).
Proof.
  intros H.
  specialize (H (bs "ABCD") (new_world 4 2 AFF4_IMAGE_COMPRESSION_STORED)
                4 _ ltac:(vm_compute; reflexivity) eq_refl).
  vm_compute in H. discriminate.
Qed.

(** C4, as the code has it. With a positive chunk size [Write] ends, and
    when it returns the buffer holds at most [chunk_size] bytes; a write
    of exactly [chunk_size] bytes to an empty buffer leaves all of them
    in the buffer. *)
Theorem Write_leaves_at_most_a_chunk (zlib snappy : Codec) (data : bytes)
    (w : World) :
  0 < chunk_size (self w) ->
  Write zlib snappy data w <> OutOfFuel /\
  (forall n w', Write zlib snappy data w = Ok n w' ->
     len (buffer (self w')) <= chunk_size (self w')) /\
  (buffer (self w) = [] -> len data = chunk_size (self w) ->
   exists w', Write zlib snappy data w = Ok (len data) w' /\
              buffer (self w') = data).
Proof.
  intros Hcs.
  pose proof (Write_unfold zlib snappy data w) as Hw. cbv zeta in Hw.
  set (w1 := mkWorld _ _) in Hw.
  destruct (Write_loop_bounded zlib snappy (length (buffer (self w1))) w1)
    as [Hfin Hok]; [exact Hcs | lia |].
  split; [|split].
  - rewrite Hw.
    destruct (Write_loop _ _ _ w1) as [[] w2|e w2|]; congruence.
  - intros n w'. rewrite Hw.
    destruct (Write_loop _ _ _ w1) as [[] w2|e w2|]; try discriminate.
    destruct (Hok w2 eq_refl) as [Hb Hc]. intros [= _ <-].
    cbn. destruct (_ >? _); exact Hb.
  - intros Hb Hlen.
    destruct (Write_small zlib snappy data w) as (w' & Hw' & Hbuf & _).
    + rewrite Hb. cbn. lia.
    + exists w'. split; [exact Hw'|]. now rewrite Hbuf, Hb.
Qed.

Lemma Write_leaves_at_most_a_chunk_witness :
  0 < chunk_size (self (new_world 4 2 AFF4_IMAGE_COMPRESSION_STORED)) /\
  exists w',
    Write identity_codec identity_codec (bs "ABCD")
      (new_world 4 2 AFF4_IMAGE_COMPRESSION_STORED) = Ok 4 w' /\
    buffer (self w') = bs "ABCD".
Proof.
  split; [reflexivity|].
  apply (Write_leaves_at_most_a_chunk identity_codec identity_codec (bs "ABCD")
           (new_world 4 2 AFF4_IMAGE_COMPRESSION_STORED)); reflexivity.
Defined.

Lemma perform_all_index_matches_count (zlib snappy : Codec) calls :
  forall w w',
    index_matches_count (self w) ->
    perform_all zlib snappy calls w = Some w' ->
    index_matches_count (self w').
Proof.
  induction calls as [|call rest IH]; intros w w' Hi; cbn [perform_all].
  - now intros [= <-].
  - destruct (perform zlib snappy call w) as [w1|] eqn:E; [|discriminate].
    apply IH. eapply perform_index_matches_count; eassumption.
Qed.

(** C6. When [N] chunks, [1 <= N <= chunks_per_segment], have been
    flushed into an empty bevy, the index of that bevy, in memory or in
    its index segment once the bevy was finalized, is the encoding of
    exactly [N] unsigned 32-bit little-endian offsets, which are the
    starts of the compressed chunks in order: they do not decrease and
    the first is 0. After [LoadFromURN] and after every later call, the
    index in memory holds four bytes per chunk counted in the bevy. *)
Theorem bevy_index_integrity (zlib snappy : Codec) :
  (forall w chunks w',
     bevy (self w) = [] ->
     bevy_index (self w) = [] ->
     chunk_count_in_bevy (self w) = 0 ->
     (1 <= length chunks)%nat ->
     Z.of_nat (length chunks) <= chunks_per_segment (self w) ->
     FlushChunks zlib snappy chunks w = Ok tt w' ->
     exists index offsets,
       index_of_bevy w w' = Some index /\
       index = flat_map le_bytes offsets /\
       unpack_I (Z.of_nat (length chunks)) index = inr offsets /\
       length offsets = length chunks /\
       offsets
       = offsets_from 0
           (map (compress_chunk zlib snappy (compression (self w))) chunks) /\
       StronglySorted Z.le offsets /\
       nth_error offsets 0 = Some 0) /\
  (forall w0 w calls w',
     LoadFromURN w0 = Ok tt w ->
     perform_all zlib snappy calls w = Some w' ->
     len (bevy_index (self w')) = 4 * chunk_count_in_bevy (self w')).
Proof.
  split.
  - intros w chunks w' Hbevy Hindex Hcount Hone Hmany Hrun.
    destruct (FlushChunks_index zlib snappy chunks w w') as [Hall Hidx].
    + destruct chunks; [cbn in Hone; lia | discriminate].
    + lia.
    + exact Hrun.
    + rewrite Hbevy, Hindex in *. cbn [len length app] in *.
      change (Z.of_nat 0) with 0 in *.
      set (offsets := offsets_from 0 _) in *.
      exists (flat_map le_bytes offsets), offsets.
      assert (Hlen : length offsets = length chunks)
        by (subst offsets; now rewrite offsets_from_length, length_map).
      repeat split.
      * exact Hidx.
      * rewrite <- Hlen. now apply unpack_I_le_bytes.
      * exact Hlen.
      * apply offsets_from_sorted.
      * subst offsets. destruct chunks; [cbn in Hone; lia | reflexivity].
  - intros w0 w calls w' Hload Hcalls.
    eapply perform_all_index_matches_count; [|exact Hcalls].
    eapply LoadFromURN_index_matches_count, Hload.
Qed.

Lemma bevy_index_integrity_witness :
  let w0 := new_world 4 2 AFF4_IMAGE_COMPRESSION_STORED in
  let flushed :=
    FlushChunks identity_codec identity_codec [bs "ABCD"; bs "EFGH"] w0 in
  let loaded := state_after (LoadFromURN w0) w0 in
  (exists index,
     index_of_bevy w0 (state_after flushed w0) = Some index /\
     unpack_I 2 index = inr [0; 4]) /\
  (forall w,
     perform_all identity_codec identity_codec
       [CallWrite (bs "ABCDEFGHIJ"); CallFlush; CallSeek 0; CallRead 10]
       loaded
     = Some w ->
     len (bevy_index (self w)) = 4 * chunk_count_in_bevy (self w)).
Proof.
  cbv zeta. split.
  - destruct (proj1 (bevy_index_integrity identity_codec identity_codec)
                (new_world 4 2 AFF4_IMAGE_COMPRESSION_STORED)
                [bs "ABCD"; bs "EFGH"]
                (state_after
                   (FlushChunks identity_codec identity_codec
                      [bs "ABCD"; bs "EFGH"]
                      (new_world 4 2 AFF4_IMAGE_COMPRESSION_STORED))
                   (new_world 4 2 AFF4_IMAGE_COMPRESSION_STORED))
                eq_refl eq_refl eq_refl ltac:(cbn; lia) ltac:(cbn; lia)
                ltac:(vm_compute; reflexivity))
      as (index & offsets & Hidx & _ & Hun & _ & Hoff & _).
    exists index. split; [exact Hidx|]. subst offsets. exact Hun.
  - intros w.
    apply (proj2 (bevy_index_integrity identity_codec identity_codec)
             (new_world 4 2 AFF4_IMAGE_COMPRESSION_STORED)).
    vm_compute. reflexivity.
Defined.

(** C7 as stated fails: with an empty bevy and no volume recorded for
    the stream, [_FlushBevy] raises the storage error. *)
Lemma FlushBevy_of_empty_bevy_raises_without_volume :
  ~ (forall w, bevy (self w) = [] -> _FlushBevy w = Ok tt w).
Proof.
  intros H.
  specialize (H (mkWorld (new_image "aff4://image" 4 2
                            AFF4_IMAGE_COMPRESSION_STORED)
                   (mkResolver ∅ ∅ ∅)) eq_refl).
  vm_compute in H. discriminate.
Qed.

(** C7, as the code has it. [_FlushBevy] looks for the recorded volume
    first: when none is recorded it raises the storage error and changes
    nothing, whether or not the bevy is empty; when one is recorded and
    the bevy is empty it returns and changes nothing. *)
Theorem FlushBevy_of_empty_bevy (w : World) :
  (recorded_volume w = None ->
   _FlushBevy w = Raise (IOError UnableToFindStorage) w) /\
  (bevy (self w) = [] -> recorded_volume w <> None -> _FlushBevy w = Ok tt w).
Proof.
  split.
  - apply _FlushBevy_no_volume.
  - intros Hb Hv. destruct (recorded_volume w) as [v|] eqn:E;
      [|contradiction]. now apply (_FlushBevy_empty w v).
Qed.

Lemma FlushBevy_of_empty_bevy_witness :
  _FlushBevy (mkWorld (new_image "aff4://image" 4 2
                         AFF4_IMAGE_COMPRESSION_STORED)
                (mkResolver ∅ ∅ ∅))
  = Raise (IOError UnableToFindStorage)
      (mkWorld (new_image "aff4://image" 4 2 AFF4_IMAGE_COMPRESSION_STORED)
         (mkResolver ∅ ∅ ∅)) /\
  _FlushBevy (new_world 4 2 AFF4_IMAGE_COMPRESSION_STORED)
  = Ok tt (new_world 4 2 AFF4_IMAGE_COMPRESSION_STORED).
Proof.
  split.
  - apply (proj1 (FlushBevy_of_empty_bevy _)). reflexivity.
  - apply (proj2 (FlushBevy_of_empty_bevy _)); [reflexivity|].
    vm_compute. discriminate.
Defined.

(** * Further properties of the write path *)

Section WriteMore.
Variables zlib snappy : Codec.

(** What the chunking loop leaves alone: everything in [write_frame]
    but the buffer. *)
Lemma Write_loop_frame fuel w w' :
  final (Write_loop zlib snappy fuel w) = Some w' ->
  urn (self w') = urn (self w) /\
  chunk_size (self w') = chunk_size (self w) /\
  chunks_per_segment (self w') = chunks_per_segment (self w) /\
  compression (self w') = compression (self w) /\
  size (self w') = size (self w) /\
  readptr (self w') = readptr (self w) /\
  dirty (self w') = dirty (self w) /\
  attributes (resolver w') = attributes (resolver w) /\
  volumes (resolver w') = volumes (resolver w).
Proof.
  apply (Write_loop_preserves zlib snappy
           (fun w' =>
              urn (self w') = urn (self w) /\
              chunk_size (self w') = chunk_size (self w) /\
              chunks_per_segment (self w') = chunks_per_segment (self w) /\
              compression (self w') = compression (self w) /\
              size (self w') = size (self w) /\
              readptr (self w') = readptr (self w) /\
              dirty (self w') = dirty (self w) /\
              attributes (resolver w') = attributes (resolver w) /\
              volumes (resolver w') = volumes (resolver w))).
  - intros w1 b H. exact H.
  - intros chunk w1 w2 H Hf. apply FlushChunk_frame in Hf.
    unfold write_frame in Hf. intuition congruence.
  - repeat split.
Qed.

End WriteMore.

(** X1. A [Write] that returns gives the number of bytes it was handed,
    has moved the cursor forward by that number, has raised the size to
    the cursor where the cursor passed it, has marked the stream dirty
    and has kept the identity and the configuration of the stream. *)
Theorem Write_returns_length_and_advances (zlib snappy : Codec)
    (data : bytes) (w w' : World) (n : Z) :
  Write zlib snappy data w = Ok n w' ->
  n = len data /\
  readptr (self w') = readptr (self w) + len data /\
  size (self w') = Z.max (size (self w)) (readptr (self w) + len data) /\
  dirty (self w') = true /\
  urn (self w') = urn (self w) /\
  chunk_size (self w') = chunk_size (self w) /\
  chunks_per_segment (self w') = chunks_per_segment (self w) /\
  compression (self w') = compression (self w).
Proof.
  rewrite Write_unfold. cbv zeta. set (w1 := mkWorld _ _).
  destruct (Write_loop zlib snappy _ w1) as [[] w2|e w2|] eqn:E;
    try discriminate.
  apply final_Ok, Write_loop_frame in E.
  destruct E as (Hu & Hcs & Hcps & Hc & Hs & Hr & Hd & _).
  subst w1. cbn in Hu, Hcs, Hcps, Hc, Hs, Hr, Hd.
  intros [= <- <-]. cbn.
  destruct (Z.gtb_spec (readptr (self w2) + len data) (size (self w2)));
    cbn; rewrite ?Hr, ?Hs, ?Hu, ?Hcs, ?Hcps, ?Hc, ?Hd in *;
    repeat split; lia.
Qed.

Lemma Write_returns_length_and_advances_witness :
  let w0 := new_world 4 2 AFF4_IMAGE_COMPRESSION_STORED in
  let w := state_after
             (Write identity_codec identity_codec (bs "ABCDEFGHIJ") w0) w0 in
  readptr (self w) = 10 /\ size (self w) = 10 /\ dirty (self w) = true.
Proof.
  cbv zeta.
  destruct (Write_returns_length_and_advances identity_codec identity_codec
              (bs "ABCDEFGHIJ")
              (new_world 4 2 AFF4_IMAGE_COMPRESSION_STORED)
              (state_after
                 (Write identity_codec identity_codec (bs "ABCDEFGHIJ")
                    (new_world 4 2 AFF4_IMAGE_COMPRESSION_STORED))
                 (new_world 4 2 AFF4_IMAGE_COMPRESSION_STORED))
              10 ltac:(vm_compute; reflexivity))
    as (_ & Hr & Hs & Hd & _).
  split; [exact Hr | split; [exact Hs | exact Hd]].
Defined.

(** X2. With a chunk size of zero or less the loop of [Write] has no
    exit once the buffer is longer than the chunk size: whatever the
    number of turns allowed, [Write] does not return. *)
Theorem Write_loop_never_returns_without_positive_chunk_size
    (zlib snappy : Codec) (fuel : nat) (w : World) :
  chunk_size (self w) <= 0 ->
  len (buffer (self w)) > chunk_size (self w) ->
  forall w', Write_loop zlib snappy fuel w <> Ok tt w'.
Proof.
  revert w. induction fuel as [|fuel IH]; intros w Hcs Hgt w';
    rewrite Write_loop_unfold;
    destruct (Z.gtb_spec (len (buffer (self w))) (chunk_size (self w)));
    try lia; [discriminate|].
  set (w1 := mkWorld _ _).
  destruct (FlushChunk zlib snappy _ w1) as [[] w2|e w2|] eqn:E;
    try discriminate.
  apply final_Ok, FlushChunk_frame in E.
  destruct E as (_ & Ecs & _ & _ & _ & _ & Ebuf & _).
  subst w1. cbn in Ecs, Ebuf.
  apply IH; rewrite ?Ecs, ?Ebuf; [lia|].
  destruct (Z.eq_dec (chunk_size (self w)) 0) as [Hz|Hnz].
  - rewrite Hz in *.
    change (slice_from (buffer (self w)) 0) with (buffer (self w)). lia.
  - pose proof (len_nonneg (slice_from (buffer (self w)) (chunk_size (self w)))).
    lia.
Qed.

Lemma Write_loop_never_returns_without_positive_chunk_size_witness :
  match
    Write_loop identity_codec identity_codec 100
      (mkWorld (mkImage "aff4://image" 0 2 AFF4_IMAGE_COMPRESSION_STORED 0 0
                  (bs "AB") [] [] 0 0 true)
         (new_resolver "aff4://image" "aff4://volume"))
  with
  | Ok _ _ => False
  | _ => True
  end.
Proof.
  set (w := mkWorld _ _).
  assert (Hcs : chunk_size (self w) <= 0) by (cbn; lia).
  assert (Hlen : len (buffer (self w)) > chunk_size (self w))
    by (vm_compute; reflexivity).
  destruct (Write_loop _ _ _ w) as [[] w'|e w'|] eqn:E; [|exact I|exact I].
  exact (Write_loop_never_returns_without_positive_chunk_size
           identity_codec identity_codec 100 w Hcs Hlen w' E).
Defined.

(** * Further properties of the read path *)

Section ReadMore.
Variables zlib snappy : Codec.

Lemma bevy_loop_unfold fuel bevy_id bevy idx index_size st w :
  bevy_loop zlib snappy fuel bevy_id bevy idx index_size st w =
  if p_chunks_to_read st >? 0 then
    match fuel with
    | O => OutOfFuel
    | S fuel' =>
        match _ReadChunkFromBevy zlib snappy (self w) (p_chunk_id st) bevy
                idx index_size with
        | inl e => Raise e w
        | inr r =>
            let st' := mkPartial (p_chunk_id st + 1) (p_chunks_to_read st - 1)
                         (p_chunks_read st + 1) (p_result st ++ fst r) in
            match py_div (p_chunk_id st') (chunks_per_segment (self w)) with
            | inl e => Raise e w
            | inr q =>
                if bevy_id <? q then Ok st' w
                else bevy_loop zlib snappy fuel' bevy_id (snd r) idx
                       index_size st' w
            end
        end
    end
  else Ok st w.
Proof.
  destruct fuel; cbn [bevy_loop]; destruct (_ >? _); try reflexivity.
  unfold bind, get_self, lift, ret.
  destruct (_ReadChunkFromBevy _ _ _ _ _ _ _) as [e|r]; [reflexivity|].
  cbn [p_chunk_id]. destruct (py_div _ _) as [e|q]; [reflexivity|].
  destruct (_ <? _); reflexivity.
Qed.

(** The loop over one bevy ends within [chunks_to_read] turns, makes
    progress, and counts every chunk it read. *)
Lemma bevy_loop_progress fuel : forall bevy_id bevy idx index_size st w,
  p_chunks_to_read st <= Z.of_nat fuel ->
  bevy_loop zlib snappy fuel bevy_id bevy idx index_size st w <> OutOfFuel /\
  forall st' w',
    bevy_loop zlib snappy fuel bevy_id bevy idx index_size st w = Ok st' w' ->
    p_chunks_read st' + p_chunks_to_read st'
    = p_chunks_read st + p_chunks_to_read st /\
    (0 < p_chunks_to_read st ->
     0 <= p_chunks_to_read st' < p_chunks_to_read st) /\
    (p_chunks_to_read st <= 0 -> st' = st).
Proof.
  induction fuel as [|fuel IH]; intros bevy_id bevy idx index_size st w Hfuel;
    rewrite bevy_loop_unfold;
    destruct (Z.gtb_spec (p_chunks_to_read st) 0) as [Hpos|Hnpos];
    try lia;
    try (split; [discriminate|]; intros st' w' [= <- <-];
         split; [reflexivity | split; [lia | reflexivity]]).
  destruct (_ReadChunkFromBevy _ _ _ _ _ _ _) as [e|r];
    [split; discriminate|].
  cbv zeta. cbn [p_chunk_id].
  destruct (py_div _ _) as [e|q]; [split; discriminate|].
  destruct (_ <? _).
  - split; [discriminate|]. intros st' w' [= <- <-]. cbn.
    split; [lia | split; lia].
  - set (st1 := mkPartial _ _ _ _).
    destruct (IH bevy_id (snd r) idx index_size st1 w) as [Hfin Hok].
    { subst st1. cbn. lia. }
    split; [exact Hfin|]. intros st' w' Hrun.
    destruct (Hok st' w' Hrun) as (Hsum & Hdec & Hsame).
    subst st1. cbn in Hsum, Hdec, Hsame.
    split; [lia|]. split; [|lia]. intros _.
    destruct (Z.eq_dec (p_chunks_to_read st) 1) as [Hone|Hmore].
    + rewrite Hsame by lia. cbn. lia.
    + lia.
Qed.

Lemma bevies_loop_unfold fuel st w :
  bevies_loop zlib snappy fuel st w =
  if p_chunks_to_read st >? 0 then
    match fuel with
    | O => OutOfFuel
    | S fuel' =>
        match py_div (p_chunk_id st) (chunks_per_segment (self w)) with
        | inl e => Raise e w
        | inr bevy_id =>
            let bevy_urn := Append (urn (self w)) (format_08d bevy_id) in
            match members (resolver w) !! Append bevy_urn "index" with
            | None => Raise (IOError (UnableToOpen (Append bevy_urn "index"))) w
            | Some index =>
                let bevy_index := mkSegment index 0 in
                match unpack_I (seg_Size bevy_index / 4)
                        (fst (seg_Read bevy_index (seg_Size bevy_index))) with
                | inl e => Raise e w
                | inr bevy_index_array =>
                    match members (resolver w) !! bevy_urn with
                    | None => Raise (IOError (UnableToOpen bevy_urn)) w
                    | Some data =>
                        match bevy_loop zlib snappy
                                (Z.to_nat (p_chunks_to_read st)) bevy_id
                                (mkSegment data 0) bevy_index_array
                                (seg_Size bevy_index / 4) st w with
                        | Ok st' w' => bevies_loop zlib snappy fuel' st' w'
                        | Raise e w' => Raise e w'
                        | OutOfFuel => OutOfFuel
                        end
                    end
                end
            end
        end
    end
  else Ok st w.
Proof.
  destruct fuel; cbn [bevies_loop]; destruct (_ >? _); try reflexivity.
  unfold bind, get_self, lift, ret, AFF4FactoryOpen_segment.
  destruct (py_div _ _) as [e|bevy_id]; [reflexivity|].
  destruct (members (resolver w) !! Append _ "index") as [index|];
    [|reflexivity].
  unfold py_div at 1. cbn [Z.eqb].
  destruct (unpack_I _ _) as [e|arr]; [reflexivity|].
  destruct (members (resolver w) !! _) as [data|]; reflexivity.
Qed.

Lemma bevies_loop_progress fuel : forall st w,
  p_chunks_to_read st <= Z.of_nat fuel ->
  bevies_loop zlib snappy fuel st w <> OutOfFuel /\
  forall st' w',
    bevies_loop zlib snappy fuel st w = Ok st' w' ->
    p_chunks_read st' + p_chunks_to_read st'
    = p_chunks_read st + p_chunks_to_read st /\
    (0 < p_chunks_to_read st -> p_chunks_to_read st' = 0) /\
    (p_chunks_to_read st <= 0 -> st' = st).
Proof.
  induction fuel as [|fuel IH]; intros st w Hfuel;
    rewrite bevies_loop_unfold;
    destruct (Z.gtb_spec (p_chunks_to_read st) 0) as [Hpos|Hnpos];
    try lia;
    try (split; [discriminate|]; intros st' w' [= <- <-];
         split; [reflexivity | split; [lia | reflexivity]]).
  destruct (py_div _ _) as [e|bevy_id]; [split; discriminate|].
  cbv zeta.
  destruct (members (resolver w) !! Append _ "index") as [index|];
    [|split; discriminate].
  destruct (unpack_I _ _) as [e|arr]; [split; discriminate|].
  destruct (members (resolver w) !! _) as [data|]; [|split; discriminate].
  destruct (bevy_loop_progress (Z.to_nat (p_chunks_to_read st)) bevy_id
              (mkSegment data 0) arr (seg_Size (mkSegment index 0) / 4) st w)
    as [Hfin Hok]; [lia|].
  destruct (bevy_loop _ _ _ _ _ _ _ _ _) as [st1 w1|e w1|];
    [|split; discriminate|contradiction].
  destruct (Hok st1 w1 eq_refl) as (Hsum & Hdec & _).
  specialize (Hdec Hpos).
  destruct (IH st1 w1) as [Hfin' Hok']; [lia|].
  split; [exact Hfin'|]. intros st' w' Hrun.
  destruct (Hok' st' w' Hrun) as (Hsum' & Hzero & Hsame).
  split; [lia|]. split; [|lia]. intros _.
  destruct (Z.eq_dec (p_chunks_to_read st1) 0) as [Hz|Hnz].
  - rewrite Hsame by lia. exact Hz.
  - apply Hzero. lia.
Qed.

Lemma _ReadPartial_count chunk_id chunks_to_read w :
  _ReadPartial zlib snappy chunk_id chunks_to_read w <> OutOfFuel /\
  forall n data w',
    _ReadPartial zlib snappy chunk_id chunks_to_read w = Ok (n, data) w' ->
    n = Z.max 0 chunks_to_read.
Proof.
  unfold _ReadPartial, bind, ret.
  destruct (bevies_loop_progress (Z.to_nat chunks_to_read)
              (mkPartial chunk_id chunks_to_read 0 []) w) as [Hfin Hok];
    [cbn; lia|].
  destruct (bevies_loop _ _ _ _ _) as [st w1|e w1|];
    [|split; discriminate|contradiction].
  split; [discriminate|]. intros n data w' [= <- _ _].
  destruct (Hok st w1 eq_refl) as (Hsum & Hzero & Hsame). cbn in *.
  destruct (Z.le_gt_cases chunks_to_read 0).
  - rewrite Hsame by lia. cbn. lia.
  - rewrite Hzero in Hsum by lia. lia.
Qed.

Lemma Read_loop_total fuel : forall chunk_id chunks_to_read result w,
  chunks_to_read <= Z.of_nat fuel ->
  Read_loop zlib snappy fuel chunk_id chunks_to_read result w <> OutOfFuel.
Proof.
  induction fuel as [|fuel IH]; intros chunk_id k result w Hfuel;
    cbn [Read_loop]; destruct (Z.gtb_spec k 0); try lia; try discriminate.
  unfold bind.
  destruct (_ReadPartial_count chunk_id k w) as [Hfin Hok].
  destruct (_ReadPartial _ _ _ _ _) as [[n data] w1|e w1|];
    [|discriminate|contradiction].
  cbn [fst snd]. rewrite (Hok n data w1 eq_refl).
  destruct (_ =? 0); [discriminate|]. apply IH. lia.
Qed.

End ReadMore.

(** X3. [Read] always finishes, by returning or by raising, and in
    both cases leaves the stream object, its cursor included, and the
    store exactly as they were. *)
Theorem Read_finishes_and_changes_nothing (zlib snappy : Codec)
    (length : Z) (w : World) :
  final (Read zlib snappy length w) = Some w.
Proof.
  assert (Hfin : Read zlib snappy length w <> OutOfFuel).
  { unfold Read, bind, get_self, lift, ret.
    destruct (py_mod _ _); [discriminate|].
    destruct (py_div _ _); [discriminate|].
    destruct (py_div _ _); [discriminate|].
    pose proof (Read_loop_total zlib snappy (Z.to_nat (z0 + 1)) z1 (z0 + 1)
                  [] w ltac:(lia)) as H.
    destruct (Read_loop _ _ _ _ _ _ _); [discriminate|discriminate|].
    contradiction. }
  destruct (final (Read zlib snappy length w)) as [w'|] eqn:E.
  - f_equal. now apply pure_Read in E.
  - destruct (Read zlib snappy length w); try discriminate.
    contradiction.
Qed.

(** X4. When [_ReadPartial] returns, it has read every chunk it was
    asked for: the count it returns is [chunks_to_read], or 0 when that
    is not positive. The loop of [Read] therefore makes one call. *)
Theorem ReadPartial_returns_the_whole_count (zlib snappy : Codec)
    (chunk_id chunks_to_read n : Z) (data : bytes) (w w' : World) :
  _ReadPartial zlib snappy chunk_id chunks_to_read w = Ok (n, data) w' ->
  n = Z.max 0 chunks_to_read.
Proof. apply _ReadPartial_count. Qed.

Lemma ReadPartial_returns_the_whole_count_witness :
  let w0 := new_world 4 2 AFF4_IMAGE_COMPRESSION_STORED in
  let w := state_after
             ((Write identity_codec identity_codec (bs "ABCDEFGHIJ");;;
               Flush identity_codec identity_codec) w0) w0 in
  _ReadPartial identity_codec identity_codec 0 3 w = Ok (3, bs "ABCDEFGHIJ") w.
Proof.
  cbv zeta.
  set (w := state_after _ _).
  assert (H : _ReadPartial identity_codec identity_codec 0 3 w
              = Ok (3, bs "ABCDEFGHIJ") w) by (vm_compute; reflexivity).
  pose proof (ReadPartial_returns_the_whole_count identity_codec
                identity_codec 0 3 3 (bs "ABCDEFGHIJ") w w H) as _.
  exact H.
Defined.

(** X5. With a positive chunk size, a read whose clamped length is
    negative, as with the cursor past the size or a negative length
    asked for, visits no chunk and returns the empty string. *)
Theorem Read_with_negative_length_is_empty (zlib snappy : Codec)
    (length : Z) (w : World) :
  0 < chunk_size (self w) ->
  Z.min length (size (self w) - readptr (self w)) < 0 ->
  Read zlib snappy length w = Ok [] w.
Proof.
  intros Hcs Hneg. unfold Read, bind, get_self, lift, ret, py_mod, py_div,
    Size.
  destruct (Z.eqb_spec (chunk_size (self w)) 0); [lia|].
  set (l := Z.min length _) in *.
  assert (Hq : l / chunk_size (self w) + 1 <= 0).
  { assert (l / chunk_size (self w) < 0)
      by (apply Z.div_lt_upper_bound; lia). lia. }
  assert (Hto : forall k, slice_to [] k = [])
    by (intros k; unfold slice_to; apply firstn_nil).
  assert (Hfrom : forall k, slice_from [] k = [])
    by (intros k; unfold slice_from; apply skipn_nil).
  destruct (Z.to_nat _) as [|fuel]; cbn [Read_loop];
    destruct (Z.gtb_spec (l / chunk_size (self w) + 1) 0); try lia;
    unfold ret; destruct (_ =? 0); now rewrite ?Hfrom, Hto.
Qed.

Lemma Read_with_negative_length_is_empty_witness :
  Read identity_codec identity_codec 5
    (mkWorld (mkImage "aff4://image" 4 2 AFF4_IMAGE_COMPRESSION_STORED 10 12
                [] [] [] 0 2 false)
       (new_resolver "aff4://image" "aff4://volume"))
  = Ok []
      (mkWorld (mkImage "aff4://image" 4 2 AFF4_IMAGE_COMPRESSION_STORED 10
                  12 [] [] [] 0 2 false)
         (new_resolver "aff4://image" "aff4://volume")).
Proof.
  apply Read_with_negative_length_is_empty; cbn; lia.
Defined.

(** * The extent of a chunk in its bevy *)

Section Extent.
Variables zlib snappy : Codec.

Lemma Sorted_adjacent (l : list Z) : forall i a b,
  Sorted Z.le l ->
  nth_error l i = Some a -> nth_error l (S i) = Some b -> a <= b.
Proof.
  induction l as [|x l IH]; intros i a b Hs Ha Hb; [destruct i; discriminate|].
  apply Sorted_inv in Hs as [Hs Hd].
  destruct i as [|i].
  - cbn in Ha, Hb. injection Ha as <-.
    destruct l as [|y l]; [discriminate|]. cbn in Hb. injection Hb as <-.
    now apply HdRel_inv in Hd.
  - now apply (IH i).
Qed.

Lemma index_within_entry (data : bytes) (bevy_index : list Z) (i : nat)
    (offset : Z) :
  index_within data bevy_index ->
  nth_error bevy_index i = Some offset -> 0 <= offset <= len data.
Proof.
  intros [_ Hin] Hi. rewrite List.Forall_forall in Hin.
  apply Hin. eapply nth_error_In, Hi.
Qed.

(** What a call of [_ReadChunkFromBevy] that returned has read. *)
Lemma _ReadChunkFromBevy_inr (s : AFF4Image) (chunk_id : Z) (bevy : Segment)
    (bevy_index : list Z) (index_size : Z) (r : bytes * Segment) :
  _ReadChunkFromBevy zlib snappy s chunk_id bevy bevy_index index_size
  = inr r ->
  exists cbuffer,
    read_cbuffer s chunk_id bevy bevy_index index_size
    = inr (cbuffer, snd r).
Proof.
  unfold _ReadChunkFromBevy.
  destruct (read_cbuffer _ _ _ _ _) as [e|[cbuffer bevy']]; [discriminate|].
  cbn [fst snd].
  destruct (decompress_cbuffer _ _ _ _) as [e|d]; [discriminate|].
  intros [= <-]. now exists cbuffer.
Qed.

(** Within a bevy the next chunk has the next place in the index. *)
Lemma next_in_bevy (chunk_id cps : Z) :
  0 < cps -> (chunk_id + 1) / cps <= chunk_id / cps ->
  (chunk_id + 1) mod cps = chunk_id mod cps + 1.
Proof.
  intros Hcps Hq.
  assert (chunk_id / cps <= (chunk_id + 1) / cps)
    by (apply Z.div_le_mono; lia).
  assert (Hsame : (chunk_id + 1) / cps = chunk_id / cps) by lia.
  pose proof (Z.div_mod chunk_id cps ltac:(lia)).
  pose proof (Z.div_mod (chunk_id + 1) cps ltac:(lia)).
  rewrite Hsame in *. lia.
Qed.

(** The handles [_ReadPartial] passes are handles of the segment that
    are not past the start of the chunk they are passed for. *)
Lemma passed_not_past (s : AFF4Image) (bevy_id : Z) (data : bytes)
    (bevy_index : list Z) (chunk_id : Z) (bevy : Segment) :
  0 < chunks_per_segment s ->
  index_within data bevy_index ->
  passed zlib snappy s bevy_id data bevy_index
    (Z.of_nat (length bevy_index)) chunk_id bevy ->
  chunk_id / chunks_per_segment s = bevy_id /\
  seg_data bevy = data /\
  forall offset,
    nth_error bevy_index (Z.to_nat (chunk_id mod chunks_per_segment s))
    = Some offset ->
    seg_Tell bevy <= offset.
Proof.
  intros Hcps Hidx Hp.
  induction Hp as [chunk_id Hq|chunk_id bevy r q Hp IH Hread Hq Hstay].
  - unfold py_div in Hq.
    destruct (Z.eqb_spec (chunks_per_segment s) 0); [lia|].
    injection Hq as <-. split; [reflexivity|]. split; [reflexivity|].
    intros offset Hoff. cbn.
    now apply (index_within_entry data) in Hoff.
  - destruct IH as (Hbevy & Hdata & Htell).
    unfold py_div in Hq.
    destruct (Z.eqb_spec (chunks_per_segment s) 0); [lia|].
    injection Hq as <-. apply Z.ltb_ge in Hstay.
    assert (Hle : chunk_id / chunks_per_segment s
                  <= (chunk_id + 1) / chunks_per_segment s)
      by (apply Z.div_le_mono; lia).
    split; [lia|].
    apply _ReadChunkFromBevy_inr in Hread as [cbuffer Hread].
    pose proof (Z.mod_pos_bound chunk_id (chunks_per_segment s) Hcps) as Hi.
    rewrite (next_in_bevy chunk_id _ Hcps) by lia.
    set (i := chunk_id mod chunks_per_segment s) in *.
    unfold read_cbuffer, py_mod in Hread.
    destruct (Z.eqb_spec (chunks_per_segment s) 0); [lia|].
    fold i in Hread. cbn -[compressed_chunk_size py_index] in Hread.
    destruct (Z.eqb_spec (Z.of_nat (length bevy_index)) 0);
      [discriminate|].
    destruct (Z.geb_spec i (Z.of_nat (length bevy_index))) as [|Hlt];
      [discriminate|].
    destruct (nth_error bevy_index (Z.to_nat i)) as [this|] eqn:Ethis.
    2: { apply nth_error_None in Ethis. lia. }
    rewrite (py_index_in_range bevy_index i this) in Hread
      by (lia || exact Ethis).
    destruct (compressed_chunk_size _ _ _ _) as [e|count] eqn:En;
      [discriminate|].
    cbn in Hread. injection Hread as _ <-.
    cbn [seg_data seg_readptr]. split; [exact Hdata|].
    intros next Hnext.
    assert (Hin : (Z.to_nat (i + 1) < length bevy_index)%nat)
      by (apply nth_error_Some; congruence).
    unfold compressed_chunk_size in En.
    destruct (Z.eqb_spec i (Z.of_nat (length bevy_index) - 1)); [lia|].
    rewrite (py_index_in_range bevy_index (i + 1) next) in En
      by (lia || exact Hnext).
    rewrite (py_index_in_range bevy_index i this) in En
      by (lia || exact Ethis).
    cbn in En. injection En as <-.
    assert (this <= next).
    { apply (Sorted_adjacent bevy_index (Z.to_nat i)); [apply Hidx | exact Ethis|].
      replace (S (Z.to_nat i)) with (Z.to_nat (i + 1)) by lia. exact Hnext. }
    unfold seg_Tell. cbn [seg_readptr]. unfold len.
    rewrite length_firstn. lia.
Qed.

(** The loop of [_ReadPartial] over the chunks of a bevy passes on the
    handle it was given as [passed] has it: a turn of the loop raises
    what the call on the chunk raises, or returns, or goes on with the
    handle the call has moved and the next chunk. *)
Lemma bevy_loop_passes (fuel : nat) (bevy_id : Z) (data : bytes)
    (bevy : Segment) (bevy_index : list Z) (index_size : Z) (st : Partial)
    (w : World) :
  passed zlib snappy (self w) bevy_id data bevy_index index_size
    (p_chunk_id st) bevy ->
  p_chunks_to_read st > 0 ->
  (exists e,
     _ReadChunkFromBevy zlib snappy (self w) (p_chunk_id st) bevy bevy_index
       index_size = inl e /\
     bevy_loop zlib snappy (S fuel) bevy_id bevy bevy_index index_size st w
     = Raise e w) \/
  exists r st',
    _ReadChunkFromBevy zlib snappy (self w) (p_chunk_id st) bevy bevy_index
      index_size = inr r /\
    p_chunk_id st' = p_chunk_id st + 1 /\
    (bevy_loop zlib snappy (S fuel) bevy_id bevy bevy_index index_size st w
     = Ok st' w \/
     bevy_loop zlib snappy (S fuel) bevy_id bevy bevy_index index_size st w
     = Raise ZeroDivisionError w \/
     passed zlib snappy (self w) bevy_id data bevy_index index_size
       (p_chunk_id st') (snd r) /\
     bevy_loop zlib snappy (S fuel) bevy_id bevy bevy_index index_size st w
     = bevy_loop zlib snappy fuel bevy_id (snd r) bevy_index index_size
         st' w).
Proof.
  intros Hp Hpos. rewrite (bevy_loop_unfold zlib snappy (S fuel)).
  destruct (Z.gtb_spec (p_chunks_to_read st) 0); [|lia].
  destruct (_ReadChunkFromBevy _ _ _ _ _ _ _) as [e|r] eqn:E.
  - left. exists e. split; reflexivity.
  - right. exists r.
    exists (mkPartial (p_chunk_id st + 1) (p_chunks_to_read st - 1)
              (p_chunks_read st + 1) (p_result st ++ fst r)).
    split; [reflexivity|]. split; [reflexivity|]. cbv zeta.
    cbn [p_chunk_id].
    destruct (py_div (p_chunk_id st + 1) (chunks_per_segment (self w)))
      as [e|q] eqn:Eq.
    + right. left. unfold py_div in Eq.
      destruct (_ =? _); [|discriminate]. injection Eq as <-. reflexivity.
    + destruct (bevy_id <? q) eqn:Estay.
      * left. reflexivity.
      * right. right. split; [|reflexivity].
        eapply passed_moved; eassumption.
Qed.

(** The decoded index has as many entries as were asked for. *)
Lemma unpack_words_length (data : bytes) : forall ws,
  unpack_words data = Some ws -> length data = (4 * length ws)%nat.
Proof.
  assert (H : forall n (data : bytes) ws,
            (length data <= n)%nat ->
            unpack_words data = Some ws ->
            length data = (4 * length ws)%nat).
  { induction n as [|n IH]; intros d ws Hn.
    - destruct d; [|cbn in Hn; lia]. cbn. now intros [= <-].
    - destruct d as [|b0 [|b1 [|b2 [|b3 rest]]]]; cbn; try discriminate.
      + now intros [= <-].
      + destruct (unpack_words rest) as [ws'|] eqn:E; [|discriminate].
        intros [= <-]. cbn [length].
        rewrite (IH rest ws') by (cbn in Hn; lia || exact E). lia. }
  intros ws. now apply (H (length data)).
Qed.

Lemma unpack_I_length (count : Z) (data : bytes) (ws : list Z) :
  0 <= count -> unpack_I count data = inr ws ->
  Z.of_nat (length ws) = count.
Proof.
  intros Hc. unfold unpack_I.
  destruct (Z.eqb_spec (len data) (4 * Z.max 0 count)) as [Hl|];
    [|discriminate].
  destruct (unpack_words data) as [ws'|] eqn:E; [|discriminate].
  intros [= <-]. apply unpack_words_length in E. unfold len in Hl. lia.
Qed.

(** The loop of [_ReadPartial] over the bevies passes to the loop over
    a bevy the handle the store opens, as [passed] has it, with the
    index it decoded and the number of its entries. *)
Lemma bevies_loop_passes (fuel : nat) (st : Partial) (w : World) :
  p_chunks_to_read st > 0 ->
  (exists e, bevies_loop zlib snappy (S fuel) st w = Raise e w) \/
  exists bevy_id data bevy_index,
    segment_of w (bevy_urn_of (urn (self w)) bevy_id) = Some data /\
    passed zlib snappy (self w) bevy_id data bevy_index
      (Z.of_nat (length bevy_index)) (p_chunk_id st) (mkSegment data 0) /\
    bevies_loop zlib snappy (S fuel) st w
    = (st' <- bevy_loop zlib snappy (Z.to_nat (p_chunks_to_read st)) bevy_id
                (mkSegment data 0) bevy_index
                (Z.of_nat (length bevy_index)) st;;
       bevies_loop zlib snappy fuel st') w.
Proof.
  intros Hpos. rewrite (bevies_loop_unfold zlib snappy (S fuel)).
  destruct (Z.gtb_spec (p_chunks_to_read st) 0); [|lia].
  destruct (py_div _ _) as [e|bevy_id] eqn:Eq; [left; now exists e|].
  cbv zeta.
  destruct (members (resolver w) !! _) as [index|]; [|left; now eexists].
  destruct (unpack_I _ _) as [e|bevy_index] eqn:Eu; [left; now exists e|].
  destruct (members (resolver w) !! _) as [data|] eqn:Ed;
    [|left; now eexists].
  right. exists bevy_id, data, bevy_index.
  assert (Hsize : Z.of_nat (length bevy_index)
                  = seg_Size (mkSegment index 0) / 4).
  { apply unpack_I_length in Eu; [exact Eu|].
    apply Z.div_pos; [unfold seg_Size, len; lia | lia]. }
  split; [exact Ed|]. split; [now apply passed_opened|].
  rewrite Hsize. unfold bind. reflexivity.
Qed.

End Extent.

(** C8. For the last entry of the index of a bevy the bytes consumed
    are those from the offset of the chunk to the end of the data
    segment, the size of the segment minus the offset in number: so it
    is for every handle [_ReadPartial] passes to [_ReadChunkFromBevy]
    when the offsets of the index do not decrease and lie within the
    segment, and for any other handle that is not past the offset of
    the chunk. For an earlier entry the compressed length is the next
    entry minus this one, and so many bytes are consumed from the
    offset on when the two entries delimit a part of the segment. *)
Theorem compressed_chunk_extent (zlib snappy : Codec) (s : AFF4Image)
    (bevy_id : Z) (data : bytes) (bevy_index : list Z) (chunk_id : Z)
    (bevy : Segment) (offset : Z) :
  let index_size := Z.of_nat (length bevy_index) in
  let chunk_id_in_bevy := chunk_id mod chunks_per_segment s in
  0 < chunks_per_segment s ->
  nth_error bevy_index (Z.to_nat chunk_id_in_bevy) = Some offset ->
  (chunk_id_in_bevy = index_size - 1 ->
   index_within data bevy_index /\
   passed zlib snappy s bevy_id data bevy_index index_size chunk_id bevy \/
   0 <= offset <= seg_Size bevy /\ seg_Tell bevy <= offset ->
   exists cbuffer bevy',
     read_cbuffer s chunk_id bevy bevy_index index_size
     = inr (cbuffer, bevy') /\
     len cbuffer = seg_Size bevy - offset /\
     cbuffer = skipn (Z.to_nat offset) (seg_data bevy)) /\
  (chunk_id_in_bevy < index_size - 1 ->
   exists next,
     nth_error bevy_index (Z.to_nat (chunk_id_in_bevy + 1)) = Some next /\
     compressed_chunk_size chunk_id_in_bevy bevy bevy_index index_size
     = inr (next - offset) /\
     (0 <= offset <= next /\ next <= seg_Size bevy ->
      exists cbuffer bevy',
        read_cbuffer s chunk_id bevy bevy_index index_size
        = inr (cbuffer, bevy') /\
        len cbuffer = next - offset /\
        cbuffer = firstn (Z.to_nat (next - offset))
                    (skipn (Z.to_nat offset) (seg_data bevy)))).
Proof.
  cbv zeta. intros Hcps Hoff.
  pose proof (Z.mod_pos_bound chunk_id (chunks_per_segment s) Hcps) as Hi.
  set (index_size := Z.of_nat (length bevy_index)) in *.
  set (i := chunk_id mod chunks_per_segment s) in *.
  assert (Hlt : i < index_size).
  { assert (Z.to_nat i < length bevy_index)%nat
      by (apply nth_error_Some; congruence).
    unfold index_size. lia. }
  assert (Hthis : py_index bevy_index i = inr offset)
    by (apply py_index_in_range; [lia | exact Hoff]).
  assert (Hhead : forall n,
            compressed_chunk_size i bevy bevy_index index_size = inr n ->
            read_cbuffer s chunk_id bevy bevy_index index_size
            = inr (seg_Read (seg_Seek bevy offset) n)).
  { intros n Hn. unfold read_cbuffer, py_mod.
    destruct (Z.eqb_spec (chunks_per_segment s) 0); [lia|].
    fold i. cbn -[compressed_chunk_size py_index].
    destruct (Z.eqb_spec index_size 0); [lia|].
    destruct (Z.geb_spec i index_size); [lia|].
    now rewrite Hn, Hthis. }
  split.
  - intros Hlast Hhandle.
    assert (Hpos : 0 <= offset <= seg_Size bevy /\ seg_Tell bevy <= offset).
    { destruct Hhandle as [[Hidx Hp]|H]; [|exact H].
      apply passed_not_past in Hp as (_ & Hdata & Htell); auto.
      pose proof (index_within_entry data bevy_index _ offset Hidx Hoff).
      unfold seg_Size. rewrite Hdata. auto. }
    destruct Hpos as [Hin Htell].
    assert (Hn : compressed_chunk_size i bevy bevy_index index_size
                 = inr (seg_Size bevy - seg_Tell bevy)).
    { unfold compressed_chunk_size.
      destruct (Z.eqb_spec i (index_size - 1)); [reflexivity | contradiction]. }
    rewrite (Hhead _ Hn).
    eexists _, _. split; [reflexivity|]. unfold seg_Size, seg_Tell in *.
    split.
    + unfold len. rewrite length_firstn, length_skipn.
      cbn [seg_Seek seg_readptr seg_data]. unfold len in *. lia.
    + cbn [seg_Seek seg_readptr seg_data].
      apply firstn_all2. rewrite length_skipn. unfold len in *. lia.
  - intros Hearlier.
    destruct (nth_error bevy_index (Z.to_nat (i + 1))) as [next|] eqn:En.
    2: { apply nth_error_None in En. unfold index_size in *. lia. }
    exists next. split; [reflexivity|].
    assert (Hn : compressed_chunk_size i bevy bevy_index index_size
                 = inr (next - offset)).
    { unfold compressed_chunk_size.
      destruct (Z.eqb_spec i (index_size - 1)); [lia|].
      rewrite (py_index_in_range bevy_index (i + 1) next) by (lia || exact En).
      now rewrite Hthis. }
    split; [exact Hn|]. intros [Hin Hnext].
    rewrite (Hhead _ Hn).
    eexists _, _. split; [reflexivity|]. unfold seg_Size in *. split.
    + unfold len. rewrite length_firstn, length_skipn.
      cbn [seg_Seek seg_readptr seg_data]. unfold len in *. lia.
    + reflexivity.
Qed.

Lemma compressed_chunk_extent_witness :
  let s := new_image "aff4://image" 4 2 AFF4_IMAGE_COMPRESSION_STORED in
  let data := bs "ABCDEFGH" in
  (exists bevy',
     read_cbuffer s 1 (mkSegment data 4) [0; 4] 2 = inr (bs "EFGH", bevy')) /\
  (exists bevy',
     read_cbuffer s 0 (mkSegment data 0) [0; 4] 2 = inr (bs "ABCD", bevy')) /\
  compressed_chunk_size 0 (mkSegment data 0) [0; 4] 2 = inr 4.
Proof.
  cbv zeta.
  set (s := new_image "aff4://image" 4 2 AFF4_IMAGE_COMPRESSION_STORED).
  set (data := bs "ABCDEFGH").
  assert (Hcps : 0 < chunks_per_segment s) by reflexivity.
  assert (Hidx : index_within data [0; 4]).
  { split.
    - repeat constructor. lia.
    - repeat constructor; vm_compute; discriminate. }
  assert (Hopened : passed identity_codec identity_codec s 0 data [0; 4] 2 0
                      (mkSegment data 0))
    by (apply passed_opened; reflexivity).
  assert (Hmoved : passed identity_codec identity_codec s 0 data [0; 4] 2 1
                     (mkSegment data 4)).
  { apply (passed_moved identity_codec identity_codec s 0 data [0; 4] 2
             0 (mkSegment data 0) (bs "ABCD", mkSegment data 4) 0 Hopened);
      reflexivity. }
  pose proof (compressed_chunk_extent identity_codec identity_codec s 0 data
                [0; 4] 1 (mkSegment data 4) 4 Hcps eq_refl) as [Hlast _].
  pose proof (compressed_chunk_extent identity_codec identity_codec s 0 data
                [0; 4] 0 (mkSegment data 0) 0 Hcps eq_refl) as [_ Hearlier].
  destruct (Hlast eq_refl (or_introl (conj Hidx Hmoved)))
    as (cbuffer & bevy' & Hread & _ & Hbytes).
  destruct (Hearlier eq_refl) as (next & Hnext & Hsize & Hconsumed).
  injection Hnext as <-.
  destruct Hconsumed as (cbuffer0 & bevy0 & Hread0 & _ & Hbytes0);
    [vm_compute; repeat split; discriminate|].
  split; [|split].
  - exists bevy'. etransitivity; [exact Hread|]. now rewrite Hbytes.
  - exists bevy0. etransitivity; [exact Hread0|]. now rewrite Hbytes0.
  - exact Hsize.
Defined.

(** * The read path on a well-formed store *)

Section StoredChunks.

Lemma offsets_from_nth (chunks : list bytes) : forall start i,
  (i < length chunks)%nat ->
  nth_error (offsets_from start chunks) i
  = Some (start + len (concat (firstn i chunks))).
Proof.
  induction chunks as [|c chunks IH]; intros start i Hi; [cbn in Hi; lia|].
  destruct i as [|i]; cbn [offsets_from nth_error firstn concat].
  - f_equal. unfold len. cbn. lia.
  - rewrite IH by (cbn in Hi; lia). f_equal. rewrite len_app. lia.
Qed.

Lemma skipn_concat (chunks : list bytes) : forall i,
  skipn (length (concat (firstn i chunks))) (concat chunks)
  = concat (skipn i chunks).
Proof.
  induction chunks as [|c chunks IH]; intros i.
  - destruct i; reflexivity.
  - destruct i as [|i]; [reflexivity|].
    cbn [firstn concat skipn]. rewrite length_app, skipn_app.
    rewrite skipn_all2 by lia. cbn [app].
    replace (length c + length (concat (firstn i chunks)) - length c)%nat
      with (length (concat (firstn i chunks))) by lia.
    apply IH.
Qed.

Lemma skipn_nth_error {A} (l : list A) : forall i x,
  nth_error l i = Some x -> skipn i l = x :: skipn (S i) l.
Proof.
  induction l as [|y l IH]; intros [|i] x; cbn; try discriminate.
  - now intros [= ->].
  - intros H. rewrite (IH i x H). reflexivity.
Qed.

Lemma concat_firstn_S (chunks : list bytes) : forall i c,
  nth_error chunks i = Some c ->
  concat (firstn (S i) chunks) = concat (firstn i chunks) ++ c.
Proof.
  induction chunks as [|y chunks IH]; intros [|i] c; cbn [nth_error];
    try discriminate.
  - intros [= ->]. cbn. now rewrite app_nil_r.
  - intros H. cbn [firstn concat]. rewrite (IH i c H).
    change (firstn (S i) chunks) with (firstn (S i) chunks).
    now rewrite app_assoc.
Qed.

(** The bytes of chunk [i] of a bevy, read through a handle that is not
    past the start of the chunk. *)
Lemma read_cbuffer_stored (s : AFF4Image) (chunk_id : Z)
    (cb : list bytes) (p : Z) (i : nat) (c : bytes) :
  chunks_per_segment s <> 0 ->
  chunk_id mod chunks_per_segment s = Z.of_nat i ->
  nth_error cb i = Some c ->
  p <= len (concat (firstn i cb)) ->
  read_cbuffer s chunk_id (mkSegment (concat cb) p) (offsets_from 0 cb)
    (Z.of_nat (length cb))
  = inr (c, mkSegment (concat cb) (len (concat (firstn (S i) cb)))).
Proof.
  intros Hcps Hi Hc Hp.
  assert (Hlt : (i < length cb)%nat) by (apply nth_error_Some; congruence).
  set (off := len (concat (firstn i cb))) in *.
  assert (Hoff : py_index (offsets_from 0 cb) (Z.of_nat i) = inr off).
  { apply py_index_in_range; [lia|]. rewrite Nat2Z.id.
    now rewrite offsets_from_nth by assumption. }
  assert (Hskip : skipn (Z.to_nat off) (concat cb)
                  = c ++ concat (skipn (S i) cb)).
  { unfold off, len. rewrite Nat2Z.id, skipn_concat.
    now rewrite (skipn_nth_error cb i c Hc). }
  assert (Hend : len (concat (firstn (S i) cb)) = off + len c)
    by (rewrite (concat_firstn_S cb i c Hc), len_app; reflexivity).
  unfold read_cbuffer, py_mod.
  destruct (Z.eqb_spec (chunks_per_segment s) 0); [contradiction|].
  rewrite Hi.
  destruct (Z.eqb_spec (Z.of_nat (length cb)) 0); [lia|].
  destruct (Z.geb_spec (Z.of_nat i) (Z.of_nat (length cb))); [lia|].
  rewrite Hoff. unfold compressed_chunk_size.
  destruct (Z.eqb_spec (Z.of_nat i) (Z.of_nat (length cb) - 1)) as [Hlast|Hmid].
  - (* the last chunk: the rest of the segment is asked for *)
    assert (Hrest : skipn (S i) cb = []) by (apply skipn_all2; lia).
    rewrite Hrest in Hskip. cbn [concat] in Hskip. rewrite app_nil_r in Hskip.
    unfold seg_Read, seg_Seek, seg_Size, seg_Tell. cbn [seg_data seg_readptr].
    rewrite Hskip.
    assert (Hsize : len (concat cb) = off + len c).
    { rewrite <- Hend. f_equal. f_equal. symmetry. apply firstn_all2. lia. }
    rewrite firstn_all2 by (unfold len in *; lia).
    now rewrite Hend.
  - (* an earlier chunk: the distance to the next offset is asked for *)
    assert (Hnext : py_index (offsets_from 0 cb) (Z.of_nat i + 1)
                    = inr (off + len c)).
    { apply py_index_in_range; [lia|].
      replace (Z.to_nat (Z.of_nat i + 1)) with (S i) by lia.
      rewrite offsets_from_nth by lia. now rewrite Hend. }
    rewrite Hnext, Hoff.
    unfold seg_Read, seg_Seek. cbn [seg_data seg_readptr].
    rewrite Hskip.
    replace (off + len c - off) with (len c) by lia.
    replace (Z.to_nat (len c)) with (length c) by (unfold len; lia).
    rewrite firstn_app, Nat.sub_diag, firstn_all.
    cbn [firstn]. rewrite app_nil_r. now rewrite Hend.
Qed.

End StoredChunks.

Section StoredStream.
Variables zlib snappy : Codec.

Lemma decompress_compressed (s : AFF4Image) (x : bytes) :
  round_trips zlib snappy (compression s) ->
  decompress_cbuffer zlib snappy s
    (compress_chunk zlib snappy (compression s) x) = inr x.
Proof.
  unfold decompress_cbuffer, compress_chunk, round_trips.
  destruct (compression s); intros H; rewrite ?H; reflexivity.
Qed.

Lemma _ReadChunkFromBevy_stored (s : AFF4Image) (chunk_id : Z)
    (bevy_chunks : list bytes) (p : Z) (i : nat) (d : bytes) :
  let cb := map (compress_chunk zlib snappy (compression s)) bevy_chunks in
  round_trips zlib snappy (compression s) ->
  chunks_per_segment s <> 0 ->
  chunk_id mod chunks_per_segment s = Z.of_nat i ->
  nth_error bevy_chunks i = Some d ->
  p <= len (concat (firstn i cb)) ->
  _ReadChunkFromBevy zlib snappy s chunk_id (mkSegment (concat cb) p)
    (offsets_from 0 cb) (Z.of_nat (length cb))
  = inr (d, mkSegment (concat cb) (len (concat (firstn (S i) cb)))).
Proof.
  intros cb Hrt Hcps Hi Hd Hp. unfold _ReadChunkFromBevy.
  rewrite (read_cbuffer_stored s chunk_id cb p i
             (compress_chunk zlib snappy (compression s) d)); try assumption.
  - cbn [fst snd]. now rewrite decompress_compressed.
  - subst cb. now rewrite nth_error_map, Hd.
Qed.

Lemma div_mod_next (j cps b : Z) (i : nat) :
  0 < cps -> j / cps = b -> j mod cps = Z.of_nat i ->
  (Z.of_nat i + 1 < cps ->
   (j + 1) / cps = b /\ (j + 1) mod cps = Z.of_nat (S i)) /\
  (Z.of_nat i + 1 = cps -> (j + 1) / cps = b + 1).
Proof.
  intros Hcps Hb Hi. pose proof (Z.div_mod j cps ltac:(lia)) as E.
  rewrite Hb, Hi in E. split.
  - intros Hlt. split.
    + symmetry. apply (Z.div_unique_pos _ _ _ (Z.of_nat i + 1)); lia.
    + symmetry. apply (Z.mod_unique_pos _ _ b); lia.
  - intros Heq. symmetry. apply (Z.div_unique_pos _ _ _ 0); lia.
Qed.

(** The loop over one bevy reads the chunks from position [i] on, up
    to the count asked for or to the end of the bevy. *)
Lemma bevy_loop_stored fuel : forall (i : nat) st bevy_chunks p w,
  let cps := chunks_per_segment (self w) in
  let cb :=
    map (compress_chunk zlib snappy (compression (self w))) bevy_chunks in
  let m := Z.to_nat (Z.min (p_chunks_to_read st) (cps - Z.of_nat i)) in
  round_trips zlib snappy (compression (self w)) ->
  0 < cps ->
  p_chunk_id st mod cps = Z.of_nat i ->
  0 <= p_chunks_to_read st <= Z.of_nat fuel ->
  (i + m <= length bevy_chunks)%nat ->
  p <= len (concat (firstn i cb)) ->
  bevy_loop zlib snappy fuel (p_chunk_id st / cps) (mkSegment (concat cb) p)
    (offsets_from 0 cb) (Z.of_nat (length cb)) st w
  = Ok (mkPartial (p_chunk_id st + Z.of_nat m)
          (p_chunks_to_read st - Z.of_nat m)
          (p_chunks_read st + Z.of_nat m)
          (p_result st ++ concat (firstn m (skipn i bevy_chunks)))) w.
Proof.
  induction fuel as [|fuel IH];
    intros i st bevy_chunks p w cps cb m Hrt Hcps Hi Hn Hm Hp; subst cb;
    rewrite bevy_loop_unfold;
    destruct (Z.gtb_spec (p_chunks_to_read st) 0) as [Hpos|Hzero];
    try lia.
  1, 3: (assert (Hm0 : m = 0%nat) by (subst m; lia); rewrite Hm0;
         cbn [firstn concat Z.of_nat]; rewrite app_nil_r, !Z.add_0_r,
           Z.sub_0_r; now destruct st).
  assert (Hi' : Z.of_nat i < cps).
  { pose proof (Z.mod_pos_bound (p_chunk_id st) cps Hcps). lia. }
  assert (Hm1 : (1 <= m)%nat) by (subst m; lia).
  destruct (nth_error bevy_chunks i) as [d|] eqn:Hd.
  2: { apply nth_error_None in Hd. lia. }
  fold cps.
  rewrite (_ReadChunkFromBevy_stored (self w) (p_chunk_id st) bevy_chunks p i d)
    by (assumption || lia).
  cbv zeta. cbn [fst snd p_chunk_id].
  unfold py_div. destruct (Z.eqb_spec cps 0); [lia|].
  destruct (div_mod_next (p_chunk_id st) cps (p_chunk_id st / cps) i Hcps
              eq_refl Hi) as [Hin Hout].
  assert (Hsk : skipn i bevy_chunks = d :: skipn (S i) bevy_chunks)
    by (now apply skipn_nth_error).
  destruct (Z.eq_dec (Z.of_nat i + 1) cps) as [Hedge|Hinside].
  - (* the chunk was the last of a full bevy *)
    rewrite (Hout Hedge).
    destruct (Z.ltb_spec (p_chunk_id st / cps) (p_chunk_id st / cps + 1));
      [|lia].
    assert (Hmv : m = 1%nat) by (subst m; lia). rewrite Hmv, Hsk.
    cbn [firstn concat Z.of_nat]. now rewrite app_nil_r.
  - destruct (Hin ltac:(lia)) as [Hq Hr]. rewrite Hq.
    destruct (Z.ltb_spec (p_chunk_id st / cps) (p_chunk_id st / cps)); [lia|].
    set (st1 := mkPartial _ _ _ _).
    set (m' := Z.to_nat (Z.min (p_chunks_to_read st - 1)
                           (cps - Z.of_nat (S i)))).
    assert (Hmm : m = S m') by (subst m m'; lia).
    assert (H1 : p_chunk_id st1 mod cps = Z.of_nat (S i)) by exact Hr.
    assert (H2 : 0 <= p_chunks_to_read st1 <= Z.of_nat fuel)
      by (subst st1; cbn; lia).
    assert (H3 : (S i + m' <= length bevy_chunks)%nat) by lia.
    pose proof (IH (S i) st1 bevy_chunks _ w Hrt Hcps H1 H2 H3
                  (Z.le_refl _)) as E.
    cbv zeta in E.
    replace (p_chunk_id st1 / chunks_per_segment (self w))
      with (p_chunk_id st / cps) in E by (symmetry; exact Hq).
    rewrite E. subst st1.
    cbn [p_chunk_id p_chunks_to_read p_chunks_read p_result].
    fold cps. fold m'. rewrite Hmm, Hsk. cbn [firstn concat].
    rewrite <- app_assoc. f_equal. f_equal; lia.
Qed.

End StoredStream.

Section StoredStream2.
Variables zlib snappy : Codec.

Lemma firstn_skipn_chunks_of_bevy (cps : nat) (chunks : list bytes)
    (b i m : nat) :
  (i + m <= cps)%nat ->
  firstn m (skipn i (chunks_of_bevy cps chunks b))
  = firstn m (skipn (b * cps + i) chunks).
Proof.
  intros H. unfold chunks_of_bevy.
  rewrite skipn_firstn_comm, firstn_firstn, skipn_skipn.
  f_equal; [lia|]. f_equal. lia.
Qed.

Lemma length_chunks_of_bevy (cps : nat) (chunks : list bytes) (b : nat) :
  length (chunks_of_bevy cps chunks b)
  = Nat.min cps (length chunks - b * cps).
Proof. unfold chunks_of_bevy. now rewrite length_firstn, length_skipn. Qed.

Lemma concat_firstn_split (chunks : list bytes) (j m n : nat) :
  (m <= n)%nat ->
  concat (firstn m (skipn j chunks))
    ++ concat (firstn (n - m) (skipn (j + m) chunks))
  = concat (firstn n (skipn j chunks)).
Proof.
  intros H. rewrite <- concat_app. f_equal.
  replace (skipn (j + m) chunks) with (skipn m (skipn j chunks))
    by (rewrite skipn_skipn; f_equal; lia).
  rewrite <- (firstn_skipn m (firstn n (skipn j chunks))).
  rewrite firstn_firstn, skipn_firstn_comm.
  f_equal. f_equal. lia.
Qed.

Lemma seg_Read_whole (data : bytes) :
  fst (seg_Read (mkSegment data 0) (seg_Size (mkSegment data 0))) = data.
Proof.
  unfold seg_Read, seg_Size, len. cbn.
  rewrite Nat2Z.id. apply firstn_all.
Qed.

(** The loop over the bevies reads the chunks asked for, in order,
    when the store holds them. *)
Lemma bevies_loop_stored fuel : forall st chunks w,
  holds_chunks zlib snappy w chunks ->
  round_trips zlib snappy (compression (self w)) ->
  0 < chunks_per_segment (self w) ->
  0 <= p_chunk_id st ->
  0 <= p_chunks_to_read st <= Z.of_nat fuel ->
  p_chunk_id st + p_chunks_to_read st <= Z.of_nat (length chunks) ->
  bevies_loop zlib snappy fuel st w
  = Ok (mkPartial (p_chunk_id st + p_chunks_to_read st) 0
          (p_chunks_read st + p_chunks_to_read st)
          (p_result st
             ++ concat (firstn (Z.to_nat (p_chunks_to_read st))
                          (skipn (Z.to_nat (p_chunk_id st)) chunks)))) w.
Proof.
  induction fuel as [|fuel IH]; intros st chunks w Hheld Hrt Hcps Hj Hn HN;
    rewrite bevies_loop_unfold;
    destruct (Z.gtb_spec (p_chunks_to_read st) 0) as [Hpos|Hzero];
    try lia.
  1, 3: (replace (p_chunks_to_read st) with 0 by lia;
         cbn [Z.to_nat firstn concat]; rewrite app_nil_r, !Z.add_0_r;
         destruct st; cbn in *; f_equal; f_equal; lia).
  set (cps := chunks_per_segment (self w)) in *.
  set (j := p_chunk_id st) in *. set (n := p_chunks_to_read st) in *.
  unfold py_div. destruct (Z.eqb_spec cps 0); [lia|].
  pose proof (Z.div_mod j cps ltac:(lia)) as Ediv.
  pose proof (Z.mod_pos_bound j cps Hcps) as Hmod.
  assert (Hb : 0 <= j / cps) by (apply Z.div_pos; lia).
  set (b := Z.to_nat (j / cps)). set (i := Z.to_nat (j mod cps)).
  set (C := Z.to_nat cps).
  assert (EJ : Z.to_nat j = (b * C + i)%nat).
  { apply Nat2Z.inj. rewrite Nat2Z.inj_add, Nat2Z.inj_mul.
    subst b i C. rewrite !Z2Nat.id by lia. lia. }
  assert (Hbevy : (b * C < length chunks)%nat).
  { apply Nat2Z.inj_lt. rewrite Nat2Z.inj_mul. subst b C.
    rewrite !Z2Nat.id by lia. nia. }
  destruct (Hheld b Hbevy) as (Hdata & Hindex & Hrange).
  change (Z.to_nat (chunks_per_segment (self w))) with C
    in Hdata, Hindex, Hrange.
  set (bevy_chunks := chunks_of_bevy C chunks b) in *.
  set (cb := map _ bevy_chunks) in *.
  replace (Z.of_nat b) with (j / cps) in Hdata, Hindex
    by (subst b; now rewrite Z2Nat.id).
  cbv zeta.
  change (Append (Append (urn (self w)) (format_08d (j / cps))) "index")
    with (bevy_index_urn_of (urn (self w)) (j / cps)).
  change (Append (urn (self w)) (format_08d (j / cps)))
    with (bevy_urn_of (urn (self w)) (j / cps)).
  unfold segment_of in Hindex, Hdata.
  rewrite Hindex, Hdata, seg_Read_whole.
  assert (Hsize : seg_Size (mkSegment (flat_map le_bytes (offsets_from 0 cb)) 0)
                  / 4 = Z.of_nat (length cb)).
  { unfold seg_Size. cbn [seg_data].
    rewrite length_flat_map_le_bytes, offsets_from_length.
    rewrite Z.mul_comm. apply Z.div_mul. lia. }
  rewrite Hsize.
  rewrite <- (offsets_from_length 0 cb) at 1.
  rewrite (unpack_I_le_bytes _ Hrange).
  set (m := Z.to_nat (Z.min n (cps - Z.of_nat i))).
  assert (Hm1 : (1 <= m)%nat) by (subst m i; lia).
  assert (Hmn : Z.of_nat m <= n) by (subst m; lia).
  assert (Hmc : (i + m <= C)%nat) by (subst m i C; lia).
  assert (Hlen : (i + m <= length bevy_chunks)%nat).
  { subst bevy_chunks. rewrite length_chunks_of_bevy.
    apply Nat.min_glb; [exact Hmc|].
    assert (Z.to_nat j + Z.to_nat n <= length chunks)%nat by lia.
    assert (m <= Z.to_nat n)%nat by lia.
    clearbody m b i C. lia. }
  pose proof (bevy_loop_stored zlib snappy (Z.to_nat n) i st bevy_chunks 0 w
                Hrt Hcps) as E.
  cbv zeta in E. fold cb cps in E. fold j n in E. fold m in E.
  rewrite E; [|subst i; lia|lia|exact Hlen|apply len_nonneg].
  set (st1 := mkPartial _ _ _ _).
  rewrite (IH st1 chunks w Hheld Hrt Hcps); subst st1;
    cbn [p_chunk_id p_chunks_to_read p_chunks_read p_result]; try lia.
  f_equal. f_equal; try lia.
  rewrite <- app_assoc. f_equal.
  subst bevy_chunks. rewrite firstn_skipn_chunks_of_bevy by exact Hmc.
  rewrite <- EJ.
  replace (Z.to_nat (n - Z.of_nat m)) with (Z.to_nat n - m)%nat by lia.
  replace (Z.to_nat (j + Z.of_nat m)) with (Z.to_nat j + m)%nat by lia.
  apply concat_firstn_split. lia.
Qed.

End StoredStream2.

Section StoredStream3.
Variables zlib snappy : Codec.

Lemma _ReadPartial_stored (w : World) (chunks : list bytes)
    (chunk_id chunks_to_read : Z) :
  holds_chunks zlib snappy w chunks ->
  round_trips zlib snappy (compression (self w)) ->
  0 < chunks_per_segment (self w) ->
  0 <= chunk_id ->
  0 <= chunks_to_read ->
  chunk_id + chunks_to_read <= Z.of_nat (length chunks) ->
  _ReadPartial zlib snappy chunk_id chunks_to_read w
  = Ok (chunks_to_read,
        concat (firstn (Z.to_nat chunks_to_read)
                  (skipn (Z.to_nat chunk_id) chunks))) w.
Proof.
  intros Hheld Hrt Hcps Hj Hn HN. unfold _ReadPartial, bind, ret.
  rewrite (bevies_loop_stored zlib snappy (Z.to_nat chunks_to_read)
             (mkPartial chunk_id chunks_to_read 0 []) chunks w);
    try assumption; cbn [p_chunk_id p_chunks_to_read p_chunks_read p_result];
    try lia.
  reflexivity.
Qed.

Lemma uniform_length_firstn (cs : Z) (chunks : list bytes) : forall q,
  uniform_chunks cs chunks ->
  (q < length chunks)%nat ->
  len (concat (firstn q chunks)) = Z.of_nat q * cs.
Proof.
  induction q as [|q IH]; intros Hu Hq; [reflexivity|].
  destruct (nth_error chunks q) as [c|] eqn:Hc.
  2: { apply nth_error_None in Hc. lia. }
  rewrite (concat_firstn_S chunks q c Hc), len_app, IH by (assumption || lia).
  rewrite (Hu q c Hc Hq). lia.
Qed.

Lemma uniform_length_window (cs : Z) (chunks : list bytes) (q k : nat) :
  uniform_chunks cs chunks ->
  (q + k < length chunks)%nat ->
  len (concat (firstn k (skipn q chunks))) = Z.of_nat k * cs.
Proof.
  intros Hu Hqk.
  assert (Hsum : len (concat (firstn (q + k) chunks))
                 = len (concat (firstn q chunks))
                   + len (concat (firstn k (skipn q chunks)))).
  { rewrite <- len_app, <- concat_app. f_equal. f_equal.
    rewrite <- (firstn_skipn q (firstn (q + k) chunks)).
    rewrite firstn_firstn, skipn_firstn_comm.
    f_equal; f_equal; lia. }
  rewrite !(uniform_length_firstn cs) in Hsum by (assumption || lia).
  lia.
Qed.

Lemma concat_firstn_prefix (chunks : list bytes) (k : nat) :
  concat (firstn k chunks)
  = firstn (length (concat (firstn k chunks))) (concat chunks).
Proof.
  rewrite <- (firstn_skipn k chunks) at 3.
  rewrite concat_app, firstn_app, Nat.sub_diag, firstn_all.
  cbn [firstn]. now rewrite app_nil_r.
Qed.

Lemma slice_from_nonneg (x : bytes) (r : Z) :
  0 <= r -> slice_from x r = skipn (Z.to_nat r) x.
Proof.
  intros H. unfold slice_from, slice_bound.
  destruct (Z.ltb_spec r 0); [lia | reflexivity].
Qed.

Lemma slice_to_nonneg (x : bytes) (n : Z) :
  0 <= n -> slice_to x n = firstn (Z.to_nat n) x.
Proof.
  intros H. unfold slice_to, slice_bound.
  destruct (Z.ltb_spec n 0); [lia | reflexivity].
Qed.

(** What [Read] makes of the chunks it fetched. *)
Lemma window_of_fetched (cs : Z) (chunks : list bytes) (o L : Z) :
  let data := concat chunks in
  let q := Z.to_nat (o / cs) in
  let k := Z.to_nat (L / cs + 1) in
  let fetched := concat (firstn k (skipn q chunks)) in
  0 < cs -> uniform_chunks cs chunks ->
  0 <= o -> 0 <= L ->
  (q + k <= length chunks)%nat ->
  (q + k = length chunks)%nat \/ o mod cs + L <= Z.of_nat k * cs ->
  firstn (Z.to_nat L) (skipn (Z.to_nat (o mod cs)) fetched)
  = firstn (Z.to_nat L) (skipn (Z.to_nat o) data).
Proof.
  intros data q k fetched Hcs Hu Ho HL Hex Hcover.
  pose proof (Z.div_mod o cs ltac:(lia)) as Ediv.
  pose proof (Z.mod_pos_bound o cs Hcs) as Hmod.
  assert (Hq0 : 0 <= o / cs) by (apply Z.div_pos; lia).
  assert (HL0 : 0 <= L / cs) by (apply Z.div_pos; lia).
  assert (Hk1 : (1 <= k)%nat) by (subst k; lia).
  assert (Hqlen : len (concat (firstn q chunks)) = Z.of_nat q * cs)
    by (apply uniform_length_firstn; [assumption | lia]).
  assert (Hrest : concat (skipn q chunks)
                  = skipn (Z.to_nat (Z.of_nat q * cs)) data).
  { subst data. rewrite <- Hqlen. unfold len. rewrite Nat2Z.id.
    symmetry. apply skipn_concat. }
  assert (Hpos : Z.to_nat o
                 = (Z.to_nat (o mod cs) + Z.to_nat (Z.of_nat q * cs))%nat).
  { subst q. rewrite Z2Nat.id by lia. nia. }
  assert (Hfetched : fetched
                     = firstn (length fetched) (concat (skipn q chunks)))
    by (subst fetched; apply concat_firstn_prefix).
  rewrite Hpos, <- skipn_skipn, <- Hrest.
  destruct Hcover as [Hall|Hfit].
  - (* the last chunk is among those fetched *)
    subst fetched.
    replace (firstn k (skipn q chunks)) with (skipn q chunks);
      [reflexivity|].
    symmetry. apply firstn_all2. rewrite length_skipn. lia.
  - destruct (Nat.eq_dec (q + k)%nat (length chunks)) as [Hall|Hless].
    + subst fetched.
      replace (firstn k (skipn q chunks)) with (skipn q chunks);
        [reflexivity|].
      symmetry. apply firstn_all2. rewrite length_skipn. lia.
    + assert (Hflen : len fetched = Z.of_nat k * cs)
        by (subst fetched; apply uniform_length_window; [assumption | lia]).
      rewrite Hfetched at 1. rewrite skipn_firstn_comm, firstn_firstn.
      f_equal. unfold len in Hflen. lia.
Qed.

End StoredStream3.

(** X6. On a store that holds the chunks of a stream, with a codec
    that gives back what it compressed, [_ReadPartial] returns the
    chunks asked for, decompressed and in order, across bevies, when
    they all exist. *)
Theorem ReadPartial_reads_the_stored_chunks (zlib snappy : Codec)
    (w : World) (chunks : list bytes) (chunk_id chunks_to_read : Z) :
  holds_chunks zlib snappy w chunks ->
  round_trips zlib snappy (compression (self w)) ->
  0 < chunks_per_segment (self w) ->
  0 <= chunk_id ->
  0 <= chunks_to_read ->
  chunk_id + chunks_to_read <= Z.of_nat (length chunks) ->
  _ReadPartial zlib snappy chunk_id chunks_to_read w
  = Ok (chunks_to_read,
        concat (firstn (Z.to_nat chunks_to_read)
                  (skipn (Z.to_nat chunk_id) chunks))) w.
Proof. apply _ReadPartial_stored. Qed.

(** [Read] on a store that holds the chunks of the stream. *)
Lemma Read_stored (zlib snappy : Codec) (w : World)
    (chunks : list bytes) (length : Z) :
  let s := self w in
  let L := Z.min length (size s - readptr s) in
  let q := readptr s / chunk_size s in
  let k := L / chunk_size s + 1 in
  holds_chunks zlib snappy w chunks ->
  round_trips zlib snappy (compression s) ->
  0 < chunks_per_segment s ->
  0 < chunk_size s ->
  uniform_chunks (chunk_size s) chunks ->
  0 <= readptr s ->
  0 <= L ->
  q + k <= Z.of_nat (List.length chunks) ->
  (q + k = Z.of_nat (List.length chunks) \/
   readptr s mod chunk_size s + L <= k * chunk_size s) ->
  Read zlib snappy length w
  = Ok (firstn (Z.to_nat L) (skipn (Z.to_nat (readptr s)) (concat chunks))) w.
Proof.
  cbv zeta. intros Hheld Hrt Hcps Hcs Hu Ho HL Hex Hcover.
  set (s := self w) in *. set (cs := chunk_size s) in *.
  set (o := readptr s) in *. set (L := Z.min length (size s - o)) in *.
  pose proof (Z.mod_pos_bound o cs Hcs) as Hmod.
  assert (Hq0 : 0 <= o / cs) by (apply Z.div_pos; lia).
  assert (HL0 : 0 <= L / cs) by (apply Z.div_pos; lia).
  unfold Read, bind, get_self, lift, ret, py_mod, py_div, Size.
  fold s. fold cs. fold o. fold L.
  destruct (Z.eqb_spec cs 0); [lia|].
  destruct (Z.to_nat (L / cs + 1)) as [|fuel] eqn:Efuel; [lia|].
  cbn [Read_loop].
  destruct (Z.gtb_spec (L / cs + 1) 0); [|lia].
  unfold bind.
  rewrite (_ReadPartial_stored zlib snappy w chunks (o / cs) (L / cs + 1))
    by (assumption || lia).
  cbn [fst snd].
  destruct (Z.eqb_spec (L / cs + 1) 0); [lia|].
  replace (L / cs + 1 - (L / cs + 1)) with 0 by lia.
  assert (Hdone : forall result,
            Read_loop zlib snappy fuel (o / cs) 0 result w = Ok result w)
    by (intros result; destruct fuel; reflexivity).
  rewrite Hdone. cbn [app].
  pose proof (window_of_fetched cs chunks o L Hcs Hu Ho HL) as Hwin.
  cbv zeta in Hwin.
  f_equal. rewrite slice_to_nonneg by exact HL.
  destruct (Z.eqb_spec (o mod cs) 0) as [Hr|Hr].
  - rewrite <- Hwin; [now rewrite Hr| lia |].
    destruct Hcover as [Hall|Hfit]; [left; lia | right].
    rewrite Z2Nat.id by lia. exact Hfit.
  - rewrite slice_from_nonneg by lia.
    apply Hwin; [lia|].
    destruct Hcover as [Hall|Hfit]; [left; lia | right].
    rewrite Z2Nat.id by lia. exact Hfit.
Qed.

(** X7. On such a store, with chunks of [chunk_size] bytes up to the
    last, [Read] returns the bytes of the stream from the cursor on, as
    many as the clamped length, provided that the
    [length / chunk_size + 1] chunks it visits exist and that they
    reach the end of the window: either the last chunk is among them or
    the offset of the cursor in its chunk plus the length fits in
    them. *)
Theorem Read_returns_the_window (zlib snappy : Codec) (w : World)
    (chunks : list bytes) (length : Z) :
  let s := self w in
  let L := Z.min length (size s - readptr s) in
  let q := readptr s / chunk_size s in
  let k := L / chunk_size s + 1 in
  holds_chunks zlib snappy w chunks ->
  round_trips zlib snappy (compression s) ->
  0 < chunks_per_segment s ->
  0 < chunk_size s ->
  uniform_chunks (chunk_size s) chunks ->
  0 <= readptr s ->
  0 <= L ->
  q + k <= Z.of_nat (List.length chunks) ->
  (q + k = Z.of_nat (List.length chunks) \/
   readptr s mod chunk_size s + L <= k * chunk_size s) ->
  Read zlib snappy length w
  = Ok (firstn (Z.to_nat L) (skipn (Z.to_nat (readptr s)) (concat chunks))) w.
Proof. apply Read_stored. Qed.


(** Evaluation of [holds_bevy] on a concrete store. *)
Ltac holds_bevy_by_evaluation :=
  unfold holds_bevy, segment_of;
  split; [vm_compute; reflexivity|];
  split; [vm_compute; reflexivity|];
  match goal with
  | |- Forall _ ?l =>
      let l' := eval vm_compute in l in
      replace l with l' by (vm_compute; reflexivity)
  end;
  repeat (constructor; [lia|]); constructor.

(** The store after ["ABCDEFGHIJ"] was written and flushed, and the
    cursor set to 5, holds the chunks ["ABCD"], ["EFGH"] and ["IJ"]. *)
Lemma example_store_holds_chunks :
  let w0 := new_world 4 2 AFF4_IMAGE_COMPRESSION_STORED in
  let w := state_after
             ((Write identity_codec identity_codec (bs "ABCDEFGHIJ");;;
               Flush identity_codec identity_codec;;; Seek 5) w0) w0 in
  holds_chunks identity_codec identity_codec w
    [bs "ABCD"; bs "EFGH"; bs "IJ"].
Proof.
  cbv zeta. set (w := state_after _ _). intros b Hb.
  assert (Hcps : Z.to_nat (chunks_per_segment (self w)) = 2%nat)
    by (vm_compute; reflexivity).
  rewrite Hcps in *. clear Hcps.
  destruct b as [|[|b]].
  - holds_bevy_by_evaluation.
  - holds_bevy_by_evaluation.
  - exfalso. cbn [length] in Hb. lia.
Qed.

Lemma ReadPartial_reads_the_stored_chunks_witness :
  let w0 := new_world 4 2 AFF4_IMAGE_COMPRESSION_STORED in
  let w := state_after
             ((Write identity_codec identity_codec (bs "ABCDEFGHIJ");;;
               Flush identity_codec identity_codec;;; Seek 5) w0) w0 in
  _ReadPartial identity_codec identity_codec 1 2 w
  = Ok (2, concat [bs "EFGH"; bs "IJ"]) w.
Proof.
  cbv zeta.
  exact (ReadPartial_reads_the_stored_chunks identity_codec identity_codec
           _ [bs "ABCD"; bs "EFGH"; bs "IJ"] 1 2
           example_store_holds_chunks I
           ltac:(vm_compute; reflexivity) ltac:(lia) ltac:(lia)
           ltac:(cbn; lia)).
Defined.

Lemma Read_returns_the_window_witness :
  let w0 := new_world 4 2 AFF4_IMAGE_COMPRESSION_STORED in
  let w := state_after
             ((Write identity_codec identity_codec (bs "ABCDEFGHIJ");;;
               Flush identity_codec identity_codec;;; Seek 5) w0) w0 in
  returned (Read identity_codec identity_codec 3 w) = Some (inr (bs "FGH")).
Proof.
  cbv zeta.
  set (w := state_after _ _).
  assert (Hcs : chunk_size (self w) = 4) by (vm_compute; reflexivity).
  assert (Hu : uniform_chunks (chunk_size (self w))
                 [bs "ABCD"; bs "EFGH"; bs "IJ"]).
  { rewrite Hcs. intros i c Hc Hi. destruct i as [|[|i]]; cbn in Hc, Hi.
    - injection Hc as <-. reflexivity.
    - injection Hc as <-. reflexivity.
    - lia. }
  rewrite (Read_returns_the_window identity_codec identity_codec w
             [bs "ABCD"; bs "EFGH"; bs "IJ"] 3 example_store_holds_chunks I
             ltac:(vm_compute; reflexivity) ltac:(vm_compute; reflexivity)
             Hu ltac:(vm_compute; discriminate)
             ltac:(vm_compute; discriminate)
             ltac:(vm_compute; discriminate)
             ltac:(right; vm_compute; discriminate)).
  vm_compute. reflexivity.
Defined.

(** * Names of segments *)

Section Names.

Lemma string_app_inj_r (u a b : string) : u +:+ a = u +:+ b -> a = b.
Proof.
  induction u as [|c u IH]; [auto|]. intros H.
  change (String c (u +:+ a) = String c (u +:+ b)) in H.
  injection H. auto.
Qed.

Lemma string_app_assoc (a b c : string) : (a +:+ b) +:+ c = a +:+ (b +:+ c).
Proof.
  induction a as [|x a IH]; [reflexivity|].
  change (String x ((a +:+ b) +:+ c) = String x (a +:+ (b +:+ c))).
  now rewrite IH.
Qed.

Lemma zero_pad_zeros (width : nat) (s : string) :
  zero_pad width s = zeros_before (width - String.length s) s.
Proof.
  unfold zero_pad. generalize (width - String.length s)%nat as k.
  induction k as [|k IH]; [reflexivity|].
  cbn [repeat zeros_before]. rewrite <- IH.
  destruct k as [|k]; reflexivity.
Qed.

Lemma zeros_before_inj (k1 : nat) : forall k2 s1 s2,
  canonical_numeral s1 -> canonical_numeral s2 ->
  zeros_before k1 s1 = zeros_before k2 s2 -> s1 = s2.
Proof.
  assert (Hlead : forall k s s', canonical_numeral s ->
            canonical_numeral s' -> s = zeros_before (S k) s' -> False).
  { intros k s s' [->|(c & t & -> & Hc)] Hs'; cbn; intros [= E]; try congruence.
    destruct k; cbn in E; [|discriminate].
    destruct Hs' as [->|(c & t & -> & _)]; discriminate. }
  induction k1 as [|k1 IH]; intros [|k2] s1 s2 H1 H2; cbn [zeros_before].
  - auto.
  - intros E. exfalso. eapply (Hlead k2 s1 s2); eauto.
  - intros E. exfalso. eapply (Hlead k1 s2 s1); eauto.
  - intros [= E]. eauto.
Qed.

Lemma pretty_N_go_head (x : N) : forall s,
  (0 < x)%N ->
  exists c t, pretty_N_go x s = String c t /\ c <> "0"%char.
Proof.
  induction (N.lt_wf_0 x) as [x _ IH]; intros s Hx.
  rewrite pretty_N_go_step by assumption.
  destruct (N.eq_dec (x / 10)%N 0%N) as [Hz|Hnz].
  - rewrite Hz, pretty_N_go_0. eexists _, _. split; [reflexivity|].
    assert (x < 10)%N by (apply (N.div_small_iff x 10); [discriminate | exact Hz]).
    rewrite N.mod_small by assumption.
    assert (x = 1 \/ x = 2 \/ x = 3 \/ x = 4 \/ x = 5 \/ x = 6
            \/ x = 7 \/ x = 8 \/ x = 9)%N as Hcases by lia.
    destruct Hcases as [->|[->|[->|[->|[->|[->|[->|[->| ->]]]]]]]];
      discriminate.
  - apply IH; [apply N.div_lt; [exact Hx | reflexivity]|].
    now apply N.neq_0_lt_0.
Qed.

Lemma pretty_N_canonical (x : N) : canonical_numeral (pretty x).
Proof.
  unfold pretty, pretty_N. destruct (decide (x = 0)%N); [now left | right].
  apply pretty_N_go_head. lia.
Qed.

Lemma is_digit_pretty_N_char (x : N) : is_digit (pretty_N_char x) = true.
Proof. unfold pretty_N_char. repeat case_match; reflexivity. Qed.

Lemma digits_only_pretty_N_go (x : N) : forall s,
  digits_only s = true -> digits_only (pretty_N_go x s) = true.
Proof.
  induction (N.lt_wf_0 x) as [x _ IH]; intros s Hs.
  destruct (N.eq_dec x 0%N) as [->|Hx]; [now rewrite pretty_N_go_0|].
  rewrite pretty_N_go_step by lia.
  apply IH; [apply N.div_lt; lia|].
  cbn [digits_only]. now rewrite is_digit_pretty_N_char, Hs.
Qed.

Lemma digits_only_zeros_before (k : nat) (s : string) :
  digits_only s = true -> digits_only (zeros_before k s) = true.
Proof. induction k as [|k IH]; cbn; auto. Qed.

Lemma digits_only_format_08d (n : Z) :
  0 <= n -> digits_only (format_08d n) = true.
Proof.
  intros Hn. unfold format_08d. destruct (Z.ltb_spec n 0); [lia|].
  rewrite zero_pad_zeros. apply digits_only_zeros_before.
  unfold pretty, pretty_N. destruct (decide _); [reflexivity|].
  now apply digits_only_pretty_N_go.
Qed.

Lemma digits_only_app (a b : string) :
  digits_only (a +:+ b) = true -> digits_only b = true.
Proof.
  induction a as [|c a IH]; [auto|].
  change (digits_only (String c (a +:+ b)) = true -> digits_only b = true).
  cbn [digits_only]. intros H. apply andb_true_iff in H as [_ H]. auto.
Qed.

Lemma string_app_inj_l (t : string) : forall a b,
  a +:+ t = b +:+ t -> a = b.
Proof.
  induction a as [|c a IH]; intros [|c' b] E.
  - reflexivity.
  - apply (f_equal String.length) in E.
    rewrite !string_length_append in E. cbn [String.length] in E. lia.
  - apply (f_equal String.length) in E.
    rewrite !string_length_append in E. cbn [String.length] in E. lia.
  - change (String c (a +:+ t) = String c' (b +:+ t)) in E.
    injection E as -> E. f_equal. auto.
Qed.

Lemma format_08d_inj_nonneg (n m : Z) :
  0 <= n -> 0 <= m -> format_08d n = format_08d m -> n = m.
Proof.
  intros Hn Hm. unfold format_08d.
  destruct (Z.ltb_spec n 0); [lia|]. destruct (Z.ltb_spec m 0); [lia|].
  rewrite !zero_pad_zeros. intros E.
  apply zeros_before_inj in E; try apply pretty_N_canonical.
  apply (inj pretty) in E. lia.
Qed.

Lemma digits_only_negative (n : Z) :
  n < 0 ->
  exists t, format_08d n = String "-"%char t /\ digits_only t = true.
Proof.
  intros Hn. unfold format_08d. destruct (Z.ltb_spec n 0); [|lia].
  exists (zero_pad 7 (pretty (Z.abs_N n))). split; [reflexivity|].
  rewrite zero_pad_zeros. apply digits_only_zeros_before.
  unfold pretty, pretty_N. destruct (decide _); [reflexivity|].
  now apply digits_only_pretty_N_go.
Qed.

Lemma format_08d_inj (n m : Z) : format_08d n = format_08d m -> n = m.
Proof.
  destruct (Z.lt_ge_cases n 0) as [Hn|Hn], (Z.lt_ge_cases m 0) as [Hm|Hm].
  - unfold format_08d.
    destruct (Z.ltb_spec n 0); [|lia]. destruct (Z.ltb_spec m 0); [|lia].
    intros E. apply string_app_inj_r in E. rewrite !zero_pad_zeros in E.
    apply zeros_before_inj in E; try apply pretty_N_canonical.
    apply (inj pretty) in E. lia.
  - destruct (digits_only_negative n Hn) as (t & -> & _).
    intros E. pose proof (digits_only_format_08d m Hm) as Hd.
    rewrite <- E in Hd. discriminate.
  - destruct (digits_only_negative m Hm) as (t & -> & _).
    intros E. pose proof (digits_only_format_08d n Hn) as Hd.
    rewrite E in Hd. discriminate.
  - now apply format_08d_inj_nonneg.
Qed.

Lemma bevy_urn_of_inj (u : string) (n m : Z) :
  bevy_urn_of u n = bevy_urn_of u m -> n = m.
Proof.
  unfold bevy_urn_of, Append. intros E.
  apply string_app_inj_r, string_app_inj_r in E.
  now apply format_08d_inj.
Qed.

Lemma bevy_index_urn_of_inj (u : string) (n m : Z) :
  bevy_index_urn_of u n = bevy_index_urn_of u m -> n = m.
Proof.
  unfold bevy_index_urn_of, Append. intros E.
  apply string_app_inj_l in E. now apply bevy_urn_of_inj in E.
Qed.

Lemma bevy_urn_of_not_index (u : string) (n m : Z) :
  bevy_urn_of u n <> bevy_index_urn_of u m.
Proof.
  unfold bevy_index_urn_of, bevy_urn_of, Append.
  rewrite !string_app_assoc. intros E.
  apply string_app_inj_r, string_app_inj_r in E.
  destruct (Z.lt_ge_cases n 0) as [Hn|Hn].
  - destruct (digits_only_negative n Hn) as (t & Et & Hd).
    rewrite Et in E.
    destruct (Z.lt_ge_cases m 0) as [Hm|Hm].
    + destruct (digits_only_negative m Hm) as (t' & Et' & _).
      rewrite Et' in E.
      change (String "-"%char t = String "-"%char (t' +:+ "/" +:+ "index"))
        in E.
      injection E as ->. apply digits_only_app in Hd. discriminate.
    + pose proof (digits_only_format_08d m Hm) as Hm'.
      destruct (format_08d m) as [|c t'].
      * discriminate.
      * change (String "-"%char t = String c (t' +:+ "/" +:+ "index")) in E.
        injection E as <- _. discriminate.
  - pose proof (digits_only_format_08d n Hn) as Hd. rewrite E in Hd.
    apply digits_only_app in Hd. discriminate.
Qed.

End Names.

(** * The write path fills the store *)

Section Filling.
Variables zlib snappy : Codec.

Lemma FlushChunk_Ok_cases chunk w w' :
  FlushChunk zlib snappy chunk w = Ok tt w' ->
  let a := appended (compress_chunk zlib snappy (compression (self w)) chunk)
             w in
  0 <= len (bevy (self w)) < 2 ^ 32 /\
  ((chunk_count_in_bevy (self w) + 1 < chunks_per_segment (self w) /\ w' = a)
   \/ (chunks_per_segment (self w) <= chunk_count_in_bevy (self w) + 1 /\
       ((bevy (self a) = [] /\ w' = a) \/
        (bevy (self a) <> [] /\ w' = finalized a)))).
Proof.
  intros H. cbv zeta. pose proof (len_nonneg (bevy (self w))) as Hnn.
  destruct (Z.lt_ge_cases (len (bevy (self w))) (2 ^ 32)) as [Hlt|Hge].
  2: { rewrite FlushChunk_overflow in H by assumption. discriminate. }
  rewrite FlushChunk_eq in H by assumption. cbv zeta in H.
  split; [lia|].
  set (a := appended _ w) in *.
  change (chunk_count_in_bevy (self a))
    with (chunk_count_in_bevy (self w) + 1) in H.
  change (chunks_per_segment (self a)) with (chunks_per_segment (self w)) in H.
  destruct (Z.geb_spec (chunk_count_in_bevy (self w) + 1)
              (chunks_per_segment (self w))) as [Hfull|Hroom].
  - right. split; [lia|]. now apply _FlushBevy_Ok.
  - left. split; [lia|]. now injection H.
Qed.

Lemma offsets_from_snoc (chunks : list bytes) (x : bytes) : forall start,
  offsets_from start (chunks ++ [x])
  = offsets_from start chunks ++ [start + len (concat chunks)].
Proof.
  induction chunks as [|c chunks IH]; intros start; cbn [app offsets_from].
  - cbn. f_equal. unfold len. cbn. lia.
  - rewrite IH. cbn [concat app]. rewrite len_app. do 3 f_equal. lia.
Qed.

Lemma flat_map_le_bytes_snoc (offsets : list Z) (o : Z) :
  flat_map le_bytes (offsets ++ [o]) = flat_map le_bytes offsets ++ le_bytes o.
Proof. rewrite flat_map_app. cbn [flat_map]. now rewrite app_nil_r. Qed.

Lemma chunks_of_bevy_snoc_full (C : nat) (flushed : list bytes) (c : bytes)
    (b' : nat) :
  ((b' + 1) * C <= length flushed)%nat ->
  chunks_of_bevy C (flushed ++ [c]) b' = chunks_of_bevy C flushed b'.
Proof.
  intros H. unfold chunks_of_bevy.
  rewrite skipn_app, firstn_app.
  replace (C - length (skipn (b' * C) flushed))%nat with 0%nat
    by (rewrite length_skipn; lia).
  cbn [firstn]. now rewrite app_nil_r.
Qed.

Lemma chunks_of_bevy_last (C : nat) (flushed : list bytes) (b : nat) :
  (length flushed <= (b + 1) * C)%nat ->
  chunks_of_bevy C flushed b = skipn (b * C) flushed.
Proof.
  intros H. unfold chunks_of_bevy. apply firstn_all2.
  rewrite length_skipn. lia.
Qed.

Lemma skipn_snoc {A} (n : nat) (l : list A) (x : A) :
  (n <= length l)%nat -> skipn n (l ++ [x]) = skipn n l ++ [x].
Proof.
  intros H. rewrite skipn_app.
  replace (n - length l)%nat with 0%nat by lia. reflexivity.
Qed.

Lemma stores_bevy_frame (w w' : World) (n : Z) (chunks : list bytes) :
  urn (self w') = urn (self w) ->
  compression (self w') = compression (self w) ->
  segment_of w' (bevy_urn_of (urn (self w)) n)
  = segment_of w (bevy_urn_of (urn (self w)) n) ->
  segment_of w' (bevy_index_urn_of (urn (self w)) n)
  = segment_of w (bevy_index_urn_of (urn (self w)) n) ->
  stores_bevy zlib snappy w n chunks -> stores_bevy zlib snappy w' n chunks.
Proof.
  unfold stores_bevy. intros -> -> -> ->. auto.
Qed.

Lemma segment_of_finalized_other (a : World) (name : string) :
  name <> bevy_urn_of (urn (self a)) (bevy_number (self a)) ->
  name <> bevy_index_urn_of (urn (self a)) (bevy_number (self a)) ->
  segment_of (finalized a) name = segment_of a name.
Proof.
  intros H1 H2. unfold segment_of, finalized. cbn [resolver members].
  rewrite !lookup_insert_ne by congruence. reflexivity.
Qed.

Lemma appended_fields (c : bytes) (w : World) :
  chunks_per_segment (self (appended c w)) = chunks_per_segment (self w) /\
  compression (self (appended c w)) = compression (self w) /\
  bevy_number (self (appended c w)) = bevy_number (self w) /\
  chunk_count_in_bevy (self (appended c w))
  = chunk_count_in_bevy (self w) + 1 /\
  bevy (self (appended c w)) = bevy (self w) ++ c.
Proof. repeat split. Qed.

Lemma finalized_fields (a : World) :
  chunks_per_segment (self (finalized a)) = chunks_per_segment (self a) /\
  compression (self (finalized a)) = compression (self a) /\
  bevy_number (self (finalized a)) = bevy_number (self a) + 1 /\
  chunk_count_in_bevy (self (finalized a)) = 0 /\
  bevy (self (finalized a)) = [] /\
  bevy_index (self (finalized a)) = [].
Proof. repeat split. Qed.

(** What the bevy in memory is after a chunk was appended to it. *)
Lemma appended_bevy (w : World) (flushed : list bytes) (chunk : bytes)
    (b C : nat) :
  let comp := compress_chunk zlib snappy (compression (self w)) in
  let a := appended (comp chunk) w in
  let cb := map comp (skipn (b * C) flushed) in
  let cb' := map comp (skipn (b * C) (flushed ++ [chunk])) in
  (b * C <= length flushed)%nat ->
  bevy (self w) = concat cb ->
  bevy_index (self w) = flat_map le_bytes (offsets_from 0 cb) ->
  Forall (fun offset => 0 <= offset < 2 ^ 32) (offsets_from 0 cb) ->
  0 <= len (bevy (self w)) < 2 ^ 32 ->
  bevy (self a) = concat cb' /\
  bevy_index (self a) = flat_map le_bytes (offsets_from 0 cb') /\
  Forall (fun offset => 0 <= offset < 2 ^ 32) (offsets_from 0 cb').
Proof.
  intros comp a cb cb' Hle Hbevy Hindex Hrange Hlt.
  assert (Hcb : cb' = cb ++ [comp chunk]).
  { subst cb cb'. rewrite skipn_snoc by exact Hle. now rewrite map_app. }
  rewrite Hcb. unfold a, appended.
  cbn [self bevy bevy_index with_chunk_count_in_bevy with_bevy
         with_bevy_index].
  rewrite offsets_from_snoc, flat_map_le_bytes_snoc, concat_app.
  cbn [concat]. rewrite app_nil_r, <- Hbevy, <- Hindex.
  split; [reflexivity|]. split; [reflexivity|].
  apply Forall_app. split; [exact Hrange|].
  constructor; [lia | constructor].
Qed.

Lemma stores_bevy_appended (w : World) (c : bytes) (n : Z)
    (chunks : list bytes) :
  stores_bevy zlib snappy w n chunks ->
  stores_bevy zlib snappy (appended c w) n chunks.
Proof. intros H. exact H. Qed.

(** Persisting a bevy leaves the segments of the other bevies as they
    are. *)
Lemma stores_bevy_finalized_other (a : World) (n : Z) (chunks : list bytes) :
  n <> bevy_number (self a) ->
  stores_bevy zlib snappy a n chunks ->
  stores_bevy zlib snappy (finalized a) n chunks.
Proof.
  intros Hne.
  apply (stores_bevy_frame a (finalized a)); try reflexivity.
  - apply segment_of_finalized_other.
    + intros E. now apply bevy_urn_of_inj in E.
    + apply bevy_urn_of_not_index.
  - apply segment_of_finalized_other.
    + intros E. symmetry in E. revert E. apply bevy_urn_of_not_index.
    + intros E. now apply bevy_index_urn_of_inj in E.
Qed.

Lemma stores_bevy_finalized_this (a : World) (chunks : list bytes) :
  let cb :=
    map (compress_chunk zlib snappy (compression (self a))) chunks in
  bevy (self a) = concat cb ->
  bevy_index (self a) = flat_map le_bytes (offsets_from 0 cb) ->
  Forall (fun offset => 0 <= offset < 2 ^ 32) (offsets_from 0 cb) ->
  stores_bevy zlib snappy (finalized a) (bevy_number (self a)) chunks.
Proof.
  intros cb Hbevy Hindex Hrange.
  unfold stores_bevy, segment_of, finalized.
  cbn [self resolver members urn compression with_bevy_index with_bevy
         with_bevy_number with_chunk_count_in_bevy].
  fold cb. split; [|split].
  - rewrite lookup_insert_eq. now rewrite Hbevy.
  - rewrite lookup_insert_ne by apply bevy_urn_not_index_urn.
    rewrite lookup_insert_eq. now rewrite Hindex.
  - exact Hrange.
Qed.

(** A chunk that goes into the bevy in memory, or completes it. *)
Lemma filling_FlushChunk (first : Z) (w w' : World) (flushed : list bytes)
    (chunk : bytes) :
  filling zlib snappy first w flushed ->
  0 < chunks_per_segment (self w) ->
  compress_chunk zlib snappy (compression (self w)) chunk <> [] ->
  FlushChunk zlib snappy chunk w = Ok tt w' ->
  filling zlib snappy first w' (flushed ++ [chunk]).
Proof.
  intros (b & r & Hlen & Hr & Hnum & Hcount & Hbevy & Hindex & Hrange & _
           & Hheld) Hcps Hne Hrun.
  cbv zeta in Hbevy, Hindex, Hrange.
  apply FlushChunk_Ok_cases in Hrun. cbv zeta in Hrun.
  destruct Hrun as (Hlt & Hcases).
  destruct (appended_bevy w flushed chunk b
              (Z.to_nat (chunks_per_segment (self w)))
              ltac:(lia) Hbevy Hindex Hrange Hlt)
    as (Hbevy_a & Hindex_a & Hrange_a).
  assert (Hnonempty :
            bevy (self (appended
                          (compress_chunk zlib snappy (compression (self w))
                             chunk) w)) <> []).
  { unfold appended.
    cbn [self bevy with_chunk_count_in_bevy with_bevy with_bevy_index].
    intros E. apply app_eq_nil in E as [_ E]. contradiction. }
  assert (Hheld_a : forall b', (b' < b)%nat ->
            stores_bevy zlib snappy w (first + Z.of_nat b')
              (chunks_of_bevy (Z.to_nat (chunks_per_segment (self w)))
                 (flushed ++ [chunk]) b')).
  { intros b' Hb'. rewrite chunks_of_bevy_snoc_full by nia. now apply Hheld. }
  set (comp := compress_chunk zlib snappy (compression (self w))) in *.
  set (C := Z.to_nat (chunks_per_segment (self w))) in *.
  set (a := appended (comp chunk) w) in *.
  destruct (appended_fields (comp chunk) w)
    as (Ea_cps & Ea_c & Ea_num & Ea_count & Ea_bevy).
  fold a in Ea_cps, Ea_c, Ea_num, Ea_count, Ea_bevy.
  destruct (finalized_fields a)
    as (Ef_cps & Ef_c & Ef_num & Ef_count & Ef_bevy & Ef_index).
  destruct Hcases as [[Hroom ->]|[Hfull [[Hempty _]|[_ ->]]]];
    [| contradiction |].
  - (* the bevy has room *)
    exists b, (S r). cbv zeta. rewrite Ea_cps, Ea_c, Ea_num, Ea_count.
    fold C. fold comp.
    split; [|split; [|split; [|split; [|split; [|split; [|split; [|split]]]]]]].
    + rewrite length_app. cbn [length]. lia.
    + lia.
    + exact Hnum.
    + lia.
    + exact Hbevy_a.
    + exact Hindex_a.
    + exact Hrange_a.
    + intros _. exact Hnonempty.
    + intros b' Hb'. apply stores_bevy_appended. now apply Hheld_a.
  - (* the bevy is full and is persisted *)
    exists (S b), 0%nat. cbv zeta.
    rewrite Ef_cps, Ef_c, Ef_num, Ef_count, Ef_bevy, Ef_index.
    rewrite Ea_cps, Ea_c, Ea_num.
    fold C. fold comp.
    assert (Hall : skipn (S b * C) (flushed ++ [chunk]) = []).
    { apply skipn_all2. rewrite length_app. cbn [length]. nia. }
    rewrite Hall.
    split; [|split; [|split; [|split; [|split; [|split; [|split; [|split]]]]]]].
    + rewrite length_app. cbn [length]. nia.
    + lia.
    + lia.
    + reflexivity.
    + reflexivity.
    + reflexivity.
    + constructor.
    + intros H. inversion H.
    + intros b' Hb'.
      destruct (Nat.eq_dec b' b) as [->|Hother].
      * rewrite chunks_of_bevy_last
          by (rewrite length_app; cbn [length]; nia).
        replace (first + Z.of_nat b) with (bevy_number (self a))
          by (rewrite Ea_num; exact Hnum).
        apply stores_bevy_finalized_this; assumption.
      * apply stores_bevy_finalized_other; [rewrite Ea_num; lia|].
        apply stores_bevy_appended. apply Hheld_a. lia.
Qed.

End Filling.

Section Filling2.
Variables zlib snappy : Codec.

(** The invariant does not look at the buffer, the cursor, the size or
    the dirty flag, nor at the attributes of the store. *)
Lemma filling_frame (first : Z) (w w' : World) (flushed : list bytes) :
  urn (self w') = urn (self w) ->
  chunks_per_segment (self w') = chunks_per_segment (self w) ->
  compression (self w') = compression (self w) ->
  bevy (self w') = bevy (self w) ->
  bevy_index (self w') = bevy_index (self w) ->
  chunk_count_in_bevy (self w') = chunk_count_in_bevy (self w) ->
  bevy_number (self w') = bevy_number (self w) ->
  members (resolver w') = members (resolver w) ->
  filling zlib snappy first w flushed -> filling zlib snappy first w' flushed.
Proof.
  intros Hu Hcps Hc Hb Hi Hn Hnum Hm.
  unfold filling, stores_bevy, segment_of.
  rewrite Hu, Hcps, Hc, Hb, Hi, Hn, Hnum, Hm. auto.
Qed.

Lemma stores_chunks_frame (first : Z) (w w' : World) (chunks : list bytes) :
  urn (self w') = urn (self w) ->
  chunks_per_segment (self w') = chunks_per_segment (self w) ->
  compression (self w') = compression (self w) ->
  members (resolver w') = members (resolver w) ->
  stores_chunks zlib snappy first w chunks ->
  stores_chunks zlib snappy first w' chunks.
Proof.
  intros Hu Hcps Hc Hm. unfold stores_chunks, stores_bevy, segment_of.
  rewrite Hu, Hcps, Hc, Hm. auto.
Qed.

Lemma slice_to_chunk (buf : bytes) (cs : Z) :
  0 < cs -> slice_to buf cs = firstn (Z.to_nat cs) buf.
Proof. intros H. apply slice_to_nonneg. lia. Qed.

Lemma slice_from_chunk (buf : bytes) (cs : Z) :
  0 < cs -> slice_from buf cs = skipn (Z.to_nat cs) buf.
Proof. intros H. apply slice_from_nonneg. lia. Qed.

(** Without a positive chunk size the loop of [Write] does not return
    once the buffer is longer than the chunk size. *)
Lemma Write_loop_stuck (fuel : nat) : forall w w',
  chunk_size (self w) <= 0 ->
  len (buffer (self w)) > chunk_size (self w) ->
  Write_loop zlib snappy fuel w <> Ok tt w'.
Proof.
  induction fuel as [|fuel IH]; intros w w' Hcs Hgt;
    rewrite Write_loop_unfold;
    destruct (Z.gtb_spec (len (buffer (self w))) (chunk_size (self w)));
    try lia; [discriminate|].
  set (w1 := mkWorld _ _).
  destruct (FlushChunk zlib snappy _ w1) as [[] w2|e w2|] eqn:E;
    try discriminate.
  apply final_Ok, FlushChunk_frame in E.
  destruct E as (_ & Ecs & _ & _ & _ & _ & Ebuf & _).
  subst w1. cbn in Ecs, Ebuf.
  apply IH; rewrite ?Ecs, ?Ebuf; [lia|].
  destruct (Z.eq_dec (chunk_size (self w)) 0) as [Hz|Hnz].
  - rewrite Hz in *.
    change (slice_from (buffer (self w)) 0) with (buffer (self w)). lia.
  - pose proof (len_nonneg (slice_from (buffer (self w)) (chunk_size (self w)))).
    lia.
Qed.

(** The loop of [Write] flushes the chunks [full_chunks] cuts and
    leaves the rest in the buffer. *)
Lemma filling_Write_loop (first : Z) (fuel : nat) : forall w w' flushed,
  let cut :=
    full_chunks fuel (Z.to_nat (chunk_size (self w))) (buffer (self w)) in
  filling zlib snappy first w flushed ->
  0 < chunks_per_segment (self w) ->
  Forall (fun chunk =>
            compress_chunk zlib snappy (compression (self w)) chunk <> [])
    cut ->
  Write_loop zlib snappy fuel w = Ok tt w' ->
  filling zlib snappy first w' (flushed ++ cut) /\
  buffer (self w')
  = rest_of fuel (Z.to_nat (chunk_size (self w))) (buffer (self w)).
Proof.
  induction fuel as [|fuel IH];
    intros w w' flushed cut Hfill Hcps Hne Hrun; subst cut;
    assert (Hpos : len (buffer (self w)) > chunk_size (self w) ->
                   0 < chunk_size (self w))
      by (intros Hgt;
          destruct (Z.lt_ge_cases 0 (chunk_size (self w))) as [|Hbad];
          [assumption|];
          exfalso; revert Hrun; apply Write_loop_stuck; lia);
    revert Hrun; rewrite Write_loop_unfold;
    destruct (Z.gtb_spec (len (buffer (self w))) (chunk_size (self w)))
      as [Hgt|Hle];
    try discriminate; cbn [full_chunks rest_of] in *.
  - intros [= <-]. now rewrite app_nil_r.
  - (* a chunk is cut *)
    assert (Hcs : 0 < chunk_size (self w)) by (apply Hpos; lia).
    assert (Hlt : (Z.to_nat (chunk_size (self w)) <? length (buffer (self w)))%nat
                  = true)
      by (apply Nat.ltb_lt; unfold len in Hgt; lia).
    rewrite Hlt in *. rewrite slice_to_chunk, slice_from_chunk by exact Hcs.
    set (cs := Z.to_nat (chunk_size (self w))) in *.
    set (w1 := mkWorld _ _).
    destruct (FlushChunk zlib snappy _ w1) as [[] w2|e w2|] eqn:E;
      try discriminate.
    intros Hrun.
    assert (Hfill1 : filling zlib snappy first w1 flushed)
      by (apply (filling_frame first w w1); try reflexivity; exact Hfill).
    apply Forall_cons_iff in Hne as [Hne1 Hne2].
    pose proof (filling_FlushChunk zlib snappy first w1 w2 flushed _ Hfill1
                  Hcps Hne1 E) as Hfill2.
    apply final_Ok, FlushChunk_frame in E.
    destruct E as (_ & Ecs & Ecps & Ec & _ & _ & Ebuf & _).
    change (chunk_size (self w1)) with (chunk_size (self w)) in Ecs.
    change (chunks_per_segment (self w1))
      with (chunks_per_segment (self w)) in Ecps.
    change (compression (self w1)) with (compression (self w)) in Ec.
    change (buffer (self w1)) with (skipn cs (buffer (self w))) in Ebuf.
    destruct (IH w2 w' (flushed ++ [firstn cs (buffer (self w))]) Hfill2)
      as [Hfill' Hrest];
      try (rewrite ?Ecs, ?Ecps, ?Ec, ?Ebuf; assumption).
    rewrite Ecs, Ebuf in Hfill', Hrest. fold cs in Hfill', Hrest.
    rewrite <- app_assoc in Hfill'. split; assumption.
  - (* the buffer fits in a chunk *)
    assert (Hlt : (Z.to_nat (chunk_size (self w)) <? length (buffer (self w)))%nat
                  = false).
    { apply Nat.ltb_ge. unfold len in Hle.
      destruct (Z.lt_ge_cases (chunk_size (self w)) 0); lia. }
    rewrite Hlt. intros [= <-]. now rewrite app_nil_r.
Qed.

(** [Write] on a stream that is being filled. *)
Lemma filling_Write (first : Z) (w w' : World) (flushed : list bytes)
    (data : bytes) (n : Z) :
  let buf := buffer (self w) ++ data in
  let cs := Z.to_nat (chunk_size (self w)) in
  filling zlib snappy first w flushed ->
  0 < chunks_per_segment (self w) ->
  Forall (fun chunk =>
            compress_chunk zlib snappy (compression (self w)) chunk <> [])
    (full_chunks (length buf) cs buf) ->
  Write zlib snappy data w = Ok n w' ->
  filling zlib snappy first w' (flushed ++ full_chunks (length buf) cs buf) /\
  buffer (self w') = rest_of (length buf) cs buf /\
  dirty (self w') = true /\
  urn (self w') = urn (self w) /\
  chunk_size (self w') = chunk_size (self w) /\
  chunks_per_segment (self w') = chunks_per_segment (self w) /\
  compression (self w') = compression (self w).
Proof.
  cbv zeta. intros Hfill Hcps Hne. rewrite Write_unfold. cbv zeta.
  set (w1 := mkWorld _ _).
  destruct (Write_loop zlib snappy _ w1) as [[] w2|e w2|] eqn:E;
    try discriminate.
  intros [= _ <-].
  assert (Hfill1 : filling zlib snappy first w1 flushed)
    by (apply (filling_frame first w w1); try reflexivity; exact Hfill).
  destruct (filling_Write_loop first _ w1 w2 flushed Hfill1 Hcps Hne E)
    as [Hfill2 Hrest].
  apply final_Ok, Write_loop_frame in E.
  destruct E as (Eu & Ecs & Ecps & Ec & _ & _ & Ed & _).
  change (buffer (self w1)) with (buffer (self w) ++ data) in *.
  change (chunk_size (self w1)) with (chunk_size (self w)) in *.
  split; [|split; [|split; [|split; [|split; [|split]]]]].
  - eapply (filling_frame first w2); try exact Hfill2;
      destruct (_ >? _); reflexivity.
  - rewrite <- Hrest. destruct (_ >? _); reflexivity.
  - destruct (_ >? _); exact Ed.
  - destruct (_ >? _); exact Eu.
  - destruct (_ >? _); exact Ecs.
  - destruct (_ >? _); exact Ecps.
  - destruct (_ >? _); exact Ec.
Qed.

(** [Flush] on a dirty stream that is being filled: afterwards the
    store holds all the chunks, the buffer as the last one. *)
Lemma filling_Flush (first : Z) (w w' : World) (flushed : list bytes) :
  filling zlib snappy first w flushed ->
  0 < chunks_per_segment (self w) ->
  dirty (self w) = true ->
  compress_chunk zlib snappy (compression (self w)) (buffer (self w)) <> [] ->
  Flush zlib snappy w = Ok tt w' ->
  stores_chunks zlib snappy first w' (flushed ++ [buffer (self w)]) /\
  buffer (self w') = buffer (self w) /\
  urn (self w') = urn (self w) /\
  chunks_per_segment (self w') = chunks_per_segment (self w) /\
  compression (self w') = compression (self w).
Proof.
  intros Hfill Hcps Hd Hne. rewrite Flush_unfold, Hd.
  destruct (FlushChunk zlib snappy _ w) as [[] w1|e w1|] eqn:E;
    try discriminate.
  pose proof (filling_FlushChunk zlib snappy first w w1 flushed _ Hfill Hcps
                Hne E) as Hfill1.
  apply final_Ok, FlushChunk_frame in E.
  destruct E as (Eu & _ & Ecps & Ec & _ & _ & Ebuf & _).
  destruct (_FlushBevy w1) as [[] w2|e w2|] eqn:E2; try discriminate.
  intros [= <-].
  set (chunks := flushed ++ [buffer (self w)]) in *.
  assert (Hheld : stores_chunks zlib snappy first w2 chunks /\
                  write_frame w1 w2).
  { destruct Hfill1 as (b & r & Hlen & Hr & Hnum & Hcount & Hbevy & Hindex
                          & Hrange & Hnonempty & Hheld).
    cbv zeta in Hbevy, Hindex, Hrange.
    set (C := Z.to_nat (chunks_per_segment (self w1))) in *.
    apply _FlushBevy_Ok in E2 as [[Hempty ->]|[Hfull ->]].
    - (* nothing is left in memory *)
      assert (r = 0%nat) by (destruct r; [reflexivity|];
                             exfalso; apply Hnonempty; [lia | exact Hempty]).
      split; [|now repeat split].
      intros k Hk. fold C in Hk |- *. apply Hheld. nia.
    - (* the bevy in memory is persisted *)
      split; [|now repeat split].
      intros k Hk.
      change (chunks_per_segment (self (finalized w1)))
        with (chunks_per_segment (self w1)) in Hk |- *.
      fold C in Hk |- *.
      destruct (Nat.eq_dec k b) as [->|Hother].
      + rewrite chunks_of_bevy_last by nia. rewrite <- Hnum.
        now apply stores_bevy_finalized_this.
      + apply stores_bevy_finalized_other; [lia|].
        apply Hheld. nia. }
  destruct Hheld as [Hheld (Fu & _ & Fcps & Fc & _ & _ & Fbuf & _)].
  split; [|cbn; now rewrite ?Fbuf, ?Fu, ?Fcps, ?Fc].
  revert Hheld. apply stores_chunks_frame; reflexivity.
Qed.

End Filling2.

(** ** The chunks [Write] cuts *)

Section Chunked.

Lemma full_chunks_rest (cs : nat) (fuel : nat) : forall buf : bytes,
  concat (full_chunks fuel cs buf) ++ rest_of fuel cs buf = buf.
Proof.
  induction fuel as [|fuel IH]; intros buf; cbn [full_chunks rest_of].
  - reflexivity.
  - destruct (cs <? length buf)%nat; [|reflexivity].
    cbn [concat]. rewrite <- app_assoc, IH. apply firstn_skipn.
Qed.

Lemma concat_chunked (cs : Z) (data : bytes) :
  concat (chunked cs data) = data.
Proof.
  unfold chunked. rewrite concat_app. cbn [concat]. rewrite app_nil_r.
  apply full_chunks_rest.
Qed.

Lemma chunked_small (cs : Z) (data : bytes) :
  len data <= cs -> chunked cs data = [data].
Proof.
  intros H. unfold chunked.
  assert (Hlt : (Z.to_nat cs <? length data)%nat = false)
    by (apply Nat.ltb_ge; unfold len in H; lia).
  generalize (length data) at 1 2. intros [|fuel]; [reflexivity|].
  cbn [full_chunks rest_of]. now rewrite Hlt.
Qed.

Lemma last_chunked (cs : Z) (data : bytes) :
  List.last (chunked cs data) [] = rest_of (length data) (Z.to_nat cs) data.
Proof. unfold chunked. apply List.last_last. Qed.

End Chunked.

(** ** Bevies that were persisted before *)

Section Kept.
Variables zlib snappy : Codec.

Lemma kept_finalized (u : string) (B : Z) (v : bytes) (a : World) :
  urn (self a) = u -> B < bevy_number (self a) ->
  segment_of a (bevy_urn_of u B) = Some v ->
  urn (self (finalized a)) = u /\ B < bevy_number (self (finalized a)) /\
  segment_of (finalized a) (bevy_urn_of u B) = Some v.
Proof.
  intros Hu HB Hv. split; [exact Hu|]. split; [cbn; lia|].
  rewrite segment_of_finalized_other; [exact Hv| |]; rewrite Hu.
  - intros E. apply bevy_urn_of_inj in E. lia.
  - apply bevy_urn_of_not_index.
Qed.

(** The write path keeps the segment of a bevy of a lower number. *)
Lemma kept_FlushChunk (u : string) (B : Z) (v chunk : bytes) (w w' : World) :
  FlushChunk zlib snappy chunk w = Ok tt w' ->
  urn (self w) = u -> B < bevy_number (self w) ->
  segment_of w (bevy_urn_of u B) = Some v ->
  urn (self w') = u /\ B < bevy_number (self w') /\
  segment_of w' (bevy_urn_of u B) = Some v.
Proof.
  intros Hrun Hu HB Hv.
  apply FlushChunk_Ok_cases in Hrun. cbv zeta in Hrun.
  destruct Hrun as [_ [[_ ->]|[_ [[_ ->]|[_ ->]]]]];
    try (now repeat split).
  now apply kept_finalized.
Qed.

Lemma kept_Write_loop (u : string) (B : Z) (v : bytes) (fuel : nat) :
  forall w w',
    Write_loop zlib snappy fuel w = Ok tt w' ->
    urn (self w) = u -> B < bevy_number (self w) ->
    segment_of w (bevy_urn_of u B) = Some v ->
    urn (self w') = u /\ B < bevy_number (self w') /\
    segment_of w' (bevy_urn_of u B) = Some v.
Proof.
  induction fuel as [|fuel IH]; intros w w'; rewrite Write_loop_unfold;
    destruct (_ >? _); try discriminate;
    try (intros [= <-]; now repeat split).
  set (w1 := mkWorld _ _).
  destruct (FlushChunk zlib snappy _ w1) as [[] w2|e w2|] eqn:E;
    try discriminate.
  intros Hrun Hu HB Hv.
  destruct (kept_FlushChunk u B v _ w1 w2 E Hu HB Hv) as (Hu2 & HB2 & Hv2).
  now apply (IH w2 w').
Qed.

Lemma kept_Write (u : string) (B : Z) (v data : bytes) (n : Z)
    (w w' : World) :
  Write zlib snappy data w = Ok n w' ->
  urn (self w) = u -> B < bevy_number (self w) ->
  segment_of w (bevy_urn_of u B) = Some v ->
  urn (self w') = u /\ B < bevy_number (self w') /\
  segment_of w' (bevy_urn_of u B) = Some v.
Proof.
  rewrite Write_unfold. cbv zeta. set (w1 := mkWorld _ _).
  destruct (Write_loop zlib snappy _ w1) as [[] w2|e w2|] eqn:E;
    try discriminate.
  intros [= _ <-] Hu HB Hv.
  destruct (kept_Write_loop u B v _ w1 w2 E Hu HB Hv) as (Hu2 & HB2 & Hv2).
  destruct (_ >? _); now repeat split.
Qed.

Lemma kept_Flush (u : string) (B : Z) (v : bytes) (w w' : World) :
  Flush zlib snappy w = Ok tt w' ->
  urn (self w) = u -> B < bevy_number (self w) ->
  segment_of w (bevy_urn_of u B) = Some v ->
  urn (self w') = u /\ B < bevy_number (self w') /\
  segment_of w' (bevy_urn_of u B) = Some v.
Proof.
  rewrite Flush_unfold. destruct (dirty (self w)).
  2: { intros [= <-]. now repeat split. }
  destruct (FlushChunk zlib snappy _ w) as [[] w1|e w1|] eqn:E;
    try discriminate.
  destruct (_FlushBevy w1) as [[] w2|e w2|] eqn:E2; try discriminate.
  intros [= <-] Hu HB Hv.
  destruct (kept_FlushChunk u B v _ w w1 E Hu HB Hv) as (Hu1 & HB1 & Hv1).
  apply _FlushBevy_Ok in E2 as [[_ ->]|[_ ->]].
  - now repeat split.
  - now apply kept_finalized.
Qed.

End Kept.

(** C10. A flush changes neither the pending buffer nor the cursor.
    When a dirty stream is flushed, its pending bytes are persisted as
    the last chunk of the bevy of the current number and stay in the
    buffer. A write that follows is appended to them and the whole is
    cut into chunks; with the next flush the store holds these chunks,
    the pending bytes at their head, in the bevies from the next number
    on, beside the bevy the first flush persisted. *)
Theorem Flush_keeps_the_pending_bytes (zlib snappy : Codec)
    (w w1 w2 w3 : World) (data : bytes) (n : Z) :
  let s := self w in
  let pending := buffer s in
  let squeeze := compress_chunk zlib snappy (compression s) in
  let chunks := chunked (chunk_size s) (pending ++ data) in
  let per_bevy := Z.to_nat (chunks_per_segment s) in
  dirty s = true ->
  0 < chunks_per_segment s ->
  bevy s ++ squeeze pending <> [] ->
  Forall (fun chunk => squeeze chunk <> []) chunks ->
  Flush zlib snappy w = Ok tt w1 ->
  Write zlib snappy data w1 = Ok n w2 ->
  Flush zlib snappy w2 = Ok tt w3 ->
  buffer (self w1) = pending /\
  readptr (self w1) = readptr s /\
  segment_of w1 (bevy_urn_of (urn s) (bevy_number s))
  = Some (bevy s ++ squeeze pending) /\
  concat chunks = pending ++ data /\
  (len (pending ++ data) <= chunk_size s -> chunks = [pending ++ data]) /\
  buffer (self w2) = List.last chunks [] /\
  buffer (self w3) = List.last chunks [] /\
  segment_of w3 (bevy_urn_of (urn s) (bevy_number s))
  = Some (bevy s ++ squeeze pending) /\
  forall k : nat,
    (k * per_bevy < length chunks)%nat ->
    segment_of w3 (bevy_urn_of (urn s) (bevy_number s + 1 + Z.of_nat k))
    = Some (concat (map squeeze (chunks_of_bevy per_bevy chunks k))).
Proof.
  cbv zeta. intros Hd Hcps Hne Hchunks H1 H2 H3.
  pose proof (Flush_persists zlib snappy w w1 Hd Hne H1) as E1.
  cbv zeta in E1.
  set (squeeze := compress_chunk zlib snappy (compression (self w))) in *.
  assert (Hbuf1 : buffer (self w1) = buffer (self w)) by (now subst w1).
  assert (Hu1 : urn (self w1) = urn (self w)) by (now subst w1).
  assert (Hcs1 : chunk_size (self w1) = chunk_size (self w))
    by (now subst w1).
  assert (Hcps1 : chunks_per_segment (self w1) = chunks_per_segment (self w))
    by (now subst w1).
  assert (Hc1 : compression (self w1) = compression (self w))
    by (now subst w1).
  assert (Hnum1 : bevy_number (self w1) = bevy_number (self w) + 1)
    by (now subst w1).
  assert (Hseg1 : segment_of w1 (bevy_urn_of (urn (self w))
                                   (bevy_number (self w)))
                  = Some (bevy (self w) ++ squeeze (buffer (self w)))).
  { subst w1. unfold segment_of. cbn. apply lookup_insert_eq. }
  assert (Hfill1 : filling zlib snappy (bevy_number (self w) + 1) w1 []).
  { exists 0%nat, 0%nat. cbv zeta.
    split; [reflexivity|]. split; [rewrite Hcps1; lia|].
    split; [rewrite Hnum1; lia|].
    split; [now subst w1|]. split; [now subst w1|]. split; [now subst w1|].
    split; [constructor|]. split; [lia|]. intros b' Hb'. lia. }
  unfold chunked in Hchunks. apply Forall_app in Hchunks as [Hfull Hrest].
  apply Forall_cons_iff in Hrest as [Hrest _].
  destruct (filling_Write zlib snappy _ w1 w2 [] data n Hfill1)
    as (Hfill2 & Hbuf2 & Hd2 & Hu2 & Hcs2 & Hcps2 & Hc2);
    [lia | rewrite Hbuf1, Hcs1, Hc1; exact Hfull | exact H2 |].
  rewrite Hbuf1, Hcs1 in Hfill2, Hbuf2. cbn [app] in Hfill2.
  destruct (filling_Flush zlib snappy _ w2 w3 _ Hfill2)
    as (Hstored & Hbuf3 & Hu3 & Hcps3 & Hc3);
    [lia | exact Hd2 | rewrite Hc2, Hc1, Hbuf2; exact Hrest | exact H3 |].
  rewrite Hbuf2 in Hstored.
  destruct (kept_Write zlib snappy (urn (self w)) (bevy_number (self w))
              _ data n w1 w2 H2 Hu1 ltac:(lia) Hseg1) as (Ku2 & KB2 & Kv2).
  destruct (kept_Flush zlib snappy (urn (self w)) (bevy_number (self w))
              _ w2 w3 H3 Ku2 KB2 Kv2) as (_ & _ & Kv3).
  split; [exact Hbuf1|]. split; [now subst w1|]. split; [exact Hseg1|].
  split; [apply concat_chunked|]. split; [apply chunked_small|].
  rewrite last_chunked.
  split; [exact Hbuf2|]. split; [now rewrite Hbuf3|]. split; [exact Kv3|].
  intros k Hk.
  specialize (Hstored k). rewrite Hcps3, Hcps2, Hcps1 in Hstored.
  destruct (Hstored Hk) as (Hseg & _).
  rewrite Hu3, Hu2, Hu1, Hc3, Hc2, Hc1 in Hseg. exact Hseg.
Qed.

Lemma Flush_keeps_the_pending_bytes_witness :
  let w0 := new_world 4 2 AFF4_IMAGE_COMPRESSION_STORED in
  let W := Write identity_codec identity_codec in
  let F := Flush identity_codec identity_codec in
  let w := state_after (W (bs "ABCDEFGHIJ") w0) w0 in
  let w1 := state_after (F w) w0 in
  let w3 := state_after ((W (bs "KLMNOPQRSTU");;; F) w1) w0 in
  buffer (self w) = bs "IJ" /\
  buffer (self w1) = bs "IJ" /\
  segment_of w1 (bevy_urn_of "aff4://image" 1) = Some (bs "IJ") /\
  segment_of w3 (bevy_urn_of "aff4://image" 1) = Some (bs "IJ") /\
  segment_of w3 (bevy_urn_of "aff4://image" 2) = Some (bs "IJKLMNOP") /\
  segment_of w3 (bevy_urn_of "aff4://image" 3) = Some (bs "QRSTU").
Proof.
  cbv zeta.
  set (w0 := new_world 4 2 AFF4_IMAGE_COMPRESSION_STORED).
  set (w := state_after
              (Write identity_codec identity_codec (bs "ABCDEFGHIJ") w0) w0).
  set (w1 := state_after (Flush identity_codec identity_codec w) w0).
  set (w2 := state_after
               (Write identity_codec identity_codec (bs "KLMNOPQRSTU") w1)
               w0).
  set (w3 := state_after (_ w1) w0).
  assert (Hchunks : chunked (chunk_size (self w))
                      (buffer (self w) ++ bs "KLMNOPQRSTU")
                    = [bs "IJKL"; bs "MNOP"; bs "QRST"; bs "U"])
    by (vm_compute; reflexivity).
  assert (Hne : Forall
                  (fun chunk =>
                     compress_chunk identity_codec identity_codec
                       (compression (self w)) chunk <> [])
                  (chunked (chunk_size (self w))
                     (buffer (self w) ++ bs "KLMNOPQRSTU"))).
  { rewrite Hchunks.
    replace (compression (self w)) with AFF4_IMAGE_COMPRESSION_STORED
      by (vm_compute; reflexivity).
    repeat (constructor; [vm_compute; discriminate|]). constructor. }
  pose proof (Flush_keeps_the_pending_bytes identity_codec identity_codec
                w w1 w2 w3 (bs "KLMNOPQRSTU") 11
                ltac:(vm_compute; reflexivity)
                ltac:(vm_compute; reflexivity)
                ltac:(vm_compute; discriminate)
                Hne
                ltac:(vm_compute; reflexivity)
                ltac:(vm_compute; reflexivity)
                ltac:(vm_compute; reflexivity))
    as (Hb1 & _ & Hs1 & _ & _ & _ & _ & Hs3 & Hk).
  cbv zeta in Hk. rewrite Hchunks in Hk.
  pose proof (Hk 0%nat ltac:(vm_compute; lia)) as Hk0.
  pose proof (Hk 1%nat ltac:(vm_compute; lia)) as Hk1.
  assert (Hbuf : buffer (self w) = bs "IJ") by (vm_compute; reflexivity).
  split; [exact Hbuf|]. split; [now rewrite Hb1|].
  split; [etransitivity; [exact Hs1 | vm_compute; reflexivity]|].
  split; [etransitivity; [exact Hs3 | vm_compute; reflexivity]|].
  split; [etransitivity; [exact Hk0 | vm_compute; reflexivity]|].
  etransitivity; [exact Hk1 | vm_compute; reflexivity].
Defined.

(** * A written stream *)

Section ChunksOfWrites.

(** With enough turns the number of turns does not matter. *)
Lemma full_chunks_fuel (cs : nat) (fuel : nat) : forall fuel' (buf : bytes),
  (0 < cs)%nat -> (length buf <= fuel)%nat -> (length buf <= fuel')%nat ->
  full_chunks fuel cs buf = full_chunks fuel' cs buf /\
  rest_of fuel cs buf = rest_of fuel' cs buf.
Proof.
  induction fuel as [|fuel IH]; intros fuel' buf Hcs Hf Hf'.
  - destruct buf; [|cbn in Hf; lia]. destruct fuel'; split; reflexivity.
  - destruct fuel' as [|fuel'].
    { destruct buf; [|cbn in Hf'; lia]. split; reflexivity. }
    cbn [full_chunks rest_of].
    destruct (Nat.ltb_spec cs (length buf)); [|split; reflexivity].
    destruct (IH fuel' (skipn cs buf) Hcs) as [E1 E2];
      try (rewrite length_skipn; lia).
    now rewrite E1, E2.
Qed.

Lemma length_rest_of (cs : nat) (fuel : nat) : forall buf : bytes,
  (length (rest_of fuel cs buf) <= length buf)%nat.
Proof.
  induction fuel as [|fuel IH]; intros buf; cbn [rest_of]; [lia|].
  destruct (cs <? length buf)%nat; [|lia].
  etransitivity; [apply IH|]. rewrite length_skipn. lia.
Qed.

Lemma full_chunks_S (cs fuel : nat) (buf : bytes) :
  full_chunks (S fuel) cs buf
  = if (cs <? length buf)%nat
    then firstn cs buf :: full_chunks fuel cs (skipn cs buf) else [].
Proof. reflexivity. Qed.

Lemma rest_of_S (cs fuel : nat) (buf : bytes) :
  rest_of (S fuel) cs buf
  = if (cs <? length buf)%nat then rest_of fuel cs (skipn cs buf) else buf.
Proof. reflexivity. Qed.

(** The chunks of two pieces written one after the other are those of
    the first piece, then those of what it left with the second. *)
Lemma full_chunks_app (cs : nat) (d : bytes) (fuel : nat) :
  forall buf : bytes,
    (0 < cs)%nat -> (length buf <= fuel)%nat ->
    full_chunks (fuel + length d) cs (buf ++ d)
    = full_chunks fuel cs buf
        ++ full_chunks (fuel + length d) cs (rest_of fuel cs buf ++ d) /\
    rest_of (fuel + length d) cs (buf ++ d)
    = rest_of (fuel + length d) cs (rest_of fuel cs buf ++ d).
Proof.
  induction fuel as [|fuel IH]; intros buf Hcs Hf.
  - destruct buf; [|cbn in Hf; lia]. split; reflexivity.
  - rewrite (full_chunks_S cs fuel buf), (rest_of_S cs fuel buf).
    destruct (Nat.ltb_spec cs (length buf)) as [Hlt|Hge];
      [|split; reflexivity].
    assert (Hlt' : (cs <? length (buf ++ d))%nat = true)
      by (apply Nat.ltb_lt; rewrite length_app; lia).
    change (S fuel + length d)%nat with (S (fuel + length d)).
    rewrite (full_chunks_S cs (fuel + length d) (buf ++ d)),
      (rest_of_S cs (fuel + length d) (buf ++ d)), Hlt'.
    rewrite firstn_app, skipn_app.
    replace (cs - length buf)%nat with 0%nat by lia.
    rewrite firstn_O, skipn_O, app_nil_r.
    destruct (IH (skipn cs buf) Hcs) as [E1 E2];
      [rewrite length_skipn; lia|].
    rewrite E1, E2.
    assert (Hrest : (length (rest_of fuel cs (skipn cs buf) ++ d)
                     <= fuel + length d)%nat).
    { rewrite length_app.
      pose proof (length_rest_of cs fuel (skipn cs buf)) as Hr.
      rewrite length_skipn in Hr. lia. }
    destruct (full_chunks_fuel cs (fuel + length d) (S (fuel + length d))
                (rest_of fuel cs (skipn cs buf) ++ d) Hcs Hrest
                ltac:(lia)) as [F1 F2].
    rewrite <- F1, <- F2. split; reflexivity.
Qed.

Lemma chunked_app (cs : Z) (buf d : bytes) :
  0 < cs ->
  let rest := rest_of (length buf) (Z.to_nat cs) buf in
  full_chunks (length (buf ++ d)) (Z.to_nat cs) (buf ++ d)
  = full_chunks (length buf) (Z.to_nat cs) buf
      ++ full_chunks (length (rest ++ d)) (Z.to_nat cs) (rest ++ d) /\
  rest_of (length (buf ++ d)) (Z.to_nat cs) (buf ++ d)
  = rest_of (length (rest ++ d)) (Z.to_nat cs) (rest ++ d).
Proof.
  intros Hcs rest.
  destruct (full_chunks_app (Z.to_nat cs) d (length buf) buf
              ltac:(lia) ltac:(lia)) as [E1 E2].
  fold rest in E1, E2. rewrite length_app, E1, E2.
  assert (Hrest : (length (rest ++ d) <= length buf + length d)%nat).
  { rewrite length_app. pose proof (length_rest_of (Z.to_nat cs)
                                      (length buf) buf). fold rest in H. lia. }
  destruct (full_chunks_fuel (Z.to_nat cs) (length buf + length d)
              (length (rest ++ d)) (rest ++ d) ltac:(lia) Hrest ltac:(lia))
    as [F1 F2].
  now rewrite F1, F2.
Qed.

(** The chunks [Write] cuts hold [cs] bytes each. *)
Lemma full_chunks_length (cs : nat) (fuel : nat) : forall buf : bytes,
  Forall (fun chunk => length chunk = cs) (full_chunks fuel cs buf).
Proof.
  induction fuel as [|fuel IH]; intros buf; cbn [full_chunks];
    [constructor|].
  destruct (Nat.ltb_spec cs (length buf)); constructor.
  - rewrite length_firstn. lia.
  - apply IH.
Qed.

(** What is left of a buffer that is not empty is not empty. *)
Lemma rest_of_nonempty (cs : nat) (fuel : nat) : forall buf : bytes,
  (0 < cs)%nat -> buf <> [] -> rest_of fuel cs buf <> [].
Proof.
  induction fuel as [|fuel IH]; intros buf Hcs Hne; cbn [rest_of];
    [exact Hne|].
  destruct (Nat.ltb_spec cs (length buf)); [|exact Hne].
  apply IH; [exact Hcs|]. intros E.
  apply (f_equal (@length byte)) in E. rewrite length_skipn in E.
  cbn in E. lia.
Qed.

(** It is at most a chunk long, when the turns sufficed. *)
Lemma rest_of_length (cs : nat) (fuel : nat) : forall buf : bytes,
  (0 < cs)%nat -> (length buf <= fuel)%nat ->
  (length (rest_of fuel cs buf) <= cs)%nat.
Proof.
  induction fuel as [|fuel IH]; intros buf Hcs Hf; cbn [rest_of].
  - destruct buf; cbn in *; lia.
  - destruct (Nat.ltb_spec cs (length buf)); [|lia].
    apply IH; [exact Hcs|]. rewrite length_skipn. lia.
Qed.

Lemma uniform_chunked (cs : Z) (data : bytes) :
  0 < cs -> uniform_chunks cs (chunked cs data).
Proof.
  intros Hcs i c Hi Hlast. unfold chunked in *.
  rewrite length_app in Hlast. cbn [length] in Hlast.
  rewrite nth_error_app1 in Hi by lia.
  pose proof (full_chunks_length (Z.to_nat cs) (length data) data) as Hall.
  rewrite List.Forall_forall in Hall.
  apply nth_error_In, Hall in Hi. unfold len. lia.
Qed.

(** The number of chunks [Write] cuts. *)
Lemma length_full_chunks (cs : nat) (fuel : nat) : forall buf : bytes,
  (0 < cs)%nat -> (length buf <= fuel)%nat ->
  length (full_chunks fuel cs buf) = ((length buf - 1) / cs)%nat.
Proof.
  induction fuel as [|fuel IH]; intros buf Hcs Hf.
  - destruct buf; [|cbn in Hf; lia]. cbn. symmetry.
    apply Nat.div_small. lia.
  - cbn [full_chunks].
    destruct (Nat.ltb_spec cs (length buf)) as [Hlt|Hge].
    + cbn [length]. rewrite IH by (rewrite ?length_skipn; lia).
      rewrite length_skipn.
      replace (length buf - 1)%nat with (length buf - cs - 1 + 1 * cs)%nat
        by lia.
      rewrite Nat.div_add by lia. lia.
    + cbn [length]. symmetry. apply Nat.div_small. lia.
Qed.

Lemma length_chunked (cs : Z) (data : bytes) :
  0 < cs -> data <> [] ->
  Z.of_nat (length (chunked cs data)) = (len data - 1) / cs + 1.
Proof.
  intros Hcs Hne. unfold chunked. rewrite length_app. cbn [length].
  rewrite length_full_chunks by lia.
  destruct data as [|b data]; [contradiction|].
  unfold len. cbn [length].
  rewrite Nat2Z.inj_add, Nat2Z.inj_div, Nat2Z.inj_sub by lia.
  rewrite Z2Nat.id by lia. reflexivity.
Qed.

End ChunksOfWrites.

Section WrittenStream.
Variables zlib snappy : Codec.

Lemma stores_chunks_holds (w : World) (chunks : list bytes) :
  stores_chunks zlib snappy 0 w chunks -> holds_chunks zlib snappy w chunks.
Proof. intros H b Hb. exact (H b Hb). Qed.

Lemma nothing_written_filling (w : World) :
  nothing_written (self w) -> 0 < chunks_per_segment (self w) ->
  filling zlib snappy 0 w [].
Proof.
  intros (Hbuf & Hbevy & Hindex & Hcount & Hnum) Hcps.
  exists 0%nat, 0%nat. cbv zeta.
  split; [reflexivity|]. split; [lia|]. split; [now rewrite Hnum|].
  split; [exact Hcount|]. split; [exact Hbevy|]. split; [exact Hindex|].
  split; [constructor|]. split; [lia|]. intros b' Hb'. lia.
Qed.

Lemma LoadFromURN_nothing_written (w w' : World) :
  LoadFromURN w = Ok tt w' -> nothing_written (self w').
Proof.
  unfold LoadFromURN. step_monad.
  destruct (attributes (resolver w) !! (urn (self w), AFF4_STORED));
    [|discriminate].
  repeat match goal with
         | |- context [int_or ?v ?d] => destruct (int_or v d); try discriminate
         | |- context [compression_or ?v ?d] =>
             destruct (compression_or v d); try discriminate
         end.
  cbn. intros [= <-]. now repeat split.
Qed.

(** What [Write] does to the cursor and the size. *)
Lemma Write_cursor (data : bytes) (n : Z) (w w' : World) :
  Write zlib snappy data w = Ok n w' ->
  readptr (self w') = readptr (self w) + len data /\
  size (self w') = Z.max (size (self w)) (readptr (self w) + len data).
Proof.
  rewrite Write_unfold. cbv zeta. set (w1 := mkWorld _ _).
  destruct (Write_loop zlib snappy _ w1) as [[] w2|e w2|] eqn:E;
    try discriminate.
  apply final_Ok, Write_loop_frame in E.
  destruct E as (_ & _ & _ & _ & Es & Er & _).
  change (size (self w1)) with (size (self w)) in Es.
  change (readptr (self w1)) with (readptr (self w)) in Er.
  intros [= _ <-]. cbn [readptr with_readptr size].
  destruct (Z.gtb_spec (readptr (self w2) + len data) (size (self w2)));
    cbn; rewrite ?Er, ?Es in *; lia.
Qed.

(** The chunks cut from a buffer compress to something, each of them. *)
Lemma full_chunks_squeezed (c : Compression) (cs : Z) (fuel : nat)
    (buf : bytes) :
  0 < cs -> keeps_nonempty zlib snappy c ->
  Forall (fun chunk => compress_chunk zlib snappy c chunk <> [])
    (full_chunks fuel (Z.to_nat cs) buf).
Proof.
  intros Hcs Hkeep.
  eapply List.Forall_impl; [|apply full_chunks_length].
  intros chunk Hlen. apply Hkeep. intros ->. cbn in Hlen. lia.
Qed.

(** A sequence of writes on a stream that is being filled. *)
Lemma filling_Writes (first : Z) (pieces : list bytes) :
  forall w w' flushed,
    let buf := buffer (self w) ++ concat pieces in
    let cs := Z.to_nat (chunk_size (self w)) in
    filling zlib snappy first w flushed ->
    0 < chunk_size (self w) ->
    0 < chunks_per_segment (self w) ->
    keeps_nonempty zlib snappy (compression (self w)) ->
    len (buffer (self w)) <= chunk_size (self w) ->
    Writes zlib snappy pieces w = Ok tt w' ->
    filling zlib snappy first w'
      (flushed ++ full_chunks (length buf) cs buf) /\
    buffer (self w') = rest_of (length buf) cs buf /\
    (pieces <> [] -> dirty (self w') = true) /\
    urn (self w') = urn (self w) /\
    chunk_size (self w') = chunk_size (self w) /\
    chunks_per_segment (self w') = chunks_per_segment (self w) /\
    compression (self w') = compression (self w) /\
    readptr (self w') = readptr (self w) + len (concat pieces) /\
    (pieces <> [] ->
     size (self w')
     = Z.max (size (self w)) (readptr (self w) + len (concat pieces))).
Proof.
  induction pieces as [|data pieces IH]; intros w w' flushed; cbv zeta;
    intros Hfill Hcs Hcps Hkeep Hsmall.
  - cbn [Writes concat]. intros [= <-]. rewrite app_nil_r.
    pose proof (chunked_small _ _ Hsmall) as Hone. unfold chunked in Hone.
    destruct (full_chunks _ _ _) as [|c l]; [|destruct l; discriminate].
    injection Hone as ->. rewrite app_nil_r.
    split; [exact Hfill|]. split; [reflexivity|]. split; [congruence|].
    repeat split; try congruence. unfold len. cbn [length]. lia.
  - cbn [Writes concat]. unfold bind at 1.
    destruct (Write zlib snappy data w) as [n w1|e w1|] eqn:E1;
      try discriminate.
    intros Hrun.
    destruct (filling_Write zlib snappy first w w1 flushed data n Hfill Hcps)
      as (Hfill1 & Hbuf1 & Hd1 & Hu1 & Hcs1 & Hcps1 & Hc1);
      [now apply full_chunks_squeezed | exact E1 |].
    destruct (Write_cursor data n w w1 E1) as [Hr1 Hs1].
    set (buf1 := buffer (self w) ++ data) in *.
    assert (Hsmall1 : len (buffer (self w1)) <= chunk_size (self w1)).
    { rewrite Hbuf1, Hcs1. unfold len.
      pose proof (rest_of_length (Z.to_nat (chunk_size (self w)))
                    (length buf1) buf1 ltac:(lia) ltac:(lia)). lia. }
    destruct (IH w1 w' _ Hfill1) as (Hfill' & Hbuf' & _ & Hu' & Hcs' & Hcps'
                                       & Hc' & Hr' & Hs');
      try assumption; try (rewrite ?Hcs1, ?Hcps1, ?Hc1; assumption).
    rewrite Hcs1, Hbuf1 in Hfill', Hbuf'.
    destruct (chunked_app (chunk_size (self w)) buf1 (concat pieces) Hcs)
      as [Efull Erest].
    cbv zeta in Efull, Erest.
    rewrite app_assoc. fold buf1.
    rewrite Efull, Erest, app_assoc.
    split; [exact Hfill'|]. split; [exact Hbuf'|].
    split; [intros _|].
    { destruct pieces as [|d pieces'].
      - cbn [Writes] in Hrun. injection Hrun as <-. exact Hd1.
      - cut (dirty (self w') = true); [auto|].
        destruct (IH w1 w' _ Hfill1) as (_ & _ & Hd' & _);
          try assumption; try (rewrite ?Hcs1, ?Hcps1, ?Hc1; assumption).
        now apply Hd'. }
    rewrite Hu', Hcs', Hcps', Hc', Hr', Hr1, len_app.
    pose proof (len_nonneg data). pose proof (len_nonneg (concat pieces)).
    repeat split; try assumption; try lia.
    intros _. destruct pieces as [|d pieces'].
    + cbn [Writes] in Hrun. injection Hrun as <-. rewrite Hs1.
      unfold len. cbn [concat length]. f_equal. lia.
    + rewrite Hs', Hs1, Hr1 by discriminate. lia.
Qed.

End WrittenStream.

Section WrittenStream2.
Variables zlib snappy : Codec.

Lemma Flush_cursor (w w' : World) :
  Flush zlib snappy w = Ok tt w' ->
  size (self w') = size (self w) /\ readptr (self w') = readptr (self w).
Proof.
  intros H. apply final_Ok, Flush_final in H as (w2 & Hw2 & Hw').
  assert (size (self w2) = size (self w) /\
          readptr (self w2) = readptr (self w)) as [Hs Hr].
  { destruct Hw2 as [->|[F _]]; [now split|].
    destruct F as (_ & _ & _ & _ & Hs & Hr & _). now split. }
  destruct Hw' as [->|[->| ->]]; now split.
Qed.

(** The store after a sequence of writes and a flush on a stream into
    which nothing had been written. *)
Lemma Writes_Flush_stored (w w' : World) (pieces : list bytes) :
  let s := self w in
  let data := concat pieces in
  nothing_written s ->
  0 < chunk_size s ->
  0 < chunks_per_segment s ->
  keeps_nonempty zlib snappy (compression s) ->
  data <> [] ->
  (Writes zlib snappy pieces;;; Flush zlib snappy) w = Ok tt w' ->
  holds_chunks zlib snappy w' (chunked (chunk_size s) data) /\
  urn (self w') = urn s /\
  chunk_size (self w') = chunk_size s /\
  chunks_per_segment (self w') = chunks_per_segment s /\
  compression (self w') = compression s /\
  readptr (self w') = readptr s + len data /\
  size (self w') = Z.max (size s) (readptr s + len data).
Proof.
  cbv zeta. intros Hnew Hcs Hcps Hkeep Hdata. unfold bind.
  destruct (Writes zlib snappy pieces w) as [[] w1|e w1|] eqn:E1;
    try discriminate.
  intros E2.
  pose proof (nothing_written_filling zlib snappy w Hnew Hcps) as Hfill.
  destruct Hnew as (Hbuf & _).
  assert (Hpieces : pieces <> []) by (intros ->; now apply Hdata).
  destruct (filling_Writes zlib snappy 0 pieces w w1 [] Hfill Hcs Hcps Hkeep)
    as (Hfill1 & Hbuf1 & Hd1 & Hu1 & Hcs1 & Hcps1 & Hc1 & Hr1 & Hs1);
    [rewrite Hbuf; unfold len; cbn [length]; lia | exact E1 |].
  rewrite Hbuf in Hfill1, Hbuf1. cbn [app] in Hfill1, Hbuf1.
  destruct (filling_Flush zlib snappy 0 w1 w' _ Hfill1)
    as (Hstored & _ & Hu2 & Hcps2 & Hc2); [lia | now apply Hd1 | | exact E2 |].
  { rewrite Hc1, Hbuf1. apply Hkeep. apply rest_of_nonempty; [lia|].
    exact Hdata. }
  destruct (Flush_cursor w1 w' E2) as [Hs2 Hr2].
  split.
  - apply stores_chunks_holds. rewrite Hbuf1 in Hstored. exact Hstored.
  - rewrite Hu2, Hu1, Hcps2, Hcps1, Hc2, Hc1, Hr2, Hr1, Hs2, Hs1
      by exact Hpieces.
    repeat split.
    apply final_Ok, Flush_final in E2 as (w2 & Hw2 & Hw').
    assert (chunk_size (self w2) = chunk_size (self w1)) as Hcs2.
    { destruct Hw2 as [->|[F _]]; [reflexivity|].
      now destruct F as (_ & Hx & _). }
    rewrite <- Hcs1, <- Hcs2. destruct Hw' as [->|[->| ->]]; reflexivity.
Qed.

(** A read on the stream that was written: the window of the data from
    [offset] on, under the condition of [Read_stored] on the chunks
    visited. *)
Lemma Writes_Flush_Seek_Read (w w' : World) (pieces : list bytes)
    (offset length : Z) :
  let s := self w in
  let data := concat pieces in
  let cs := chunk_size s in
  let L := Z.min length (len data - offset) in
  let q := offset / cs in
  let k := L / cs + 1 in
  let N := (len data - 1) / cs + 1 in
  nothing_written s -> readptr s = 0 -> size s = 0 ->
  0 < cs -> 0 < chunks_per_segment s ->
  keeps_nonempty zlib snappy (compression s) ->
  round_trips zlib snappy (compression s) ->
  data <> [] ->
  0 <= offset -> 0 <= L ->
  q + k <= N ->
  (q + k = N \/ offset mod cs + L <= k * cs) ->
  (Writes zlib snappy pieces;;; Flush zlib snappy;;; Seek offset) w
  = Ok tt w' ->
  Read zlib snappy length w'
  = Ok (firstn (Z.to_nat L) (skipn (Z.to_nat offset) data)) w'.
Proof.
  cbv zeta. intros Hnew Hr0 Hs0 Hcs Hcps Hkeep Hrt Hdata Ho HL Hex Hcover.
  intros Hrun.
  assert (Hrun' : exists w1,
             (Writes zlib snappy pieces;;; Flush zlib snappy) w = Ok tt w1 /\
             w' = mkWorld (with_readptr offset (self w1)) (resolver w1)).
  { revert Hrun. unfold bind at 1.
    destruct (Writes zlib snappy pieces w) as [[] w1|e w1|] eqn:E1;
      try discriminate.
    unfold bind at 1.
    destruct (Flush zlib snappy w1) as [[] w2|e w2|] eqn:E2;
      try discriminate.
    intros [= <-]. exists w2. split; [|reflexivity].
    unfold bind. now rewrite E1. }
  destruct Hrun' as (w1 & Hrun1 & ->).
  destruct (Writes_Flush_stored w w1 pieces Hnew Hcs Hcps Hkeep Hdata Hrun1)
    as (Hheld & Hu & Hcs1 & Hcps1 & Hc1 & Hr1 & Hs1).
  rewrite Hr0 in Hr1, Hs1. rewrite Hs0 in Hs1.
  assert (Hsize : size (self w1) = len (concat pieces))
    by (pose proof (len_nonneg (concat pieces)); lia).
  set (w2 := mkWorld _ _).
  pose proof (Read_stored zlib snappy w2
                (chunked (chunk_size (self w)) (concat pieces)) length)
    as Hread.
  cbv zeta in Hread.
  change (size (self w2)) with (size (self w1)) in Hread.
  change (readptr (self w2)) with offset in Hread.
  change (chunk_size (self w2)) with (chunk_size (self w1)) in Hread.
  change (chunks_per_segment (self w2))
    with (chunks_per_segment (self w1)) in Hread.
  change (compression (self w2)) with (compression (self w1)) in Hread.
  rewrite Hsize, Hcs1, Hcps1, Hc1, concat_chunked, length_chunked in Hread
    by assumption.
  apply Hread; try assumption. now apply uniform_chunked.
Qed.

End WrittenStream2.

(** X8. On a stream into which nothing has been written, with a
    positive chunk size and number of chunks per segment and codecs
    that compress nothing but the empty string to the empty string, a
    sequence of writes followed by [Flush] leaves the store holding the
    chunks of the data written, all pieces taken together: however the
    data was divided into writes, every chunk but the last holds
    [chunk_size] bytes, the chunks together are the data, and the
    bevies hold [chunks_per_segment] of them each, with their index. *)
Theorem written_stream_is_stored (zlib snappy : Codec) (w w' : World)
    (pieces : list bytes) :
  let s := self w in
  let data := concat pieces in
  let chunks := chunked (chunk_size s) data in
  nothing_written s ->
  0 < chunk_size s ->
  0 < chunks_per_segment s ->
  keeps_nonempty zlib snappy (compression s) ->
  data <> [] ->
  (Writes zlib snappy pieces;;; Flush zlib snappy) w = Ok tt w' ->
  holds_chunks zlib snappy w' chunks /\
  concat chunks = data /\
  uniform_chunks (chunk_size s) chunks /\
  Z.of_nat (length chunks) = (len data - 1) / chunk_size s + 1 /\
  urn (self w') = urn s /\
  chunk_size (self w') = chunk_size s /\
  chunks_per_segment (self w') = chunks_per_segment s /\
  compression (self w') = compression s /\
  readptr (self w') = readptr s + len data /\
  size (self w') = Z.max (size s) (readptr s + len data).
Proof.
  cbv zeta. intros Hnew Hcs Hcps Hkeep Hdata Hrun.
  split; [|split; [|split; [|split]]].
  - eapply Writes_Flush_stored; eassumption.
  - apply concat_chunked.
  - now apply uniform_chunked.
  - now apply length_chunked.
  - eapply Writes_Flush_stored; eassumption.
Qed.

(** X9. What was written is read back: on a new stream, cursor and size
    at 0, after a sequence of writes, [Flush] and [Seek] to 0, a read of
    at least as many bytes as were written returns the data written,
    provided their number is not a multiple of the chunk size. *)
Theorem written_stream_reads_back (zlib snappy : Codec) (w w' : World)
    (pieces : list bytes) (length : Z) :
  let s := self w in
  let data := concat pieces in
  nothing_written s -> readptr s = 0 -> size s = 0 ->
  0 < chunk_size s -> 0 < chunks_per_segment s ->
  keeps_nonempty zlib snappy (compression s) ->
  round_trips zlib snappy (compression s) ->
  len data mod chunk_size s <> 0 ->
  len data <= length ->
  (Writes zlib snappy pieces;;; Flush zlib snappy;;; Seek 0) w = Ok tt w' ->
  Read zlib snappy length w' = Ok data w'.
Proof.
  cbv zeta. intros Hnew Hr0 Hs0 Hcs Hcps Hkeep Hrt Hmod Hlen Hrun.
  set (data := concat pieces) in *. set (cs := chunk_size (self w)) in *.
  assert (Hdata : data <> []).
  { intros E. rewrite E in Hmod. apply Hmod. apply Z.mod_0_l. lia. }
  assert (Hpos : 0 < len data).
  { destruct data; [contradiction|]. unfold len. cbn [List.length]. lia. }
  assert (HL : Z.min length (len data - 0) = len data) by lia.
  assert (Hdiv : (len data - 1) / cs = len data / cs).
  { pose proof (Z.div_mod (len data) cs ltac:(lia)) as Hdm.
    pose proof (Z.mod_pos_bound (len data) cs Hcs) as Hb.
    symmetry. apply (Z.div_unique _ _ _ (len data mod cs - 1)); lia. }
  pose proof (Writes_Flush_Seek_Read zlib snappy w w' pieces 0 length)
    as Hread.
  cbv zeta in Hread. fold data cs in Hread.
  rewrite HL, Hdiv in Hread.
  rewrite Hread; try assumption; try lia.
  - f_equal. change (Z.to_nat 0) with 0%nat. cbn [skipn].
    apply firstn_all2. unfold len. lia.
  - rewrite Z.div_0_l by lia. lia.
  - left. rewrite Z.div_0_l by lia. lia.
Qed.

(** X10. On the same stream a read at any offset returns the window of
    the data written, from the offset on and as long as the clamped
    length, when the [length / chunk_size + 1] chunks the read visits
    are among the chunks of the data and cover the window: the last
    chunk is among them, or the offset within the first chunk plus the
    length fits in them. *)
Theorem written_stream_window (zlib snappy : Codec) (w w' : World)
    (pieces : list bytes) (offset length : Z) :
  let s := self w in
  let data := concat pieces in
  let cs := chunk_size s in
  let L := Z.min length (len data - offset) in
  let q := offset / cs in
  let k := L / cs + 1 in
  let N := (len data - 1) / cs + 1 in
  nothing_written s -> readptr s = 0 -> size s = 0 ->
  0 < cs -> 0 < chunks_per_segment s ->
  keeps_nonempty zlib snappy (compression s) ->
  round_trips zlib snappy (compression s) ->
  data <> [] ->
  0 <= offset -> 0 <= L ->
  q + k <= N ->
  (q + k = N \/ offset mod cs + L <= k * cs) ->
  (Writes zlib snappy pieces;;; Flush zlib snappy;;; Seek offset) w
  = Ok tt w' ->
  Read zlib snappy length w'
  = Ok (firstn (Z.to_nat L) (skipn (Z.to_nat offset) data)) w'.
Proof. apply Writes_Flush_Seek_Read. Qed.

Lemma written_stream_is_stored_witness :
  let w0 := new_world 4 2 AFF4_IMAGE_COMPRESSION_STORED in
  let pieces := [bs "ABC"; bs "DEFGHI"; bs "J"] in
  let w' := state_after
              ((Writes identity_codec identity_codec pieces;;;
                Flush identity_codec identity_codec) w0) w0 in
  segment_of w' (bevy_urn_of "aff4://image" 0) = Some (bs "ABCDEFGH") /\
  segment_of w' (bevy_urn_of "aff4://image" 1) = Some (bs "IJ") /\
  size (self w') = 10.
Proof.
  cbv zeta.
  set (w0 := new_world 4 2 AFF4_IMAGE_COMPRESSION_STORED).
  set (pieces := [bs "ABC"; bs "DEFGHI"; bs "J"]).
  set (w' := state_after (_ w0) w0).
  assert (Hnew : nothing_written (self w0)).
  { split; [reflexivity|]. split; [reflexivity|]. split; [reflexivity|].
    split; reflexivity. }
  assert (Hkeep : keeps_nonempty identity_codec identity_codec
                    (compression (self w0)))
    by (intros x Hx; exact Hx).
  pose proof (written_stream_is_stored identity_codec identity_codec w0 w'
                pieces Hnew ltac:(reflexivity) ltac:(reflexivity) Hkeep
                ltac:(discriminate) ltac:(vm_compute; reflexivity))
    as (Hheld & _ & _ & _ & _ & _ & _ & _ & _ & Hsize).
  replace (chunked (chunk_size (self w0)) (concat pieces))
    with [bs "ABCD"; bs "EFGH"; bs "IJ"] in Hheld
    by (vm_compute; reflexivity).
  destruct (Hheld 0%nat ltac:(vm_compute; lia)) as (H0 & _).
  destruct (Hheld 1%nat ltac:(vm_compute; lia)) as (H1 & _).
  split; [etransitivity; [exact H0 | vm_compute; reflexivity]|].
  split; [etransitivity; [exact H1 | vm_compute; reflexivity]|].
  etransitivity; [exact Hsize | vm_compute; reflexivity].
Defined.

Lemma written_stream_reads_back_witness :
  let w0 := new_world 4 2 AFF4_IMAGE_COMPRESSION_STORED in
  let pieces := [bs "ABC"; bs "DEFGHI"; bs "J"] in
  let w' := state_after
              ((Writes identity_codec identity_codec pieces;;;
                Flush identity_codec identity_codec;;; Seek 0) w0) w0 in
  Read identity_codec identity_codec 100 w' = Ok (bs "ABCDEFGHIJ") w'.
Proof.
  cbv zeta.
  set (w0 := new_world 4 2 AFF4_IMAGE_COMPRESSION_STORED).
  set (pieces := [bs "ABC"; bs "DEFGHI"; bs "J"]).
  set (w' := state_after (_ w0) w0).
  assert (Hnew : nothing_written (self w0)).
  { split; [reflexivity|]. split; [reflexivity|]. split; [reflexivity|].
    split; reflexivity. }
  assert (Hkeep : keeps_nonempty identity_codec identity_codec
                    (compression (self w0)))
    by (intros x Hx; exact Hx).
  exact (written_stream_reads_back identity_codec identity_codec w0 w'
           pieces 100 Hnew eq_refl eq_refl ltac:(reflexivity)
           ltac:(reflexivity) Hkeep I ltac:(vm_compute; discriminate)
           ltac:(vm_compute; discriminate) ltac:(vm_compute; reflexivity)).
Defined.

Lemma written_stream_window_witness :
  let w0 := new_world 4 2 AFF4_IMAGE_COMPRESSION_STORED in
  let pieces := [bs "ABC"; bs "DEFGHI"; bs "J"] in
  let w' := state_after
              ((Writes identity_codec identity_codec pieces;;;
                Flush identity_codec identity_codec;;; Seek 2) w0) w0 in
  Read identity_codec identity_codec 5 w' = Ok (bs "CDEFG") w'.
Proof.
  cbv zeta.
  set (w0 := new_world 4 2 AFF4_IMAGE_COMPRESSION_STORED).
  set (pieces := [bs "ABC"; bs "DEFGHI"; bs "J"]).
  set (w' := state_after (_ w0) w0).
  assert (Hnew : nothing_written (self w0)).
  { split; [reflexivity|]. split; [reflexivity|]. split; [reflexivity|].
    split; reflexivity. }
  assert (Hkeep : keeps_nonempty identity_codec identity_codec
                    (compression (self w0)))
    by (intros x Hx; exact Hx).
  exact (written_stream_window identity_codec identity_codec w0 w'
           pieces 2 5 Hnew eq_refl eq_refl ltac:(reflexivity)
           ltac:(reflexivity) Hkeep I ltac:(discriminate)
           ltac:(vm_compute; discriminate) ltac:(vm_compute; discriminate)
           ltac:(vm_compute; discriminate)
           ltac:(right; vm_compute; discriminate)
           ltac:(vm_compute; reflexivity)).
Defined.

(** * Errors and reopening *)

Section Reopen.
Variables zlib snappy : Codec.

Lemma _FlushBevy_not_StructError (w w' : World) :
  _FlushBevy w <> Raise StructError w'.
Proof.
  unfold _FlushBevy. step_monad.
  destruct (attributes (resolver w) !! (urn (self w), AFF4_STORED)) as [v|];
    [|discriminate].
  destruct (bevy (self w)) as [|b bevy']; [discriminate|].
  destruct v as [v| | |]; try discriminate.
  destruct (decide (v ∈ volumes (resolver w))); discriminate.
Qed.

Lemma _FlushBevy_Ok_volume (w w' : World) :
  _FlushBevy w = Ok tt w' -> exists v, recorded_volume w = Some v.
Proof.
  unfold _FlushBevy, recorded_volume. step_monad.
  destruct (attributes (resolver w) !! (urn (self w), AFF4_STORED)) as [v|];
    [|discriminate].
  intros _. now exists v.
Qed.

(** [LoadFromURN] on a store that records the volume and the four
    properties of the stream. *)
Lemma LoadFromURN_attributes (w : World) (v : Value) (cs cps sz : Z)
    (c : Compression) :
  let get a := attributes (resolver w) !! (urn (self w), a) in
  get AFF4_STORED = Some v ->
  get AFF4_IMAGE_CHUNK_SIZE = Some (XSDInteger cs) ->
  get AFF4_IMAGE_CHUNKS_PER_SEGMENT = Some (XSDInteger cps) ->
  get AFF4_STREAM_SIZE = Some (XSDInteger sz) ->
  get AFF4_IMAGE_COMPRESSION = Some (CompressionURN c) ->
  exists w',
    LoadFromURN w = Ok tt w' /\
    chunk_size (self w') = cs /\ chunks_per_segment (self w') = cps /\
    size (self w') = sz /\ compression (self w') = c /\
    nothing_written (self w') /\
    urn (self w') = urn (self w) /\ readptr (self w') = readptr (self w) /\
    resolver w' = resolver w.
Proof.
  cbv zeta. intros H0 H1 H2 H3 H4.
  unfold LoadFromURN. step_monad. rewrite H0.
  repeat (first [rewrite H1 | rewrite H2 | rewrite H3 | rewrite H4];
          cbn [int_or compression_or self resolver urn with_chunk_size
                 with_chunks_per_segment with_size with_compression]).
  eexists. split; [reflexivity|]. cbn. now repeat split.
Qed.

Lemma recorded_attributes (s : AFF4Image) (r : Resolver) :
  let get a := attributes (recorded s r) !! (urn s, a) in
  get AFF4_STORED = attributes r !! (urn s, AFF4_STORED) /\
  get AFF4_IMAGE_CHUNK_SIZE = Some (XSDInteger (chunk_size s)) /\
  get AFF4_IMAGE_CHUNKS_PER_SEGMENT = Some (XSDInteger (chunks_per_segment s))
  /\ get AFF4_STREAM_SIZE = Some (XSDInteger (size s)) /\
  get AFF4_IMAGE_COMPRESSION = Some (CompressionURN (compression s)).
Proof.
  cbv zeta. unfold recorded. cbn [attributes]. unfold Size.
  split; [|split; [|split; [|split]]].
  - now rewrite !lookup_insert_ne by congruence.
  - rewrite !lookup_insert_ne by congruence. apply lookup_insert_eq.
  - rewrite !lookup_insert_ne by congruence. apply lookup_insert_eq.
  - rewrite !lookup_insert_ne by congruence. apply lookup_insert_eq.
  - apply lookup_insert_eq.
Qed.

End Reopen.

(** X11. [FlushChunk] raises the error of [struct.pack] exactly when
    the bevy in memory has reached [2 ^ 32] bytes, the first offset
    that does not fit the four bytes of an index entry; the chunk is
    then not taken in and the stream is as it was. *)
Theorem FlushChunk_raises_StructError_iff (zlib snappy : Codec)
    (chunk : bytes) (w w' : World) :
  FlushChunk zlib snappy chunk w = Raise StructError w' <->
  2 ^ 32 <= len (bevy (self w)) /\ w' = w.
Proof.
  split.
  - intros H.
    destruct (Z.lt_ge_cases (len (bevy (self w))) (2 ^ 32)) as [Hlt|Hge].
    + exfalso. rewrite FlushChunk_eq in H by assumption. cbv zeta in H.
      destruct (_ >=? _); [|discriminate].
      now apply _FlushBevy_not_StructError in H.
    + rewrite FlushChunk_overflow in H by assumption.
      injection H as <-. now split.
  - intros [Hge ->]. now apply FlushChunk_overflow.
Qed.

(** X12. The properties [Flush] records are those [LoadFromURN] reads:
    after a flush of a dirty stream, [LoadFromURN] returns and gives
    the object the chunk size, the number of chunks per segment, the
    size and the compression it had, with nothing in the buffer and in
    the bevy and the bevy number at 0. *)
Theorem Flush_then_LoadFromURN (zlib snappy : Codec) (w w1 : World) :
  dirty (self w) = true ->
  Flush zlib snappy w = Ok tt w1 ->
  exists w2,
    LoadFromURN w1 = Ok tt w2 /\
    chunk_size (self w2) = chunk_size (self w) /\
    chunks_per_segment (self w2) = chunks_per_segment (self w) /\
    size (self w2) = size (self w) /\
    compression (self w2) = compression (self w) /\
    nothing_written (self w2) /\
    urn (self w2) = urn (self w) /\
    readptr (self w2) = readptr (self w) /\
    resolver w2 = resolver w1.
Proof.
  intros Hd. rewrite Flush_unfold, Hd.
  destruct (FlushChunk zlib snappy _ w) as [[] wa|e wa|] eqn:E;
    try discriminate.
  destruct (_FlushBevy wa) as [[] wb|e wb|] eqn:E2; try discriminate.
  intros [= <-].
  apply final_Ok, FlushChunk_frame in E.
  destruct (_FlushBevy_Ok_volume _ _ E2) as [v Hv].
  apply final_Ok, _FlushBevy_frame in E2.
  pose proof (write_frame_trans _ _ _ E E2)
    as (Fu & Fcs & Fcps & Fc & Fs & Fr & _ & _ & Fa & _).
  destruct E2 as (Fu2 & _ & _ & _ & _ & _ & _ & _ & Fa2 & _).
  unfold recorded_volume in Hv. rewrite <- Fa2, <- Fu2 in Hv.
  destruct (recorded_attributes (self wb) (resolver wb))
    as (H0 & H1 & H2 & H3 & H4).
  rewrite Hv in H0.
  destruct (LoadFromURN_attributes
              (mkWorld (with_dirty false (self wb))
                 (recorded (self wb) (resolver wb)))
              v _ _ _ _ H0 H1 H2 H3 H4)
    as (w2 & Hload & Hcs & Hcps & Hs & Hc & Hnew & Hu & Hr & Hres).
  exists w2. rewrite Hcs, Hcps, Hs, Hc, Hu, Hr.
  cbn [self urn readptr with_dirty] in *.
  split; [exact Hload|]. repeat split; try assumption; apply Hnew.
Qed.

Lemma Flush_then_LoadFromURN_witness :
  let w0 := new_world 4 2 AFF4_IMAGE_COMPRESSION_STORED in
  let w := state_after
             (Write identity_codec identity_codec (bs "ABCDEFGHIJ") w0) w0 in
  let w1 := state_after (Flush identity_codec identity_codec w) w0 in
  dirty (self w) = true /\
  exists w2,
    LoadFromURN w1 = Ok tt w2 /\
    chunk_size (self w2) = 4 /\
    chunks_per_segment (self w2) = 2 /\
    size (self w2) = 10 /\
    compression (self w2) = AFF4_IMAGE_COMPRESSION_STORED /\
    bevy_number (self w2) = 0.
Proof.
  cbv zeta.
  set (w0 := new_world 4 2 AFF4_IMAGE_COMPRESSION_STORED).
  set (w := state_after (Write _ _ _ w0) w0).
  set (w1 := state_after (Flush _ _ w) w0).
  assert (Hd : dirty (self w) = true) by (vm_compute; reflexivity).
  split; [exact Hd|].
  destruct (Flush_then_LoadFromURN identity_codec identity_codec w w1 Hd
              ltac:(vm_compute; reflexivity))
    as (w2 & Hload & Hcs & Hcps & Hs & Hc & Hnew & _).
  exists w2. split; [exact Hload|].
  rewrite Hcs, Hcps, Hs, Hc.
  split; [vm_compute; reflexivity|]. split; [vm_compute; reflexivity|].
  split; [vm_compute; reflexivity|]. split; [vm_compute; reflexivity|].
  apply Hnew.
Defined.
